(** * palantir-client: message codec, connection channel and session hub

    A shallow embedding of the protocol core of the palantir client and of
    the extension pages around it:

    - [JS]: the JavaScript values the code manipulates (numbers, strings,
      plain objects, typed arrays), exceptions, and a small state and
      exception monad for the stateful classes;
    - [Zod]: the fragment of the zod schema language used by the message
      schemas, with its [parse] function;
    - [Messages]: the wire-message schemas and the [MessageChannel] class
      (messages.ts of the palantir-client package);
    - [Background]: the background script of the web extension, which owns
      the current session and fans its state out to the connected ports;
    - [Utils]: the page utilities of the web extension ([initComponent] and
      the form manager);
    - [OptionsPage] and [Popup]: the two pages that talk to the background
      script. *)

From Stdlib Require Import ZArith Ascii String.
From stdpp Require Import gmap strings list fin_maps.

#[local] Set Warnings "-register-all".
#[local] Open Scope string_scope.
#[local] Open Scope list_scope.

(* ===================================================================== *)
(** * JavaScript values and control flow                                  *)
(* ===================================================================== *)

Module JS.

(** A JavaScript number: NaN, an infinity, or the finite value [m * 2^e]
    (every finite double is such a dyadic). *)
Inductive number :=
| NaN
| Infinity (negative : bool)
| Finite (m e : Z).

Definition isNaN (n : number) : bool :=
  match n with NaN => true | _ => false end.

(** [a === b] on numbers: NaN differs from everything, both zeros are
    equal, finite values are compared after aligning the exponents. *)
Definition number_strict_equal (a b : number) : bool :=
  match a, b with
  | Infinity s1, Infinity s2 => Bool.eqb s1 s2
  | Finite m1 e1, Finite m2 e2 =>
      let e := Z.min e1 e2 in
      (m1 * 2 ^ (e1 - e) =? m2 * 2 ^ (e2 - e))%Z
  | _, _ => false
  end.

(** The structured values that reach the schemas: what [msgpack.decode]
    produces (nil, booleans, numbers, strings, [Uint8Array]s for bin data,
    arrays, plain objects for maps, [Date]s for the timestamp extension)
    and what outbound message bodies are made of.  A property that is
    present on an object with the value [undefined] is stored as
    [VUndefined]; an absent property has no entry. *)
Inductive value :=
| VUndefined
| VNull
| VBool (b : bool)
| VNumber (n : number)
| VString (s : string)
| VUint8Array (bytes : list Byte.byte)
| VDate (time : number)
| VArray (items : list value)
| VObject (props : gmap string value).

(** [data[key]]: reading a missing property yields [undefined].  None of the
    keys the schemas ask for names a property of a string, an array, a
    typed array or a date, so those read as [undefined] too. *)
Definition get (data : value) (key : string) : value :=
  match data with
  | VObject props => default VUndefined (props !! key)
  | _ => VUndefined
  end.

(** [key in data] *)
Definition has (data : value) (key : string) : bool :=
  match data with
  | VObject props => bool_decide (is_Some (props !! key))
  | _ => false
  end.

(** [a === b] for primitives.  Objects, arrays, typed arrays and dates are
    compared by reference; the two sides compared in this development are
    always freshly built, hence never the same reference. *)
Definition strict_equal (a b : value) : bool :=
  match a, b with
  | VUndefined, VUndefined => true
  | VNull, VNull => true
  | VBool x, VBool y => Bool.eqb x y
  | VNumber x, VNumber y => number_strict_equal x y
  | VString x, VString y => bool_decide (x = y)
  | _, _ => false
  end.

(** What a [throw] carries: an [Error] object (its name and message), or
    [null]/[undefined]. *)
Inductive exception :=
| Error (name message : string)
| Nullish.

(** [Error.prototype.toString] *)
Definition Error_toString (name message : string) : string :=
  if bool_decide (name = "") then message
  else if bool_decide (message = "") then name
  else name +:+ ": " +:+ message.

(** [e?.toString() ?? fallback] *)
Definition toString_or (e : exception) (fallback : string) : string :=
  match e with
  | Error name message => Error_toString name message
  | Nullish => fallback
  end.

(** How a call ends: it returns a value or it throws. *)
Inductive completion (A : Type) :=
| Return (a : A)
| Throw (e : exception).
Arguments Return {A} a.
Arguments Throw {A} e.

Definition cbind {A B} (c : completion A) (k : A → completion B) : completion B :=
  match c with
  | Return a => k a
  | Throw e => Throw e
  end.

(** Stateful code: a computation over the mutable state [S] that returns or
    throws; the state changes made before a [throw] persist. *)
Definition M (S A : Type) : Type := S → S * completion A.

Definition ret {S A} (a : A) : M S A := λ s, (s, Return a).
Definition throw {S A} (e : exception) : M S A := λ s, (s, Throw e).
Definition bind {S A B} (m : M S A) (k : A → M S B) : M S B :=
  λ s, match m s with
       | (s', Return a) => k a s'
       | (s', Throw e) => (s', Throw e)
       end.
(** [try { body } catch (e) { handler(e) }] *)
Definition try_catch {S A} (body : M S A) (handler : exception → M S A) : M S A :=
  λ s, match body s with
       | (s', Return a) => (s', Return a)
       | (s', Throw e) => handler e s'
       end.
Definition gets {S A} (f : S → A) : M S A := λ s, (s, Return (f s)).
Definition modify {S} (f : S → S) : M S unit := λ s, (f s, Return tt).
Definition lift {S A} (c : completion A) : M S A := λ s, (s, c).

(** Runs [f] on every element in order, as a [for ... of] loop does. *)
Fixpoint for_each {S A} (f : A → M S unit) (l : list A) : M S unit :=
  match l with
  | [] => ret tt
  | x :: rest => bind (f x) (λ _, for_each f rest)
  end.

End JS.

#[export] Instance M_ret {S} : MRet (JS.M S) := λ A, JS.ret.
#[export] Instance M_bind {S} : MBind (JS.M S) := λ A B k m, JS.bind m k.

(* ===================================================================== *)
(** * The zod schema language                                             *)
(* ===================================================================== *)

Module Zod.
Import JS.

(** [getParsedType] *)
Inductive ZodParsedType :=
| PT_undefined | PT_null | PT_boolean | PT_number | PT_nan | PT_string
| PT_array | PT_date | PT_object.

Definition getParsedType (data : value) : ZodParsedType :=
  match data with
  | VUndefined => PT_undefined
  | VNull => PT_null
  | VBool _ => PT_boolean
  | VNumber n => if isNaN n then PT_nan else PT_number
  | VString _ => PT_string
  | VUint8Array _ => PT_object
  | VDate _ => PT_date
  | VArray _ => PT_array
  | VObject _ => PT_object
  end.

Definition is_object (data : value) : bool :=
  match getParsedType data with PT_object => true | _ => false end.

(** The schema constructors the message schemas use.  An object schema is
    in zod's default "strip" mode: unknown keys are accepted and dropped. *)
Inductive StringCheck := uuid.

Inductive ZodType :=
| ZodString (checks : list StringCheck)
| ZodNumber
| ZodLiteral (lit : string)
| ZodEnum (values : list string)
| ZodOptional (inner : ZodType)
| ZodArray (element : ZodType)
| ZodObject (shape : list (string * ZodType))
| ZodDiscriminatedUnion (discriminator : string) (options : list ZodType)
| ZodIntersection (lhs rhs : ZodType).

(** ** The uuid check

    [/^[0-9a-fA-F]{8}\b-[0-9a-fA-F]{4}\b-[0-9a-fA-F]{4}\b-[0-9a-fA-F]{4}\b-[0-9a-fA-F]{12}$/i]:
    five groups of hexadecimal digits of lengths 8, 4, 4, 4 and 12 joined by
    dashes (the word boundaries before the dashes always hold). *)
Definition is_hex_digit (c : ascii) : bool :=
  let n := nat_of_ascii c in
  (((48 <=? n) && (n <=? 57)) || ((65 <=? n) && (n <=? 70))
   || ((97 <=? n) && (n <=? 102)))%nat.

Fixpoint hex_groups (groups : list nat) (cs : list ascii) : bool :=
  match groups with
  | [] => match cs with [] => true | _ => false end
  | g :: rest =>
      forallb is_hex_digit (take g cs) && (length (take g cs) =? g)%nat &&
      match rest, drop g cs with
      | [], [] => true
      | _ :: _, c :: cs' => bool_decide (c = "-"%char) && hex_groups rest cs'
      | _, _ => false
      end
  end.

Definition uuidRegex_test (s : string) : bool :=
  hex_groups [8; 4; 4; 4; 12]%nat (list_ascii_of_string s).

Definition run_check (c : StringCheck) (s : string) : bool :=
  match c with uuid => uuidRegex_test s end.

(** ** Schema builders, named as in zod *)
Module z.
Definition string := ZodString [].
Definition string_uuid := ZodString [uuid].
Definition number := ZodNumber.
Definition literal := ZodLiteral.
Definition enum := ZodEnum.
Definition optional := ZodOptional.
Definition array := ZodArray.
Definition object := ZodObject.
Definition discriminatedUnion := ZodDiscriminatedUnion.
Definition and := ZodIntersection.
End z.

Definition shape_keys (shape : list (string * ZodType)) : list string := shape.*1.

(** [schema.extend(augmentation)]: [{ ...shape, ...augmentation }] *)
Definition extend (schema : ZodType) (augmentation : list (string * ZodType)) : ZodType :=
  match schema with
  | ZodObject shape =>
      ZodObject (filter (λ kv, kv.1 ∉ shape_keys augmentation) shape ++ augmentation)
  | other => other
  end.

(** [getDiscriminator]: the values a discriminator field can take. *)
Definition getDiscriminator (t : option ZodType) : list string :=
  match t with
  | Some (ZodLiteral lit) => [lit]
  | Some (ZodEnum values) => values
  | _ => []
  end.

Fixpoint shape_lookup (shape : list (string * ZodType)) (key : string) : option ZodType :=
  match shape with
  | [] => None
  | (k, t) :: rest => if bool_decide (k = key) then Some t else shape_lookup rest key
  end.

Definition shape_of (t : ZodType) : list (string * ZodType) :=
  match t with ZodObject shape => shape | _ => [] end.

Definition discriminators (discriminator : string) (option : ZodType) : list string :=
  getDiscriminator (shape_lookup (shape_of option) discriminator).

(** ** [mergeValues], used by intersections

    Plain objects are merged key by key, arrays item by item.  A typed
    array never comes out of a schema of this fragment (see
    [ZodFacts.parse_plain]), so merging one is left invalid. *)
Fixpoint mergeValues (a b : value) {struct a} : option value :=
  if strict_equal a b then Some a
  else match a, b with
  | VObject pa, VObject pb =>
      (* newObj = { ...a, ...b }, then every shared key is merged *)
      VObject <$>
        map_fold (λ key va acc,
                    match pb !! key with
                    | Some vb =>
                        shared ← mergeValues va vb;
                        newObj ← acc;
                        Some (<[key := shared]> newObj)
                    | None => acc
                    end)
                 (Some (pb ∪ pa)) pa
  | VArray la, VArray lb =>
      if bool_decide (length la = length lb) then
        VArray <$>
          (fix merge_items (la lb : list value) : option (list value) :=
             match la, lb with
             | x :: la', y :: lb' =>
                 item ← mergeValues x y;
                 items ← merge_items la' lb';
                 Some (item :: items)
             | _, _ => Some []
             end) la lb
      else None
  | VDate ta, VDate tb =>
      if number_strict_equal ta tb then Some a else None
  | _, _ => None
  end.

(** ** [parse]

    The result is the parsed data, or [None] when zod reports an issue.
    (zod distinguishes "aborted" from "dirty" results; none of the
    constructors above turns a dirty result back into a valid one, and
    [parse] throws unless the final status is valid, so both are [None].) *)
Section parse.
Variable parse : ZodType → value → option value.

(** [ZodObject._parse] in strip mode: every key of the shape is parsed
    from [data[key]]; the parsed value is set on the final object unless
    it is [undefined] and the key is absent from the data. *)
Fixpoint parse_shape_with (data : value) (shape : list (string * ZodType))
    (finalObject : gmap string value) : option (gmap string value) :=
  match shape with
  | [] => Some finalObject
  | (key, keyValidator) :: rest =>
      parsed ← parse keyValidator (get data key);
      parse_shape_with data rest
        (if negb (strict_equal parsed VUndefined) || has data key
         then <[key := parsed]> finalObject
         else finalObject)
  end.

(** [this.optionsMap.get(discriminatorValue)] followed by the parse of the
    option found. *)
Fixpoint parse_option_with (discriminator discriminatorValue : string)
    (data : value) (options : list ZodType) : option value :=
  match options with
  | [] => None
  | option :: rest =>
      if bool_decide (discriminatorValue ∈ discriminators discriminator option)
      then parse option data
      else parse_option_with discriminator discriminatorValue data rest
  end.
End parse.

Fixpoint parse (t : ZodType) (data : value) {struct t} : option value :=
  match t with
  | ZodString checks =>
      match data with
      | VString s => if forallb (λ c, run_check c s) checks then Some data else None
      | _ => None
      end
  | ZodNumber =>
      match getParsedType data with
      | PT_number => Some data
      | _ => None
      end
  | ZodLiteral lit =>
      if strict_equal data (VString lit) then Some data else None
  | ZodEnum values =>
      match data with
      | VString s => if bool_decide (s ∈ values) then Some data else None
      | _ => None
      end
  | ZodOptional inner =>
      match data with
      | VUndefined => Some VUndefined
      | _ => parse inner data
      end
  | ZodArray element =>
      match data with
      | VArray items => VArray <$> mapM (parse element) items
      | _ => None
      end
  | ZodObject shape =>
      if is_object data
      then VObject <$> parse_shape_with parse data shape ∅
      else None
  | ZodDiscriminatedUnion discriminator options =>
      if is_object data then
        match get data discriminator with
        | VString discriminatorValue =>
            parse_option_with parse discriminator discriminatorValue data options
        | _ => None
        end
      else None
  | ZodIntersection lhs rhs =>
      parsedLeft ← parse lhs data;
      parsedRight ← parse rhs data;
      mergeValues parsedLeft parsedRight
  end.

Definition parse_shape := parse_shape_with parse.
Definition parse_option := parse_option_with parse.

(** [schema.parse(data)]: returns the parsed data or throws a [ZodError]
    (whose message, the list of issues, is not modelled). *)
Definition ZodError : exception := Error "ZodError" "".

Definition schema_parse (schema : ZodType) (data : value) : completion value :=
  match parse schema data with
  | Some parsed => Return parsed
  | None => Throw ZodError
  end.

(** ** What it means for a value to match a schema exactly

    A value conforms to an object schema when it is a plain object that has
    no key outside the shape and whose every field conforms to the field's
    schema (a field that is absent reads as [undefined], which only an
    optional field allows). *)
Inductive conforms : ZodType → value → Prop :=
| conforms_string checks s :
    Forall (λ c, run_check c s = true) checks →
    conforms (ZodString checks) (VString s)
| conforms_number n :
    isNaN n = false →
    conforms ZodNumber (VNumber n)
| conforms_literal lit :
    conforms (ZodLiteral lit) (VString lit)
| conforms_enum values s :
    s ∈ values →
    conforms (ZodEnum values) (VString s)
| conforms_optional_undefined inner :
    conforms (ZodOptional inner) VUndefined
| conforms_optional inner v :
    conforms inner v →
    conforms (ZodOptional inner) v
| conforms_array element items :
    Forall (conforms element) items →
    conforms (ZodArray element) (VArray items)
| conforms_object shape props :
    (∀ key, is_Some (props !! key) → key ∈ shape_keys shape) →
    (∀ key t, (key, t) ∈ shape → conforms t (get (VObject props) key)) →
    conforms (ZodObject shape) (VObject props)
| conforms_union discriminator options option v :
    option ∈ options →
    conforms option v →
    conforms (ZodDiscriminatedUnion discriminator options) v
| conforms_intersection lhs rhs l r v :
    conforms lhs l →
    conforms rhs r →
    mergeValues l r = Some v →
    conforms (ZodIntersection lhs rhs) v.

(** A schema is well formed when no object shape lists a key twice (as a
    JavaScript object literal cannot). *)
Fixpoint well_formed (t : ZodType) : bool :=
  match t with
  | ZodOptional inner => well_formed inner
  | ZodArray element => well_formed element
  | ZodObject shape =>
      bool_decide (NoDup (shape_keys shape)) && forallb (λ kt, well_formed kt.2) shape
  | ZodDiscriminatedUnion _ options => forallb well_formed options
  | ZodIntersection lhs rhs => well_formed lhs && well_formed rhs
  | _ => true
  end.

(** [optionsMap.get(discriminatorValue)] *)
Fixpoint optionsMap_get (discriminator : string) (options : list ZodType)
    (discriminatorValue : string) : option ZodType :=
  match options with
  | [] => None
  | option :: rest =>
      if bool_decide (discriminatorValue ∈ discriminators discriminator option)
      then Some option
      else optionsMap_get discriminator rest discriminatorValue
  end.

Definition is_optional (t : ZodType) : bool :=
  match t with ZodOptional _ => true | _ => false end.

(** The schemas built without unions and intersections. *)
Fixpoint plain (t : ZodType) : bool :=
  match t with
  | ZodOptional inner => plain inner
  | ZodArray element => plain element
  | ZodObject shape => forallb (λ kt, plain kt.2) shape
  | ZodDiscriminatedUnion _ _ | ZodIntersection _ _ => false
  | _ => true
  end.

End Zod.

#[export] Instance completion_ret : MRet JS.completion := λ A, JS.Return.
#[export] Instance completion_bind : MBind JS.completion := λ A B k c, JS.cbind c k.

(* ===================================================================== *)
(** * Wire messages and the connection channel (messages.ts)              *)
(* ===================================================================== *)

Module Messages.
Import JS Zod.

Definition ConnectionLoginMsgBodySchema := z.object [
  ("username", z.string);
  ("api_key", z.optional z.string)
].

Definition ConnectionClientErrorMsgBodySchema := z.object [
  ("message", z.string)
].

Definition ConnectionClosedReasonSchema := z.enum [
  "unauthorized";
  "server_error";
  "room_closed";
  "timeout";
  "unknown"
].

Definition ConnectionClosedMsgBodySchema := z.object [
  ("reason", ConnectionClosedReasonSchema);
  ("message", z.string)
].

Definition RoomCreateMsgBodySchema := z.object [
  ("name", z.string);
  ("password", z.string)
].

Definition RoomJoinMsgBodySchema := z.object [
  ("id", z.string_uuid);
  ("password", z.string)
].

Definition RoomUserRoleSchema := z.enum ["host"; "guest"].

Definition RoomUserSchema := z.object [
  ("id", z.string_uuid);
  ("name", z.string);
  ("role", RoomUserRoleSchema)
].

Definition RoomStateMsgBodySchema := z.object [
  ("id", z.string_uuid);
  ("name", z.string);
  ("password", z.string);
  ("users", z.array RoomUserSchema)
].

Definition RoomDisconnectedReason := z.enum ["closed_by_host"; "unauthorized"; "server_error"].

Definition RoomDisconnectedMsgBodySchema := z.object [
  ("reason", RoomDisconnectedReason)
].

Definition EmptyMessageBodySchema := z.object [].

Definition MessageBodySchema := z.discriminatedUnion "m" [
  extend ConnectionLoginMsgBodySchema [("m", z.literal "connection::login/v1")];
  extend EmptyMessageBodySchema [("m", z.literal "connection::login_ack/v1")];
  extend EmptyMessageBodySchema [("m", z.literal "connection::ping/v1")];
  extend EmptyMessageBodySchema [("m", z.literal "connection::pong/v1")];
  extend ConnectionClientErrorMsgBodySchema [("m", z.literal "connection::client_error/v1")];
  extend ConnectionClosedMsgBodySchema [("m", z.literal "connection::closed/v1")];
  extend EmptyMessageBodySchema [("m", z.literal "connection::keepalive/v1")];
  extend RoomCreateMsgBodySchema [("m", z.literal "room::create/v1")];
  extend EmptyMessageBodySchema [("m", z.literal "room::create_ack/v1")];
  extend EmptyMessageBodySchema [("m", z.literal "room::close/v1")];
  extend EmptyMessageBodySchema [("m", z.literal "room::close_ack/v1")];
  extend RoomJoinMsgBodySchema [("m", z.literal "room::join/v1")];
  extend EmptyMessageBodySchema [("m", z.literal "room::join_ack/v1")];
  extend EmptyMessageBodySchema [("m", z.literal "room::leave/v1")];
  extend EmptyMessageBodySchema [("m", z.literal "room::leave_ack/v1")];
  extend RoomDisconnectedMsgBodySchema [("m", z.literal "room::disconnected/v1")];
  extend EmptyMessageBodySchema [("m", z.literal "room::request_state/v1")];
  extend RoomStateMsgBodySchema [("m", z.literal "room::state/v1")]
].

Definition MessageMetaSchema := z.object [
  ("t", z.number)
].

Definition MessageSchema := z.and MessageMetaSchema MessageBodySchema.

(** ** The table behind the schema: tag, variant, fields *)

Definition options_of (t : ZodType) : list ZodType :=
  match t with ZodDiscriminatedUnion _ options => options | _ => [] end.

(** The variants of the union, the tags they are selected by, and the
    variant a tag selects. *)
Definition variants : list ZodType := options_of MessageBodySchema.

Definition known_tags : list string := flat_map (discriminators "m") variants.

Definition variant_for (tag : string) : option ZodType :=
  optionsMap_get "m" variants tag.

(** The fields the schema prescribes for a decoded value, given its tag:
    the timestamp and the fields of the variant. *)
Definition prescribed_fields (decoded : value) : list (string * ZodType) :=
  match get decoded "m" with
  | VString tag =>
      match variant_for tag with
      | Some variant => shape_of MessageMetaSchema ++ shape_of variant
      | None => []
      end
  | _ => []
  end.

(** The three ways in which a decoded value can fail to be a message. *)
Definition unknown_tag (decoded : value) : Prop :=
  ∀ tag, get decoded "m" = VString tag → tag ∉ known_tags.

Definition missing_required_field (decoded : value) : Prop :=
  ∃ key t, (key, t) ∈ prescribed_fields decoded ∧
           is_optional t = false ∧ has decoded key = false.

Definition wrong_field_type (decoded : value) : Prop :=
  ∃ key t, (key, t) ∈ prescribed_fields decoded ∧
           has decoded key = true ∧ parse t (get decoded key) = None.

(** A message body is valid when the body schema accepts it as it is. *)
Definition valid_body (body : gmap string value) : Prop :=
  parse MessageBodySchema (VObject body) = Some (VObject body).

(** What the proofs need to know about each variant: it is an object schema
    without unions inside, with a literal tag and no field named "t", and
    an absent value is rejected by each of its fields that is not
    optional. *)
Definition variant_ok (variant : ZodType) : bool :=
  match variant with
  | ZodObject shape =>
      plain variant &&
      bool_decide ("t" ∉ shape_keys shape) &&
      match shape_lookup shape "m" with
      | Some (ZodLiteral _) => true
      | _ => false
      end &&
      forallb (λ kt, is_optional kt.2 || bool_decide (parse kt.2 VUndefined = None)) shape
  | _ => false
  end.

(** The two third-party interfaces the channel is written against. *)

(** [msgpack.encode] and [msgpack.decode] of @msgpack/msgpack; either may
    throw. *)
Class Msgpack := {
  msgpack_encode : value → completion (list Byte.byte);
  msgpack_decode : list Byte.byte → completion value;
}.

(** The [WebSocket] of the host: its constructor, [send] and [close]. *)
Class WebSocketAPI (WebSocket : Type) := {
  WebSocket_new : string → completion WebSocket;
  WebSocket_send : list Byte.byte → M WebSocket unit;
  WebSocket_close : M WebSocket unit;
}.

(** [Date.now()]: the clock reading, an integral number of milliseconds. *)
Definition Date_now (clock : Z) : number := Finite clock 0.

(** What [evt.data] of a transport message event can be. *)
Inductive MessageData :=
| DataText (text : string)
| DataBlob (bytes : list Byte.byte)
| DataArrayBuffer (bytes : list Byte.byte)
| DataUint8Array (bytes : list Byte.byte).

(** The events of the underlying transport that the channel listens to. *)
Inductive WebSocketEvent :=
| ws_message (data : MessageData)
| ws_error
| ws_close.

(** The events a channel dispatches to its own listeners:
    [new MessageEvent(message)] and [new Event("closed")]. *)
Inductive ChannelEvent :=
| MessageEvent (message : value)
| ClosedEvent.

Definition is_closed_event (evt : ChannelEvent) : bool :=
  match evt with ClosedEvent => true | MessageEvent _ => false end.

(** One [logger.error(format, arg)] line. *)
Inductive LogArg :=
| NoArg
| DataArg (data : MessageData)
| ExceptionArg (e : exception).

Record LogLine := { format : string; arg : LogArg }.

Section MessageChannel.
Context `{Msgpack} {WebSocket : Type} `{WebSocketAPI WebSocket}.

(** The fields of the class, followed by what an instance has emitted so
    far: the events it dispatched and the lines it logged, oldest first. *)
Record MessageChannel := {
  ws : WebSocket;
  open : bool;
  dispatched : list ChannelEvent;
  log : list LogLine;
}.

(** The channel after one more logged line, one more dispatched event,
    a change of [this.open], a change of the transport. *)
Definition logged (format : string) (arg : LogArg) (this : MessageChannel)
    : MessageChannel :=
  {| ws := ws this; open := open this; dispatched := dispatched this;
     log := log this ++ [{| format := format; arg := arg |}] |}.

Definition dispatching (evt : ChannelEvent) (this : MessageChannel) : MessageChannel :=
  {| ws := ws this; open := open this; dispatched := dispatched this ++ [evt];
     log := log this |}.

Definition with_open (b : bool) (this : MessageChannel) : MessageChannel :=
  {| ws := ws this; open := b; dispatched := dispatched this; log := log this |}.

Definition with_ws (ws' : WebSocket) (this : MessageChannel) : MessageChannel :=
  {| ws := ws'; open := open this; dispatched := dispatched this; log := log this |}.

Definition logger_error (format : string) (arg : LogArg) : M MessageChannel unit :=
  modify (logged format arg).

(** [this.dispatchEvent(evt)]: the listeners run synchronously and what
    they throw is not rethrown to the dispatcher. *)
Definition dispatchEvent (evt : ChannelEvent) : M MessageChannel unit :=
  modify (dispatching evt).

(** A call on [this.ws]. *)
Definition on_ws {A} (call : M WebSocket A) : M MessageChannel A :=
  λ this, let '(ws', result) := call (ws this) in (with_ws ws' this, result).

Definition encodeMessage (clock : Z) (body : gmap string value)
    : completion (list Byte.byte) :=
  let message := body ∪ {[ "t" := VNumber (Date_now clock) ]} in
  msgpack_encode (VObject message).

Definition decodeMessage (data : list Byte.byte) : completion value :=
  decoded ← msgpack_decode data;
  message ← schema_parse MessageSchema decoded;
  mret message.

Definition constructor (url : string) : completion MessageChannel :=
  ws ← WebSocket_new url;
  mret {| ws := ws; open := true; dispatched := []; log := [] |}.

(** The listener for the transport's "message" event. *)
Definition on_message (evt_data : MessageData) : M MessageChannel unit :=
  try_catch
    (match evt_data with
     | DataUint8Array data =>
         message ← lift (decodeMessage data);
         dispatchEvent (MessageEvent message)
     | _ =>
         logger_error "Expected to receive a Uint8Array, but got %o" (DataArg evt_data)
     end)
    (λ e, logger_error "Failed to decode received message: %s" (ExceptionArg e)).

Definition isOpen : M MessageChannel bool := gets open.

Definition close : M MessageChannel unit := on_ws WebSocket_close.

Definition onClosed : M MessageChannel unit :=
  modify (with_open false);;
  dispatchEvent ClosedEvent.

(** The listener for the transport's "error" event. *)
Definition on_error : M MessageChannel unit :=
  logger_error "Websocket disconnected due to an error." NoArg;;
  onClosed.

(** The listener for the transport's "close" event. *)
Definition on_close : M MessageChannel unit := onClosed.

Definition send (clock : Z) (body : gmap string value) : M MessageChannel unit :=
  try_catch
    (bytes ← lift (encodeMessage clock body);
     on_ws (WebSocket_send bytes))
    (λ e, logger_error "Failed to send message: %s" (ExceptionArg e)).

(** The transport delivers its events one at a time. *)
Definition handle (evt : WebSocketEvent) : M MessageChannel unit :=
  match evt with
  | ws_message data => on_message data
  | ws_error => on_error
  | ws_close => on_close
  end.

Definition handle_all (evts : list WebSocketEvent) : M MessageChannel unit :=
  for_each handle evts.

(** The number of "closed" events dispatched so far. *)
Definition closed_count (this : MessageChannel) : nat :=
  length (filter (λ evt, is_closed_event evt) (dispatched this)).

(** [this.open] tells whether no "closed" event has been dispatched yet. *)
Definition open_until_closed (this : MessageChannel) : Prop :=
  open this = bool_decide (closed_count this = 0%nat).

(** Whether an event of the transport ends the connection. *)
Definition is_terminal (evt : WebSocketEvent) : bool :=
  match evt with
  | ws_error | ws_close => true
  | ws_message _ => false
  end.

(** What happens to a channel over its life: the transport delivers an
    event, or the owner calls [send] or [close].  Each is a call of its
    own: what one of them throws goes to its caller and does not keep the
    next from running. *)
Inductive Action :=
| delivers (evt : WebSocketEvent)
| calls_send (clock : Z) (body : gmap string value)
| calls_close.

Definition perform (action : Action) : M MessageChannel unit :=
  match action with
  | delivers evt => handle evt
  | calls_send clock body => send clock body
  | calls_close => close
  end.

Definition perform_all (actions : list Action) (this : MessageChannel) : MessageChannel :=
  foldl (λ this action, (perform action this).1) this actions.

(** The events of the transport among some actions, in order. *)
Definition delivered (actions : list Action) : list WebSocketEvent :=
  omap (λ action, match action with delivers evt => Some evt | _ => None end) actions.
End MessageChannel.

End Messages.

(* ===================================================================== *)
(** * The background script of the web extension (background/+index.ts)   *)
(* ===================================================================== *)

Module Background.
Import JS.

(** ** What the script imports *)

(** [SessionOptions] and [RoomInit], as the script builds them. *)
Record SessionOptions := {
  username : string;
  url : string;
  apiKey : option string;
}.

Record RoomInit := {
  name : string;
  password : string;
}.

(** Modelled from the spec: the [SessionState] snapshot of palantir-client
    (whether a room is joined, the room connection status and, if joined,
    the cached room state); the script itself only builds
    [{ inRoom: false }]. *)
Inductive RoomConnectionStatus := NOT_IN_ROOM | JOINING | IN_ROOM | LEAVING.

Record RoomUser := { user_id : string; user_name : string; is_host : bool }.

Record RoomState := {
  room_id : string;
  room_name : string;
  room_password : string;
  users : list RoomUser;
}.

Record SessionState := {
  inRoom : bool;
  roomConnectionStatus : option RoomConnectionStatus;
  room : option RoomState;
}.

(** Modelled from the spec: the [Session] class of palantir-client, as far
    as the script uses it.  Every method may throw; [getState] is a plain
    getter. *)
Class SessionAPI (Session : Type) := {
  Session_new : SessionOptions → completion Session;
  Session_close : string → M Session unit;
  Session_createRoom : RoomInit → M Session unit;
  Session_joinRoom : string → string → M Session unit;
  Session_leaveRoom : M Session unit;
  Session_getState : Session → SessionState;
}.

(** The host settings record that [getOptions()] resolves to. *)
Record Options := {
  options_username : option string;
  options_serverUrl : option string;
  options_apiKey : option string;
}.

(** [!s] for an optional string: [undefined] and the empty string are
    falsy. *)
Definition falsy (s : option string) : bool :=
  match s with
  | None => true
  | Some text => bool_decide (text = "")
  end.

(** Modelled from the spec: the messages exchanged with the UI surfaces
    (the [MessageSchema] of the extension's messages module). *)
Inductive Message :=
| get_session_state
| create_room (name password : string)
| join_room (id password : string)
| leave_room
| session_state (state : SessionState)
| session_error (message : string)
| options_changed.

(** What arrives on a port: something [MessageSchema.parse] accepts, or
    something it rejects with the given error. *)
Inductive RawMessage :=
| well_formed (message : Message)
| malformed (e : exception).

Definition MessageSchema_parse (rawMsg : RawMessage) : completion Message :=
  match rawMsg with
  | well_formed message => Return message
  | malformed e => Throw e
  end.

(** [message.type] *)
Definition type (message : Message) : string :=
  match message with
  | get_session_state => "get_session_state"
  | create_room _ _ => "create_room"
  | join_room _ _ => "join_room"
  | leave_room => "leave_room"
  | session_state _ => "session_state"
  | session_error _ => "session_error"
  | options_changed => "options_changed"
  end.

(** A [browser.runtime.Port]: its identity and its name. *)
Record Port := { port_id : nat; port_name : string }.

#[export] Instance Port_eq_dec : EqDecision Port.
Proof. solve_decision. Defined.

(** ** What the script does to the outside, in order *)

Inductive Level := debug | info | warning | error.

Inductive SessionMethod :=
| call_close (message : string)
| call_addEventListener_update
| call_createRoom (init : RoomInit)
| call_joinRoom (id password : string)
| call_leaveRoom.

Inductive HubEvent :=
| update_event
| error_event (detail : string).

Inductive Effect :=
| Logged (level : Level) (text : string)
| LoggedMessage (level : Level) (text : string) (message : Message)
| Constructed (options : SessionOptions) (ref : option nat)
    (* [new Session(options)]; the reference of the new object unless the
       constructor threw *)
| Called (ref : nat) (method : SessionMethod) (outcome : completion unit)
| Assigned (ref : option nat)
    (* [session = ...] *)
| Dispatched (evt : HubEvent)
    (* [events.dispatchEvent(evt)] *)
| Posted (port : Port) (message : Message)
    (* [port.postMessage(message)] *)
| OptionsInvalidated.

Section Background.
Context {Session : Type} `{SessionAPI Session}.

(** The state of the script: the module variable [session] (a reference
    into the store of the [Session] objects built so far, which stay
    alive after they are superseded), the sessions [onSessionUpdate] is
    registered on, the listeners registered on [events], and the trace of
    the effects so far, oldest first. *)
Record State := {
  session : option nat;
  store : list Session;
  listening_to : list nat;
  update_listeners : list Port;
  error_listeners : list Port;
  trace : list Effect;
}.

(** The script once loaded: no session, no port, one line logged. *)
Definition initial : State :=
  {| session := None; store := []; listening_to := [];
     update_listeners := []; error_listeners := [];
     trace := [Logged info "Background script started"] |}.

(** The state after more effects, an assignment to [session], a change
    of the store, of the listeners. *)
Definition emitting (effects : list Effect) (st : State) : State :=
  {| session := session st; store := store st; listening_to := listening_to st;
     update_listeners := update_listeners st; error_listeners := error_listeners st;
     trace := trace st ++ effects |}.

Definition with_session (ref : option nat) (st : State) : State :=
  {| session := ref; store := store st; listening_to := listening_to st;
     update_listeners := update_listeners st; error_listeners := error_listeners st;
     trace := trace st |}.

Definition with_store (objects : list Session) (st : State) : State :=
  {| session := session st; store := objects; listening_to := listening_to st;
     update_listeners := update_listeners st; error_listeners := error_listeners st;
     trace := trace st |}.

Definition with_listening_to (refs : list nat) (st : State) : State :=
  {| session := session st; store := store st; listening_to := refs;
     update_listeners := update_listeners st; error_listeners := error_listeners st;
     trace := trace st |}.

Definition with_listeners (updates errors : list Port) (st : State) : State :=
  {| session := session st; store := store st; listening_to := listening_to st;
     update_listeners := updates; error_listeners := errors;
     trace := trace st |}.

Definition emit (effect : Effect) : M State unit :=
  modify (emitting [effect]).

Definition logger (level : Level) (text : string) : M State unit :=
  emit (Logged level text).

(** [session = ref] *)
Definition assign (ref : option nat) : M State unit :=
  modify (with_session ref);;
  emit (Assigned ref).

Definition set_store (objects : list Session) : M State unit :=
  modify (with_store objects).

Definition set_listeners (updates errors : list Port) : M State unit :=
  modify (with_listeners updates errors).

(** [new Session(options)] *)
Definition new_Session (options : SessionOptions) : M State nat :=
  match Session_new options with
  | Return object =>
      objects ← gets store;
      set_store (objects ++ [object]);;
      emit (Constructed options (Some (length objects)));;
      mret (length objects)
  | Throw e =>
      emit (Constructed options None);;
      throw e
  end.

(** A method call on the [Session] object that [ref] refers to. *)
Definition call (ref : nat) (method : SessionMethod) (body : M Session unit)
    : M State unit :=
  objects ← gets store;
  match objects !! ref with
  | Some object =>
      let '(object', outcome) := body object in
      set_store (<[ref := object']> objects);;
      emit (Called ref method outcome);;
      lift outcome
  | None => mret tt
  end.

(** [session.addEventListener("update", onSessionUpdate)] *)
Definition addEventListener_update (ref : nat) : M State unit :=
  listening ← gets listening_to;
  modify (with_listening_to
            (if bool_decide (ref ∈ listening) then listening else listening ++ [ref]));;
  emit (Called ref call_addEventListener_update (Return tt)).

Definition stopSession (message : string) : M State unit :=
  current ← gets session;
  match current with
  | None => mret tt
  | Some ref =>
      logger info ("Stopping current session: " +:+ message);;
      call ref (call_close message) (Session_close message)
  end.

Definition startSession (options : SessionOptions) : M State unit :=
  logger info "Starting new session";;
  stopSession "Superseded by another session";;
  ref ← new_Session options;
  assign (Some ref);;
  addEventListener_update ref.

Definition getSessionState : M State SessionState :=
  current ← gets session;
  match current with
  | None => mret {| inRoom := false; roomConnectionStatus := None; room := None |}
  | Some ref =>
      objects ← gets store;
      match objects !! ref with
      | Some object => mret (Session_getState object)
      | None => mret {| inRoom := false; roomConnectionStatus := None; room := None |}
      end
  end.

Definition postMessage (port : Port) (message : Message) : M State unit :=
  emit (Posted port message).

Definition postSessionState (port : Port) : M State unit :=
  state ← getSessionState;
  postMessage port (session_state state).

Definition postSessionError (port : Port) (message : string) : M State unit :=
  postMessage port (session_error message).

(** [events.dispatchEvent(evt)]: the listeners of the event run in the
    order they were added. *)
Definition dispatchEvent (evt : HubEvent) : M State unit :=
  emit (Dispatched evt);;
  match evt with
  | update_event =>
      listeners ← gets update_listeners;
      for_each postSessionState listeners
  | error_event detail =>
      listeners ← gets error_listeners;
      for_each (λ port, postSessionError port detail) listeners
  end.

Definition onSessionUpdate : M State unit :=
  dispatchEvent update_event.

Definition sendError (message : string) : M State unit :=
  logger error ("Session error: " +:+ message);;
  dispatchEvent (error_event message).

Definition incomplete_options_message : string :=
  "Incomplete options. Please use the extension options page to make sure you have a valid server URL and username set.".

(** The script's [async] functions are modelled as running to completion
    once the promises they await have resolved: [options] stands for the
    record that [getOptions()] resolves to, which is only looked at when
    there is no current session.  Calls that overlap at an [await] are
    covered by the resumption inputs of the event loop below. *)

(** The body of [startSessionFromOptions] once [getOptions()] has
    resolved to [options]. *)
Definition startSessionFromOptions (options : Options) : M State unit :=
  if falsy (options_username options) || falsy (options_serverUrl options) then
    logger error "Failed to start session: Options is incomplete";;
    sendError incomplete_options_message
  else
    startSession {| username := default "" (options_username options);
                    url := default "" (options_serverUrl options);
                    apiKey := options_apiKey options |}.

Definition tryEnsureSession (options : Options) : M State unit :=
  current ← gets session;
  if current is None then startSessionFromOptions options else mret tt.

(** [createRoom] and [joinRoom]: the whole call, and the part of it that
    runs after [await tryEnsureSession()]. *)
Definition createRoom_resumed (init : RoomInit) : M State unit :=
  current ← gets session;
  match current with
  | None => mret tt
  | Some ref =>
      try_catch
        (call ref (call_createRoom init) (Session_createRoom init))
        (λ e, sendError ("Failed to create room: " +:+ toString_or e "unknown error");;
              assign None)
  end.

Definition createRoom (options : Options) (init : RoomInit) : M State unit :=
  tryEnsureSession options;;
  createRoom_resumed init.

Definition joinRoom_resumed (id password : string) : M State unit :=
  current ← gets session;
  match current with
  | None => mret tt
  | Some ref =>
      try_catch
        (call ref (call_joinRoom id password) (Session_joinRoom id password))
        (λ e, sendError ("Failed to join room: " +:+ toString_or e "unknown error");;
              assign None)
  end.

Definition joinRoom (options : Options) (id password : string) : M State unit :=
  tryEnsureSession options;;
  joinRoom_resumed id password.

Definition leaveRoom : M State unit :=
  try_catch
    (current ← gets session;
     match current with
     | Some ref => call ref call_leaveRoom Session_leaveRoom
     | None => mret tt
     end)
    (λ e, sendError ("Failed to leave room: " +:+ toString_or e "unknown error");;
          assign None).

(** [void promise]: a rejection of the promise does not reach the caller. *)
Definition void (promise : M State unit) : M State unit :=
  try_catch promise (λ _, mret tt).

(** The listener of [browser.runtime.onConnect]. *)
Definition onConnect (port : Port) : M State unit :=
  logger debug ("Received port connection: '" +:+ port_name port +:+ "'");;
  updates ← gets update_listeners;
  errors ← gets error_listeners;
  set_listeners (updates ++ [port]) (errors ++ [port]).

(** The listener of [port.onDisconnect]. *)
Definition onDisconnect (port : Port) : M State unit :=
  logger debug ("Port '" +:+ port_name port +:+ "' disconnected");;
  updates ← gets update_listeners;
  errors ← gets error_listeners;
  set_listeners (filter (λ p, p ≠ port) updates) (filter (λ p, p ≠ port) errors).

(** The listener of [port.onMessage]. *)
Definition onPortMessage (options : Options) (port : Port) (rawMsg : RawMessage)
    : M State unit :=
  match MessageSchema_parse rawMsg with
  | Throw e =>
      logger error ("Received invalid message from port '" +:+ port_name port +:+ "': "
                    +:+ toString_or e "Unknown error")
  | Return message =>
      emit (LoggedMessage debug
              ("Received message from port '" +:+ port_name port +:+ "': ") message);;
      match message with
      | join_room id password => void (joinRoom options id password)
      | create_room name password =>
          void (createRoom options {| name := name; password := password |})
      | leave_room => leaveRoom
      | _ =>
          logger warning ("Received unexpected message from port '" +:+ port_name port
                          +:+ "': " +:+ type message)
      end
  end.

(** The listener of [browser.runtime.onMessage]. *)
Definition onRuntimeMessage (rawMsg : RawMessage) : M State unit :=
  match MessageSchema_parse rawMsg with
  | Throw e =>
      logger error ("Received invalid message: " +:+ toString_or e "Unknown error")
  | Return message =>
      emit (LoggedMessage debug "Received message: " message);;
      match message with
      | options_changed => emit OptionsInvalidated
      | _ => logger warning ("Recieved unexpected message: " +:+ type message)
      end
  end.

(** The listener [onSessionUpdate] runs when a session it is registered
    on emits "update". *)
Definition onSessionEvent (ref : nat) : M State unit :=
  listening ← gets listening_to;
  if bool_decide (ref ∈ listening) then onSessionUpdate else mret tt.

(** The script as an event loop.  Its inputs are the events it has
    listeners for, each handled to completion, and the resumptions of calls
    of [createRoom] and [joinRoom] that were suspended while something else
    ran: [getOptions()] resolving inside [startSessionFromOptions], and
    [await tryEnsureSession()] returning. *)
Inductive Input :=
| port_connected (port : Port)
| port_disconnected (port : Port)
| port_message (options : Options) (port : Port) (rawMsg : RawMessage)
| runtime_message (rawMsg : RawMessage)
| session_update (ref : nat)
| options_resolved (options : Options)
| createRoom_resumes (init : RoomInit)
| joinRoom_resumes (id password : string).

Definition step (input : Input) : M State unit :=
  match input with
  | port_connected port => onConnect port
  | port_disconnected port => onDisconnect port
  | port_message options port rawMsg => onPortMessage options port rawMsg
  | runtime_message rawMsg => onRuntimeMessage rawMsg
  | session_update ref => onSessionEvent ref
  | options_resolved options => void (startSessionFromOptions options)
  | createRoom_resumes init => void (createRoom_resumed init)
  | joinRoom_resumes id password => void (joinRoom_resumed id password)
  end.

Definition run (inputs : list Input) : M State unit := for_each step inputs.

(** [session] never dangles: it refers to an object of the store. *)
Definition coherent (st : State) : Prop :=
  ∀ ref, session st = Some ref → (ref < length (store st))%nat.

(** The common shape of [createRoom] and [joinRoom]: ensure a session,
    then try the operation on it. *)
Definition ensured_operation (options : Options) (method : SessionMethod)
    (body : M Session unit) (label : string) : M State unit :=
  tryEnsureSession options;;
  current ← gets session;
  match current with
  | None => mret tt
  | Some ref =>
      try_catch
        (call ref method body)
        (λ e, sendError (label +:+ toString_or e "unknown error");;
              assign None)
  end.

(** What the listeners of an error event post. *)
Definition error_posts (detail : string) (st : State) : list Effect :=
  map (λ port, Posted port (session_error detail)) (error_listeners st).

(** The effects added by a run that started in the state [before]. *)
Definition effects_since (before : State) (after : State) : list Effect :=
  drop (length (trace before)) (trace after).

(** What [getSessionState] reads. *)
Definition snapshot (st : State) : SessionState :=
  match session st with
  | Some ref =>
      match store st !! ref with
      | Some object => Session_getState object
      | None => {| inRoom := false; roomConnectionStatus := None; room := None |}
      end
  | None => {| inRoom := false; roomConnectionStatus := None; room := None |}
  end.

(** What a run of the script is confined to, seen from the state it
    starts in: it adds to the trace; it leaves the listeners of [events]
    as they are and posts only to the ports that are listening; it calls a
    method only on the current session or on a session it has constructed;
    it removes no session; and [session] ends as it was, as [null], or as
    a session constructed on the way. *)
Definition confined (before after : State) : Prop :=
  ∃ effects,
    trace after = trace before ++ effects ∧
    update_listeners after = update_listeners before ∧
    error_listeners after = error_listeners before ∧
    (∀ port message, Posted port message ∈ effects →
       port ∈ update_listeners before ∨ port ∈ error_listeners before) ∧
    (∀ ref method outcome, Called ref method outcome ∈ effects →
       session before = Some ref ∨ (length (store before) ≤ ref)%nat) ∧
    (length (store before) ≤ length (store after))%nat ∧
    (∀ ref, session after = Some ref →
       session before = Some ref ∨ (length (store before) ≤ ref)%nat).

(** A computation is confined from a state when its run from there is. *)
Definition confined_from {A} (st : State) (m : M State A) : Prop :=
  confined st (m st).1.
End Background.

(** The details of the error events among some effects, in order. *)
Definition error_events (effects : list Effect) : list string :=
  omap (λ effect, match effect with
                  | Dispatched (error_event detail) => Some detail
                  | _ => None
                  end) effects.

(** The claim that the reference to the current session is replaced before
    the teardown of the old session is requested: some assignment of
    another session precedes a call of [close] on the old one. *)
Definition superseded_before_teardown (old : nat) (effects : list Effect) : Prop :=
  ∃ i j new message outcome,
    effects !! i = Some (Assigned (Some new)) ∧ new ≠ old ∧
    effects !! j = Some (Called old (call_close message) outcome) ∧
    (i < j)%nat.

(** A use of the network: a session is constructed or a room operation is
    called on one. *)
Definition uses_network (effect : Effect) : bool :=
  match effect with
  | Constructed _ _ => true
  | Called _ (call_createRoom _) _ => true
  | Called _ (call_joinRoom _ _) _ => true
  | Called _ call_leaveRoom _ => true
  | _ => false
  end.

(** The claim about an intent issued with incomplete credentials: nothing
    touches the network and an error event is raised. *)
Definition refused_with_error (effects : list Effect) : Prop :=
  forallb (λ effect, negb (uses_network effect)) effects = true ∧
  error_events effects ≠ [].

Definition incomplete (options : Options) : bool :=
  falsy (options_username options) || falsy (options_serverUrl options).

(** What a failed room operation leaves behind, [st] being the state the
    call started from and [result] what it gave: the call returned
    normally, no session is current, one error event was dispatched, with
    the detail [detail], and [tryEnsureSession], with which the next
    create-room or join-room call begins, calls the constructor when the
    options are complete; the session the constructor returns is then the
    current one, under a reference that no session held before. *)
Definition invalidated {Session : Type} `{SessionAPI Session}
    (detail : string) (st : @State Session) (result : @State Session * completion unit)
    : Prop :=
  result.2 = Return tt ∧
  session result.1 = None ∧
  error_events (effects_since st result.1) = [detail] ∧
  ∀ next, incomplete next = false →
    (∃ fresh, Constructed {| username := default "" (options_username next);
                             url := default "" (options_serverUrl next);
                             apiKey := options_apiKey next |} fresh
                ∈ effects_since result.1 (tryEnsureSession next result.1).1) ∧
    (∀ new, Session_new {| username := default "" (options_username next);
                           url := default "" (options_serverUrl next);
                           apiKey := options_apiKey next |} = Return new →
       ∃ fresh, session (tryEnsureSession next result.1).1 = Some fresh ∧
                store result.1 !! fresh = None ∧
                store (tryEnsureSession next result.1).1 !! fresh = Some new).

(** The effects that only write to the log or drop the cached options. *)
Definition is_housekeeping (effect : Effect) : bool :=
  match effect with
  | Logged _ _ | LoggedMessage _ _ _ | OptionsInvalidated => true
  | _ => false
  end.

(** The messages posted on a port, in order. *)
Definition posted_to (port : Port) (effects : list Effect) : list Message :=
  omap (λ effect, match effect with
                  | Posted target message =>
                      if bool_decide (target = port) then Some message else None
                  | _ => None
                  end) effects.

End Background.

(* ===================================================================== *)
(** * The page utilities of the web extension (utils)                     *)
(* ===================================================================== *)

Module Utils.
Import JS.

(** ** The part of the DOM the utilities touch

    A node carries the chain of the interfaces it implements, its own
    first (for a text input: [HTMLInputElement], [HTMLElement], [Element],
    [Node], [EventTarget]), and the properties the utilities read or
    write. *)
Record Node := {
  interfaces : list string;
  id : string;
  name : string;
  type : string;
  value : string;
  checked : bool;
  disabled : bool;
}.

(** [node instanceof runtimeType] and [node.constructor.name] *)
Definition instanceof (node : Node) (runtimeType : string) : bool :=
  bool_decide (runtimeType ∈ interfaces node).

Definition constructor_name (node : Node) : string :=
  hd "Object" (interfaces node).

(** ** [initComponent] *)

Record MutationRecord := {
  addedNodes : list Node;
  removedNodes : list Node;
}.

Section initComponent.
Context {S : Type}.
(** [node.matches(query)], the module's [logger.error], and the arguments
    of the call. *)
Variable matches : Node → string → bool.
Variable logger_error : string → M S unit.
Variable query : string.
Variable runtimeType : string.
Variable handler : Node → M S unit.
Variable cleanup : option (Node → M S unit).

Definition unexpected_type : string :=
  "Component query '" +:+ query +:+ "' matched element not of expected type "
  +:+ runtimeType.

(** The body of the loop over [document.querySelectorAll(query)]. *)
Definition initial_elem (elem : Node) : M S unit :=
  if negb (instanceof elem runtimeType) then logger_error unexpected_type
  else handler elem.

(** The bodies of the loops over [record.addedNodes] and
    [record.removedNodes]. *)
Definition changed_node (callback : Node → M S unit) (node : Node) : M S unit :=
  if negb (instanceof node "Element") then ret tt
  else if negb (matches node query) then ret tt
  else if negb (instanceof node runtimeType) then logger_error unexpected_type
  else callback node.

(** The callback of the [MutationObserver]: [if (!cleanup) return;] sits
    inside the loop over the records and leaves the callback. *)
Fixpoint observer (records : list MutationRecord) : M S unit :=
  match records with
  | [] => ret tt
  | record :: rest =>
      for_each (changed_node handler) (addedNodes record);;
      match cleanup with
      | None => ret tt
      | Some cleanup =>
          for_each (changed_node cleanup) (removedNodes record);;
          observer rest
      end
  end.

(** The synchronous part of [initComponent], given what
    [document.querySelectorAll(query)] returns. *)
Definition initComponent (initialElems : list Node) : M S unit :=
  for_each initial_elem initialElems.
End initComponent.

(** ** [initForm] *)

Inductive FormMode := SUBMIT | EDIT.

(** A [FormDataEntryValue] is a string or a [File]; a [FormFieldValue] is a
    [FormDataEntryValue], a boolean or [null]. *)
Inductive FormDataEntryValue :=
| EntryString (s : string)
| EntryFile (filename : string).

Inductive FormFieldValue :=
| FEntry (entry : FormDataEntryValue)
| FBoolean (b : bool)
| FNull.

(** A [FormData] object, and [data.get(name)]: the first entry of that
    name, or [null]. *)
Definition FormData : Type := list (string * FormDataEntryValue).

Fixpoint FormData_get (data : FormData) (name : string) : option FormDataEntryValue :=
  match data with
  | [] => None
  | (key, entry) :: rest =>
      if bool_decide (key = name) then Some entry else FormData_get rest name
  end.

(** What a field of [FormValues] holds: a value, or a function whose call
    (awaited) returns a value or throws. *)
Inductive ValueOrGetter :=
| plain_value (v : FormFieldValue)
| getter (result : completion (option FormFieldValue)).

Record FieldValidationState := {
  changed : bool;
  valid : bool;
}.

(** What [form.elements.namedItem(name)] returns besides [null] (which it
    returns for the empty name and for a name no control has): the one
    control whose id or name it is, or a [RadioNodeList] when there are
    several. *)
Inductive NamedItem :=
| control (ref : nat)
| RadioNodeList.

(** What the form manager works on: the nodes of the document, which the
    code holds by reference (an index into [dom]); the closure variable
    [validationState]; and what it has emitted, oldest first: the lines
    written with [logger.error] and the targets of the "change" events
    dispatched. *)
Record FormState := {
  dom : list Node;
  validationState : gmap string FieldValidationState;
  log : list string;
  dispatched : list nat;
}.

Definition with_dom (nodes : list Node) (st : FormState) : FormState :=
  {| dom := nodes; validationState := validationState st; log := log st;
     dispatched := dispatched st |}.

Definition logging (text : string) (st : FormState) : FormState :=
  {| dom := dom st; validationState := validationState st; log := log st ++ [text];
     dispatched := dispatched st |}.

Definition dispatching (target : nat) (st : FormState) : FormState :=
  {| dom := dom st; validationState := validationState st; log := log st;
     dispatched := dispatched st ++ [target] |}.

Definition with_checked (b : bool) (node : Node) : Node :=
  {| interfaces := interfaces node; id := id node; name := name node; type := type node;
     value := value node; checked := b; disabled := disabled node |}.

Definition with_value (s : string) (node : Node) : Node :=
  {| interfaces := interfaces node; id := id node; name := name node; type := type node;
     value := s; checked := checked node; disabled := disabled node |}.

Definition with_disabled (b : bool) (node : Node) : Node :=
  {| interfaces := interfaces node; id := id node; name := name node; type := type node;
     value := value node; checked := checked node; disabled := b |}.

(** Whether a control answers to a name: by its id or by its name. *)
Definition is_named (fieldName : string) (node : Node) : bool :=
  bool_decide (id node = fieldName) || bool_decide (name node = fieldName).

(** The value a field of [FormValues] stands for, if any. *)
Definition resolved (entry : option ValueOrGetter) : option FormFieldValue :=
  match entry with
  | Some (plain_value v) => Some v
  | Some (getter (Return v)) => v
  | _ => None
  end.

Section initForm.
(** [JSON.stringify] on a field value, the value sanitization the host
    applies when [input.value] is assigned (by input type), what the
    listeners of a "change" event do when it is dispatched on a node, and
    what the call closes over: [options.mode], the controls of the form
    ([form.elements]) and its submit elements, as references into the
    DOM. *)
Variable JSON_stringify : FormFieldValue → string.
Variable sanitize : string → string → string.
Variable on_change : nat → M FormState unit.
Variable mode : option FormMode.
Variable elements : list nat.
Variable submitElements : list nat.

Definition logger_error (text : string) : M FormState unit := modify (logging text).

(** A property write on the node [ref] refers to. *)
Definition update (ref : nat) (f : Node → Node) : M FormState unit :=
  modify (λ st, with_dom (alter f ref (dom st)) st).

(** The controls of the form that answer to a name. *)
Definition answers_to (nodes : list Node) (fieldName : string) (ref : nat) : bool :=
  match nodes !! ref with
  | Some node => is_named fieldName node
  | None => false
  end.

Definition named_controls (nodes : list Node) (fieldName : string) : list nat :=
  filter (λ ref, answers_to nodes fieldName ref) elements.

Definition namedItem (fieldName : string) : M FormState (option NamedItem) :=
  nodes ← gets dom;
  mret (if bool_decide (fieldName = "") then None
        else match named_controls nodes fieldName with
             | [] => None
             | [ref] => Some (control ref)
             | _ => Some RadioNodeList
             end).

(** [input.dispatchEvent(new CustomEvent("change", ...))]: the listeners
    run before the call returns; what a listener throws is reported by
    the host and does not reach the caller. *)
Definition dispatchEvent (ref : nat) : M FormState unit :=
  modify (dispatching ref);;
  try_catch (on_change ref) (λ _, mret tt).

(** The body of the loop of [set]. *)
Definition set_field (field : string * option ValueOrGetter) : M FormState unit :=
  let '(fieldName, entry) := field in
  value ← match entry with
          | Some (getter result) => lift result
          | Some (plain_value v) => mret (Some v)
          | None => mret None
          end;
  match value with
  | None => mret tt
  | Some value =>
      input ← namedItem fieldName;
      nodes ← gets dom;
      match input with
      | None => logger_error ("Form has no field with name " +:+ fieldName)
      | Some RadioNodeList =>
          logger_error "Form field had unexpected type: RadioNodeList"
      | Some (control ref) =>
          match nodes !! ref with
          | None => mret tt
          | Some node =>
              if negb (instanceof node "HTMLInputElement") then
                logger_error ("Form field had unexpected type: " +:+ constructor_name node)
              else if bool_decide (type node = "checkbox") then
                match value with
                | FBoolean b =>
                    update ref (with_checked b);;
                    dispatchEvent ref
                | _ =>
                    logger_error ("Cannot assign value " +:+ JSON_stringify value
                                  +:+ " to field " +:+ fieldName
                                  +:+ ": Only boolean values can be assigned to checkboxes")
                end
              else
                match value with
                | FEntry (EntryString s) =>
                    update ref (with_value (sanitize (type node) s));;
                    dispatchEvent ref
                | _ =>
                    logger_error ("Cannot assign value " +:+ JSON_stringify value
                                  +:+ " to field " +:+ fieldName
                                  +:+ ": Only string values can be assigned to generic input elements")
                end
          end
      end
  end.

(** [set], with the enumerable properties of [values] in the order of
    [for ... in]; a property that holds [undefined] is [None].  One call
    is followed on its own: what other tasks do while it awaits a getter
    is not part of it. *)
Definition set (values : list (string * option ValueOrGetter)) : M FormState unit :=
  for_each set_field values.

Definition computeCanSubmit : M FormState bool :=
  states ← gets validationState;
  let isValid := forallb valid (map_to_list states).*2 in
  if negb isValid then mret false
  else
    match mode with
    | Some EDIT =>
        let isChanged := existsb changed (map_to_list states).*2 in
        if negb isChanged then mret false else mret true
    | _ => mret true
    end.

Definition setSubmitButtonState : M FormState unit :=
  canSubmit ← computeCanSubmit;
  for_each (λ ref,
              nodes ← gets dom;
              match nodes !! ref with
              | None => mret tt
              | Some submitButton =>
                  if negb (instanceof submitButton "HTMLButtonElement")
                     || negb (instanceof submitButton "HTMLInputElement")
                  then mret tt
                  else update ref (with_disabled (negb canSubmit))
              end)
           submitElements.
End initForm.

(** What one round of the loop of [set] can do to a node: write [checked]
    of a checkbox from a boolean, or [value] of another input from a
    string. *)
Definition written (sanitize : string → string → string)
    (field : string * option ValueOrGetter) (node node' : Node) : Prop :=
  instanceof node "HTMLInputElement" = true ∧
  is_named field.1 node = true ∧
  ((type node = "checkbox" ∧
    ∃ b, resolved field.2 = Some (FBoolean b) ∧ node' = with_checked b node) ∨
   (type node ≠ "checkbox" ∧
    ∃ s, resolved field.2 = Some (FEntry (EntryString s)) ∧
         node' = with_value (sanitize (type node) s) node)).

(** Listeners that leave the nodes as they are (their interfaces, id,
    name, type, value, [checked] and [disabled]). *)
Definition keeps_dom (on_change : nat → M FormState unit) : Prop :=
  ∀ ref st, dom (on_change ref st).1 = dom st.
End Utils.

(* ===================================================================== *)
(** * The options page (pages/options/+options.ts)                        *)
(* ===================================================================== *)

Module OptionsPage.
Import JS Utils.

(** A validator returns a string or [undefined].  [value.length] counts
    the code units of a string; strings are modelled over the code units
    below 256, one character each. *)
Definition validateUsername (value : option FormDataEntryValue) : option string :=
  match value with
  | Some (EntryString value) =>
      if bool_decide (value = "") then Some "Please enter a username"
      else if (String.length value <? 3)%nat
      then Some "Username must have at least 3 characters"
      else if (100 <? String.length value)%nat
      then Some "Username cannot have more than 100 characters"
      else Some ""
  | _ => Some "Only text input is allowed"
  end.

Section validateServerUrl.
(** [URL.parse(value)?.protocol]: the protocol of the value read as a URL,
    if it can be. *)
Variable URL_protocol : string → option string.

Definition validateServerUrl (value : option FormDataEntryValue) : option string :=
  match value with
  | Some (EntryString value) =>
      match URL_protocol value with
      | None => Some "Please enter a valid URL"
      | Some protocol =>
          if negb (bool_decide (protocol ∈ ["ws:"; "wss:"]))
          then Some "Please enter a websocket url (wss://)"
          else None
      end
  | _ => Some "Only text input is allowed"
  end.
End validateServerUrl.

Definition validateApiKey (value : option FormDataEntryValue) : option string :=
  match value with
  | Some (EntryString value) =>
      if bool_decide (value = "") then Some "Please enter an API key" else Some ""
  | _ => Some "Only text input is allowed"
  end.

(** What [onSubmit] hands to [setOptions]; the casts to [string] do not
    change the entries. *)
Record Submitted := {
  username : FormDataEntryValue;
  serverUrl : FormDataEntryValue;
  apiKey : option FormDataEntryValue;
}.

(** [!!entry] *)
Definition truthy (entry : option FormDataEntryValue) : bool :=
  match entry with
  | None => false
  | Some (EntryString s) => negb (bool_decide (s = ""))
  | Some (EntryFile _) => true
  end.

Inductive Effect :=
| SetOptions (options : Submitted)
| LoggedError (text : string) (err : exception)
| SentMessage (message : Background.Message).

Section onSubmit.
(** How the promise that [setOptions] returns settles. *)
Variable setOptions : Submitted → completion unit.

(** The effects of [onSubmit], in order: the two calls, then, once the
    promise has settled, the handler given to [catch]. *)
Definition onSubmit (data : FormData) : list Effect :=
  let username := default (EntryString "") (FormData_get data "username") in
  let serverUrl := default (EntryString "") (FormData_get data "serverUrl") in
  let useApiKey := truthy (FormData_get data "useApiKey") in
  let apiKey := default (EntryString "") (FormData_get data "apiKey") in
  let options := {| username := username; serverUrl := serverUrl;
                    apiKey := if useApiKey then Some apiKey else None |} in
  [SetOptions options; SentMessage Background.options_changed] ++
  match setOptions options with
  | Return _ => []
  | Throw err => [LoggedError "Failed to set options" err]
  end.
End onSubmit.

End OptionsPage.

(* ===================================================================== *)
(** * The popup (pages/popup/+popup.ts)                                   *)
(* ===================================================================== *)

Module Popup.
Import JS Utils.

Inductive State := LOADING | INCOMPLETE_OPTIONS | CREATE_ROOM | IN_ROOM.

(** The page: the state last given to [stateController.setState] (none
    before the first call), the module variable [sessionState], what was
    posted on the port and the session states logged, oldest first. *)
Record Page := {
  state : option State;
  sessionState : option Background.SessionState;
  posted : list Background.Message;
  logged : list Background.SessionState;
}.

Definition setState (s : State) : M Page unit :=
  modify (λ page, {| state := Some s; sessionState := sessionState page;
                     posted := posted page; logged := logged page |}).

Definition postMessage (message : Background.Message) : M Page unit :=
  modify (λ page, {| state := state page; sessionState := sessionState page;
                     posted := posted page ++ [message]; logged := logged page |}).

Definition onSessionStateUpdate (s : Background.SessionState) : M Page unit :=
  modify (λ page, {| state := state page; sessionState := sessionState page;
                     posted := posted page; logged := logged page ++ [s] |});;
  modify (λ page, {| state := state page; sessionState := Some s;
                     posted := posted page; logged := logged page |});;
  match Background.roomConnectionStatus s with
  | Some Background.NOT_IN_ROOM => setState CREATE_ROOM
  | Some Background.IN_ROOM => setState IN_ROOM
  | Some Background.JOINING | Some Background.LEAVING => setState LOADING
  | None => mret tt
  end.

(** The listener of [port.onMessage]. *)
Definition onMessage (obj : Background.RawMessage) : M Page unit :=
  message ← lift (Background.MessageSchema_parse obj);
  match message with
  | Background.session_state s => onSessionStateUpdate s
  | _ => mret tt
  end.

(** The validators and the submit handler of the create-room form. *)
Definition validateRoomName (value : option FormDataEntryValue) : option string :=
  match value with
  | None => Some "Please enter a room name"
  | Some (EntryString value) =>
      if bool_decide (value = "") then Some "Please enter a room name" else Some ""
  | Some (EntryFile _) => Some "Only text values are allowed"
  end.

Definition validateRoomPassword (value : option FormDataEntryValue) : option string :=
  match value with
  | None => Some "Please enter a room password"
  | Some (EntryString value) =>
      if bool_decide (value = "") then Some "Please enter a room password"
      else if (String.length value <? 5)%nat
      then Some "Password must be at least 5 characters"
      else Some ""
  | Some (EntryFile _) => Some "Only text values are allowed"
  end.

Definition onSubmit (data : FormData) : M Page unit :=
  match FormData_get data "roomName", FormData_get data "roomPassword" with
  | Some (EntryString roomName), Some (EntryString roomPassword) =>
      postMessage (Background.create_room roomName roomPassword);;
      setState LOADING
  | _, _ => mret tt
  end.

(** [setInitialState], once [getOptions()] has resolved to [options]. *)
Definition setInitialState (options : Background.Options) : M Page unit :=
  if Background.falsy (Background.options_username options)
     || Background.falsy (Background.options_username options)
  then setState INCOMPLETE_OPTIONS
  else setState CREATE_ROOM.

(** The messages posted on the port reach the page in order. *)
Definition receive (messages : list Background.Message) : M Page unit :=
  for_each (λ message, onMessage (Background.well_formed message)) messages.
End Popup.

(* ===================================================================== *)
(** * Reference implementations of the interfaces                         *)
(* ===================================================================== *)

(** Concrete instances of the interfaces the code is written against, used
    to run the code on examples. *)
Module Reference.
Import JS.

(** ** MessagePack

    Modelled from the MessagePack format, for the part of it that messages
    use: nil, booleans, unsigned integers, strings, binary data, arrays and
    maps with string keys, each below 65536 entries.  As @msgpack/msgpack
    does, [undefined] is written as nil, and nil is read back as [null]. *)
Definition byte_of_Z (z : Z) : Byte.byte :=
  default Byte.x00 (Byte.of_N (Z.to_N (z mod 256))).

Definition Z_of_byte (b : Byte.byte) : Z := Z.of_N (Byte.to_N b).

(** Big-endian integers of a given width. *)
Fixpoint be_bytes (width : nat) (z : Z) : list Byte.byte :=
  match width with
  | O => []
  | S width' => be_bytes width' (z / 256) ++ [byte_of_Z z]
  end.

Definition be_value (bytes : list Byte.byte) : Z :=
  foldl (λ acc b, acc * 256 + Z_of_byte b)%Z 0%Z bytes.

Definition encode_uint (z : Z) : option (list Byte.byte) :=
  if (z <? 0)%Z then None
  else if (z <? 128)%Z then Some [byte_of_Z z]
  else if (z <? 2 ^ 8)%Z then Some (byte_of_Z 204 :: be_bytes 1 z)
  else if (z <? 2 ^ 16)%Z then Some (byte_of_Z 205 :: be_bytes 2 z)
  else if (z <? 2 ^ 32)%Z then Some (byte_of_Z 206 :: be_bytes 4 z)
  else if (z <? 2 ^ 64)%Z then Some (byte_of_Z 207 :: be_bytes 8 z)
  else None.

(** The header of a string, array or map: a "fix" form for short lengths,
    else a marker followed by the length. *)
Definition encode_header (fix_base fix_limit : Z) (markers : list (nat * Z)) (len : nat)
    : option (list Byte.byte) :=
  let n := Z.of_nat len in
  if (n <? fix_limit)%Z then Some [byte_of_Z (fix_base + n)]
  else
    (fix pick (markers : list (nat * Z)) :=
       match markers with
       | [] => None
       | (width, marker) :: rest =>
           if (n <? 256 ^ Z.of_nat width)%Z
           then Some (byte_of_Z marker :: be_bytes width n)
           else pick rest
       end) markers.

Definition encode_string (s : string) : option (list Byte.byte) :=
  let bytes := list_byte_of_string s in
  header ← encode_header 160 32 [(1%nat, 217%Z); (2%nat, 218%Z)] (length bytes);
  Some (header ++ bytes).

Fixpoint encode (v : value) : option (list Byte.byte) :=
  match v with
  | VUndefined | VNull => Some [byte_of_Z 192]
  | VBool false => Some [byte_of_Z 194]
  | VBool true => Some [byte_of_Z 195]
  | VNumber (Finite m 0) => encode_uint m
  | VNumber _ => None
  | VString s => encode_string s
  | VUint8Array bytes =>
      header ← encode_header 0 0 [(1%nat, 196%Z); (2%nat, 197%Z)] (length bytes);
      Some (header ++ bytes)
  | VDate _ => None
  | VArray items =>
      header ← encode_header 144 16 [(2%nat, 220%Z)] (length items);
      encoded ← (fix encode_items (items : list value) : option (list Byte.byte) :=
                   match items with
                   | [] => Some []
                   | item :: rest =>
                       first ← encode item;
                       others ← encode_items rest;
                       Some (first ++ others)
                   end) items;
      Some (header ++ encoded)
  | VObject props =>
      header ← encode_header 128 16 [(2%nat, 222%Z)] (size props);
      encoded ← map_fold (λ key item acc,
                            k ← encode_string key;
                            first ← encode item;
                            others ← acc;
                            Some (k ++ first ++ others))
                         (Some []) props;
      Some (header ++ encoded)
  end.

Definition take_bytes (n : Z) (bytes : list Byte.byte)
    : option (list Byte.byte * list Byte.byte) :=
  let n := Z.to_nat n in
  if (n <=? length bytes)%nat then Some (take n bytes, drop n bytes) else None.

Definition read_length (width : Z) (bytes : list Byte.byte)
    : option (Z * list Byte.byte) :=
  '(len, rest) ← take_bytes width bytes; Some (be_value len, rest).

Definition read_uint (width : Z) (bytes : list Byte.byte)
    : option (value * list Byte.byte) :=
  '(n, rest) ← read_length width bytes; Some (VNumber (Finite n 0), rest).

Definition read_string (len : Z) (bytes : list Byte.byte)
    : option (value * list Byte.byte) :=
  '(s, rest) ← take_bytes len bytes; Some (VString (string_of_list_byte s), rest).

Definition read_binary (len : Z) (bytes : list Byte.byte)
    : option (value * list Byte.byte) :=
  '(data, rest) ← take_bytes len bytes; Some (VUint8Array data, rest).

Section read.
Variable read : list Byte.byte → option (value * list Byte.byte).

Fixpoint read_array (count : nat) (bytes : list Byte.byte) (acc : list value)
    : option (value * list Byte.byte) :=
  match count with
  | O => Some (VArray (reverse acc), bytes)
  | S count' =>
      '(item, rest) ← read bytes;
      read_array count' rest (item :: acc)
  end.

Fixpoint read_map (count : nat) (bytes : list Byte.byte) (acc : gmap string value)
    : option (value * list Byte.byte) :=
  match count with
  | O => Some (VObject acc, bytes)
  | S count' =>
      '(key, rest) ← read bytes;
      match key with
      | VString k =>
          '(item, rest') ← read rest;
          read_map count' rest' (<[k := item]> acc)
      | _ => None
      end
  end.
End read.

(** Reads one value and returns it with the bytes that follow; [fuel]
    bounds the nesting depth. *)
Fixpoint decode_value (fuel : nat) (bytes : list Byte.byte)
    : option (value * list Byte.byte) :=
  match fuel, bytes with
  | S fuel', b :: rest =>
      let tag := Z_of_byte b in
      let array len rest := read_array (decode_value fuel') (Z.to_nat len) rest [] in
      let map len rest := read_map (decode_value fuel') (Z.to_nat len) rest ∅ in
      if (tag <? 128)%Z then Some (VNumber (Finite tag 0), rest)
      else if (tag <? 144)%Z then map (tag - 128)%Z rest
      else if (tag <? 160)%Z then array (tag - 144)%Z rest
      else if (tag <? 192)%Z then read_string (tag - 160)%Z rest
      else if (tag =? 192)%Z then Some (VNull, rest)
      else if (tag =? 194)%Z then Some (VBool false, rest)
      else if (tag =? 195)%Z then Some (VBool true, rest)
      else if (tag =? 196)%Z then '(len, rest') ← read_length 1 rest; read_binary len rest'
      else if (tag =? 204)%Z then read_uint 1 rest
      else if (tag =? 205)%Z then read_uint 2 rest
      else if (tag =? 206)%Z then read_uint 4 rest
      else if (tag =? 207)%Z then read_uint 8 rest
      else if (tag =? 217)%Z then '(len, rest') ← read_length 1 rest; read_string len rest'
      else if (tag =? 218)%Z then '(len, rest') ← read_length 2 rest; read_string len rest'
      else if (tag =? 220)%Z then '(len, rest') ← read_length 2 rest; array len rest'
      else if (tag =? 222)%Z then '(len, rest') ← read_length 2 rest; map len rest'
      else None
  | _, _ => None
  end.

Definition decode (bytes : list Byte.byte) : option value :=
  match decode_value (length bytes) bytes with
  | Some (v, []) => Some v
  | _ => None
  end.

Definition msgpack : Messages.Msgpack := {|
  Messages.msgpack_encode v :=
    match encode v with
    | Some bytes => Return bytes
    | None => Throw (Error "Error" "Unrecognized object")
    end;
  Messages.msgpack_decode bytes :=
    match decode bytes with
    | Some v => Return v
    | None => Throw (Error "RangeError" "Insufficient data")
    end;
|}.

(** ** WebSocket

    Modelled from the WebSocket interface of the HTML standard: the
    constructor rejects a URL that is not a websocket URL, [send] throws
    while the socket is connecting and drops the data once it is closing
    or closed. *)
Inductive ReadyState := CONNECTING | OPEN | CLOSING | CLOSED.

Record WebSocket := {
  readyState : ReadyState;
  sent : list (list Byte.byte);
}.

Definition websocket_url (url : string) : bool :=
  String.prefix "ws://" url || String.prefix "wss://" url.

Definition websocket : Messages.WebSocketAPI WebSocket := {|
  Messages.WebSocket_new url :=
    if websocket_url url
    then Return {| readyState := CONNECTING; sent := [] |}
    else Throw (Error "SyntaxError" "The URL's scheme must be either 'ws' or 'wss'.");
  Messages.WebSocket_send data := λ ws,
    match readyState ws with
    | CONNECTING => (ws, Throw (Error "InvalidStateError" "Still in CONNECTING state."))
    | OPEN => ({| readyState := OPEN; sent := sent ws ++ [data] |}, Return tt)
    | _ => (ws, Return tt)
    end;
  Messages.WebSocket_close := λ ws,
    match readyState ws with
    | CLOSED => (ws, Return tt)
    | _ => ({| readyState := CLOSING; sent := sent ws |}, Return tt)
    end;
|}.

(** ** Session

    Modelled from the spec: a session records the options it was built
    with, whether its channel is still open, and the room state it would
    report; a room operation on a session whose channel is closed throws,
    and otherwise moves the room connection status. *)
Record Session := {
  session_options : Background.SessionOptions;
  channel_open : bool;
  state : Background.SessionState;
}.

Definition with_status (status : Background.RoomConnectionStatus) (s : Session) : Session :=
  {| session_options := session_options s;
     channel_open := channel_open s;
     state := {| Background.inRoom := Background.inRoom (state s);
                 Background.roomConnectionStatus := Some status;
                 Background.room := Background.room (state s) |} |}.

Definition room_operation (status : Background.RoomConnectionStatus) : M Session unit :=
  λ s, if channel_open s
       then (with_status status s, Return tt)
       else (s, Throw (Error "Error" "Channel is closed")).

Definition session_api : Background.SessionAPI Session := {|
  Background.Session_new options :=
    Return {| session_options := options;
              channel_open := true;
              state := {| Background.inRoom := false;
                          Background.roomConnectionStatus := Some Background.NOT_IN_ROOM;
                          Background.room := None |} |};
  Background.Session_close message := λ s,
    ({| session_options := session_options s; channel_open := false; state := state s |},
     Return tt);
  Background.Session_createRoom init := room_operation Background.JOINING;
  Background.Session_joinRoom id password := room_operation Background.JOINING;
  Background.Session_leaveRoom := room_operation Background.LEAVING;
  Background.Session_getState := state;
|}.

(** ** A session that opens its transport

    Modelled from the spec: construction opens the connection channel, so
    the constructor throws what [new WebSocket(url)] throws for a server
    URL that is not a websocket URL; the methods are those of [Session]. *)
Definition connecting_session_api : Background.SessionAPI Session := {|
  Background.Session_new options :=
    match Messages.WebSocket_new (WebSocketAPI := websocket) (Background.url options) with
    | Return _ => Background.Session_new (SessionAPI := session_api) options
    | Throw e => Throw e
    end;
  Background.Session_close := Background.Session_close (SessionAPI := session_api);
  Background.Session_createRoom := Background.Session_createRoom (SessionAPI := session_api);
  Background.Session_joinRoom := Background.Session_joinRoom (SessionAPI := session_api);
  Background.Session_leaveRoom := Background.Session_leaveRoom (SessionAPI := session_api);
  Background.Session_getState := Background.Session_getState (SessionAPI := session_api);
|}.

(** ** A session whose server cannot be reached

    Modelled from the spec: a room operation on a session whose channel is
    closed throws; here the channel of a new session is closed from the
    start, so the first operation on it throws. *)
Definition unreachable_session_api : Background.SessionAPI Session := {|
  Background.Session_new options :=
    Return {| session_options := options;
              channel_open := false;
              state := {| Background.inRoom := false;
                          Background.roomConnectionStatus := Some Background.NOT_IN_ROOM;
                          Background.room := None |} |};
  Background.Session_close := Background.Session_close (SessionAPI := session_api);
  Background.Session_createRoom := Background.Session_createRoom (SessionAPI := session_api);
  Background.Session_joinRoom := Background.Session_joinRoom (SessionAPI := session_api);
  Background.Session_leaveRoom := Background.Session_leaveRoom (SessionAPI := session_api);
  Background.Session_getState := Background.Session_getState (SessionAPI := session_api);
|}.

(** ** URL

    Modelled from the URL standard, for the values of the form
    [scheme://rest] with a scheme in lower-case letters: the protocol is
    the scheme followed by a colon; anything else does not parse. *)
Definition is_lower (c : ascii) : bool :=
  let n := nat_of_ascii c in ((97 <=? n) && (n <=? 122))%nat.

Definition URL_protocol (value : string) : option string :=
  match String.index 0 "://" value with
  | Some (S n) =>
      let scheme := String.substring 0 (S n) value in
      if forallb is_lower (list_ascii_of_string scheme) then Some (scheme +:+ ":") else None
  | _ => None
  end.

End Reference.

(* ===================================================================== *)
(** * Example inputs                                                      *)
(* ===================================================================== *)

Module Examples.
Import JS.

(** A [room::create] body, and the clock reading it is stamped with. *)
Definition create_body : gmap string value :=
  list_to_map [("m", VString "room::create/v1");
               ("name", VString "alpha");
               ("password", VString "secret")].

Definition clock : Z := 1700000000000.

(** The login body of a user who has no API key, written as an object
    literal that passes the key on: the key is present and holds
    [undefined]. *)
Definition login_without_api_key (username : string) : gmap string value :=
  list_to_map [("m", VString "connection::login/v1");
               ("username", VString username);
               ("api_key", VUndefined)].

Definition stamped_create : value :=
  VObject (<["t" := VNumber (Messages.Date_now clock)]> create_body).

(** A frame whose tag names no variant. *)
Definition unknown_frame_value : value :=
  VObject (list_to_map [("t", VNumber (Finite 5 0)); ("m", VString "connection::pong/v2")]).

Definition unknown_frame : list Byte.byte :=
  default [] (Reference.encode unknown_frame_value).

(** A channel whose transport is still connecting. *)
Definition connecting_channel : @Messages.MessageChannel Reference.WebSocket :=
  {| Messages.ws := {| Reference.readyState := Reference.CONNECTING; Reference.sent := [] |};
     Messages.open := true;
     Messages.dispatched := [];
     Messages.log := [] |}.

(** Host settings: complete, and without a username. *)
Definition complete_options : Background.Options :=
  {| Background.options_username := Some "alice";
     Background.options_serverUrl := Some "wss://palantir.example/ws";
     Background.options_apiKey := None |}.

Definition incomplete_options : Background.Options :=
  {| Background.options_username := None;
     Background.options_serverUrl := Some "wss://palantir.example/ws";
     Background.options_apiKey := None |}.

Definition alice : Background.SessionOptions :=
  {| Background.username := "alice";
     Background.url := "wss://palantir.example/ws";
     Background.apiKey := None |}.

Definition alpha : Background.RoomInit :=
  {| Background.name := "alpha"; Background.password := "secret" |}.

Definition popup : Background.Port :=
  {| Background.port_id := 0; Background.port_name := "popup" |}.

(** The script with the popup connected and no session. *)
Definition connected : @Background.State Reference.Session :=
  (@Background.onConnect Reference.Session popup Background.initial).1.

(** The script after the popup has created a room: a session is current. *)
Definition in_session : @Background.State Reference.Session :=
  (@Background.createRoom _ Reference.session_api complete_options alpha connected).1.

(** The same, after the channel of the session has closed under it. *)
Definition closed_session : Reference.Session :=
  {| Reference.session_options := alice;
     Reference.channel_open := false;
     Reference.state := {| Background.inRoom := false;
                           Background.roomConnectionStatus := Some Background.NOT_IN_ROOM;
                           Background.room := None |} |}.

Definition with_closed_channel : @Background.State Reference.Session :=
  Background.with_store [closed_session] in_session.

(** Two create-room intents whose option lookups overlap: both calls find
    no session, both go on to start one, then both create their room. *)
Definition beta : Background.RoomInit :=
  {| Background.name := "beta"; Background.password := "secret" |}.

Definition overlapping_calls : list Background.Input :=
  [Background.options_resolved complete_options;
   Background.options_resolved complete_options;
   Background.createRoom_resumes alpha;
   Background.createRoom_resumes beta].


(** The frame of the stamped [room::create] message, and the same message
    with a key no schema prescribes. *)
Definition stamped_create_props : gmap string value :=
  <["t" := VNumber (Messages.Date_now clock)]> create_body.

Definition create_frame : list Byte.byte :=
  default [] (Reference.encode stamped_create).

Definition tinted_frame : list Byte.byte :=
  default [] (Reference.encode (VObject (<["tint" := VString "red"]> stamped_create_props))).

(** The life of a channel: a send, a frame, a failure of the transport
    (reported as an error and a close), with a call of [close] between. *)
Definition life : list (@Messages.Action) :=
  [Messages.calls_send clock create_body;
   Messages.delivers (Messages.ws_message (Messages.DataUint8Array create_frame));
   Messages.delivers Messages.ws_error;
   Messages.calls_close;
   Messages.delivers Messages.ws_close].

(** Host settings whose server URL lacks a scheme, and the session options
    made from them. *)
Definition schemeless_options : Background.Options :=
  {| Background.options_username := Some "alice";
     Background.options_serverUrl := Some "palantir.example";
     Background.options_apiKey := None |}.

Definition schemeless : Background.SessionOptions :=
  {| Background.username := "alice";
     Background.url := "palantir.example";
     Background.apiKey := None |}.

(** Host settings with a username and no server URL. *)
Definition urlless_options : Background.Options :=
  {| Background.options_username := Some "alice";
     Background.options_serverUrl := None;
     Background.options_apiKey := None |}.

(** A form with a text input, a checkbox and a submit button. *)
Definition username_input : Utils.Node :=
  {| Utils.interfaces := ["HTMLInputElement"; "HTMLElement"; "Element"; "Node"; "EventTarget"];
     Utils.id := "options__username"; Utils.name := "username"; Utils.type := "text";
     Utils.value := ""; Utils.checked := false; Utils.disabled := false |}.

Definition useApiKey_input : Utils.Node :=
  {| Utils.interfaces := ["HTMLInputElement"; "HTMLElement"; "Element"; "Node"; "EventTarget"];
     Utils.id := "options__use-api-key"; Utils.name := "useApiKey"; Utils.type := "checkbox";
     Utils.value := "on"; Utils.checked := false; Utils.disabled := false |}.

Definition submit_button : Utils.Node :=
  {| Utils.interfaces := ["HTMLButtonElement"; "HTMLElement"; "Element"; "Node"; "EventTarget"];
     Utils.id := "options__submit"; Utils.name := ""; Utils.type := "submit";
     Utils.value := ""; Utils.checked := false; Utils.disabled := false |}.

Definition options_form : Utils.FormState :=
  {| Utils.dom := [username_input; useApiKey_input; submit_button];
     Utils.validationState := {[ "username" := {| Utils.changed := false; Utils.valid := false |} ]};
     Utils.log := [];
     Utils.dispatched := [] |}.

(** What the options form submits, and what the create-room form does. *)
Definition options_data : Utils.FormData :=
  [("username", Utils.EntryString "alice");
   ("serverUrl", Utils.EntryString "wss://palantir.example/ws")].

Definition room_data : Utils.FormData :=
  [("roomName", Utils.EntryString "alpha");
   ("roomPassword", Utils.EntryString "secret")].

(** The popup before anything has happened. *)
Definition blank_page : Popup.Page :=
  {| Popup.state := None; Popup.sessionState := None; Popup.posted := [];
     Popup.logged := [] |}.

End Examples.

(* ===================================================================== *)
(** * Properties                                                          *)
(* ===================================================================== *)

(** ** The schema language *)
Module ZodFacts.
Import JS Zod.

Section ZodType_nested_ind.
Variable P : ZodType → Prop.
Hypothesis Hstring : ∀ checks, P (ZodString checks).
Hypothesis Hnumber : P ZodNumber.
Hypothesis Hliteral : ∀ lit, P (ZodLiteral lit).
Hypothesis Henum : ∀ values, P (ZodEnum values).
Hypothesis Hoptional : ∀ inner, P inner → P (ZodOptional inner).
Hypothesis Harray : ∀ element, P element → P (ZodArray element).
Hypothesis Hobject : ∀ shape, Forall (λ kt, P kt.2) shape → P (ZodObject shape).
Hypothesis Hunion : ∀ d options, Forall P options → P (ZodDiscriminatedUnion d options).
Hypothesis Hintersection : ∀ lhs rhs, P lhs → P rhs → P (ZodIntersection lhs rhs).

Fixpoint ZodType_nested_ind (t : ZodType) : P t :=
  match t with
  | ZodString checks => Hstring checks
  | ZodNumber => Hnumber
  | ZodLiteral lit => Hliteral lit
  | ZodEnum values => Henum values
  | ZodOptional inner => Hoptional inner (ZodType_nested_ind inner)
  | ZodArray element => Harray element (ZodType_nested_ind element)
  | ZodObject shape =>
      Hobject shape
        ((fix fields (l : list (string * ZodType)) : Forall (λ kt, P kt.2) l :=
            match l with
            | [] => @List.Forall_nil _ _
            | (k, t') :: l' => @List.Forall_cons _ (λ kt, P kt.2) (k, t') l' (ZodType_nested_ind t') (fields l')
            end) shape)
  | ZodDiscriminatedUnion d options =>
      Hunion d options
        ((fix alternatives (l : list ZodType) : Forall P l :=
            match l with
            | [] => @List.Forall_nil _ _
            | t' :: l' => @List.Forall_cons _ P t' l' (ZodType_nested_ind t') (alternatives l')
            end) options)
  | ZodIntersection lhs rhs =>
      Hintersection lhs rhs (ZodType_nested_ind lhs) (ZodType_nested_ind rhs)
  end.
End ZodType_nested_ind.

Lemma parse_object shape data :
  parse (ZodObject shape) data =
  if is_object data then VObject <$> parse_shape data shape ∅ else None.
Proof. reflexivity. Qed.

Lemma parse_union discriminator options data :
  parse (ZodDiscriminatedUnion discriminator options) data =
  if is_object data then
    match get data discriminator with
    | VString tag => parse_option discriminator tag data options
    | _ => None
    end
  else None.
Proof. reflexivity. Qed.

Lemma parse_option_get discriminator tag data options :
  parse_option discriminator tag data options =
  match optionsMap_get discriminator options tag with
  | Some option => parse option data
  | None => None
  end.
Proof.
  induction options as [|option rest IH]; [done|].
  unfold parse_option in *. simpl. by case_bool_decide.
Qed.

Lemma optionsMap_get_Some discriminator options tag option :
  optionsMap_get discriminator options tag = Some option →
  option ∈ options ∧ tag ∈ discriminators discriminator option.
Proof.
  induction options as [|o rest IH]; [done|]. simpl.
  case_bool_decide as Htag.
  - intros [= <-]. split; [left | done].
  - intros Hrest. destruct (IH Hrest). split; [by right | done].
Qed.

Lemma strict_equal_string data s :
  strict_equal data (VString s) = true → data = VString s.
Proof. destruct data; simpl; try done. intros ?%bool_decide_eq_true. by subst. Qed.

Lemma strict_equal_undefined data :
  strict_equal data VUndefined = true ↔ data = VUndefined.
Proof. destruct data; simpl; split; done. Qed.

(** What the loop over a shape produces. *)
Lemma parse_shape_Some data shape acc out :
  parse_shape data shape acc = Some out →
  NoDup (shape_keys shape) →
  (∀ key, out !! key = acc !! key ∨ key ∈ shape_keys shape) ∧
  (∀ key, key ∉ shape_keys shape → out !! key = acc !! key) ∧
  (∀ key t, (key, t) ∈ shape →
     ∃ parsed, parse t (get data key) = Some parsed ∧
       (acc !! key = None → get (VObject out) key = parsed)).
Proof.
  unfold parse_shape. revert acc.
  induction shape as [|[k t] rest IH]; intros acc; simpl.
  - intros [= <-] _. split_and!; [by left | done | by intros ?? ?%elem_of_nil].
  - destruct (parse t (get data k)) as [parsed|] eqn:Hparsed; [simpl|done].
    intros Hrest [Hk Hnodup]%NoDup_cons.
    destruct (IH _ Hrest Hnodup) as (Hdom & Hother & Hfields).
    assert (Hout_k : get (VObject out) k = if negb (strict_equal parsed VUndefined) || has data k then parsed else default VUndefined (acc !! k)).
    { simpl. rewrite (Hother k Hk). destruct (negb _ || _); [by rewrite lookup_insert_eq | done]. }
    split_and!.
    + intros key. destruct (decide (key = k)) as [->|Hne]; [right; left|].
      destruct (Hdom key) as [->|?]; [|right; by right].
      left. destruct (negb _ || _); [by rewrite lookup_insert_ne | done].
    + intros key [Hne Hnot]%not_elem_of_cons. rewrite (Hother key Hnot).
      destruct (negb _ || _); [by rewrite lookup_insert_ne | done].
    + intros key t' [[= -> ->]|Hin]%elem_of_cons.
      * exists parsed. split; [done|]. intros Hacc. simpl in *. rewrite Hout_k, Hacc. simpl.
        destruct (strict_equal parsed VUndefined) eqn:Hundef; simpl.
        -- apply strict_equal_undefined in Hundef. by destruct (has data k).
        -- done.
      * destruct (Hfields key t' Hin) as (p & Hp & Hget). exists p. split; [done|].
        intros Hacc. apply Hget.
        assert (key ≠ k) as Hne.
        { intros ->. apply Hk. apply list_elem_of_fmap. by exists (k, t'). }
        destruct (negb _ || _); [by rewrite lookup_insert_ne | done].
Qed.

Lemma parse_object_field_fails shape data key t :
  (key, t) ∈ shape →
  parse t (get data key) = None →
  parse (ZodObject shape) data = None.
Proof.
  intros Hin Hfail. rewrite parse_object. destruct (is_object data); [|done].
  unfold parse_shape. generalize (∅ : gmap string value).
  induction shape as [|[k t'] rest IH]; intros acc; [by apply elem_of_nil in Hin|].
  simpl. apply elem_of_cons in Hin as [[= <- <-]|Hin].
  - by rewrite Hfail.
  - destruct (parse t' (get data k)); [simpl|done]. by rewrite IH.
Qed.

Lemma well_formed_object shape :
  well_formed (ZodObject shape) = true →
  NoDup (shape_keys shape) ∧ Forall (λ kt, well_formed kt.2 = true) shape.
Proof.
  simpl. intros [Hnodup Hall]%andb_true_iff. split.
  - by apply bool_decide_eq_true in Hnodup.
  - apply Forall_forall. intros kt Hkt.
    rewrite forallb_forall in Hall. apply Hall. by apply list_elem_of_In.
Qed.

Lemma well_formed_union d options :
  well_formed (ZodDiscriminatedUnion d options) = true →
  Forall (λ t, well_formed t = true) options.
Proof.
  simpl. intros Hall. apply Forall_forall. intros t Ht.
  rewrite forallb_forall in Hall. apply Hall. by apply list_elem_of_In.
Qed.

(** Whatever [parse] returns matches the schema exactly. *)
Lemma parse_conforms t :
  well_formed t = true →
  ∀ data out, parse t data = Some out → conforms t out.
Proof.
  induction t as [checks| |lit|values|inner IH|element IH|shape IH|d options IH|lhs rhs IHl IHr]
    using ZodType_nested_ind; intros Hwf data out.
  - destruct data; try done. simpl.
    destruct (forallb _ checks) eqn:Hchecks; [|done]. intros [= <-].
    constructor. apply Forall_forall. intros c Hc.
    rewrite forallb_forall in Hchecks. apply Hchecks. by apply list_elem_of_In.
  - destruct data as [| | |n| | | | |]; try done. simpl.
    destruct (isNaN n) eqn:Hnan; [done|]. intros [= <-]. by constructor.
  - simpl. destruct (strict_equal data (VString lit)) eqn:Heq; [|done].
    intros [= <-]. apply strict_equal_string in Heq as ->. constructor.
  - destruct data; try done. simpl. case_bool_decide; [|done].
    intros [= <-]. by constructor.
  - destruct data; simpl;
      try (intros Hparse; apply conforms_optional; by eapply (IH Hwf)).
    intros [= <-]. apply conforms_optional_undefined.
  - destruct data as [| | | | | | |items|]; try done. simpl.
    destruct (mapM (parse element) items) as [outs|] eqn:Hitems; [|done].
    intros [= <-]. constructor.
    apply mapM_Some in Hitems.
    induction Hitems as [|x y l k Hxy _ IHitems]; constructor; [|done].
    by eapply (IH Hwf).
  - apply well_formed_object in Hwf as [Hnodup Hwf].
    rewrite parse_object. destruct (is_object data); [|done].
    destruct (parse_shape data shape ∅) as [props|] eqn:Hshape; [|done].
    intros [= <-].
    destruct (parse_shape_Some _ _ _ _ Hshape Hnodup) as (Hdom & _ & Hfields).
    constructor.
    + intros key [v Hv]. destruct (Hdom key) as [Hempty|]; [|done].
      by rewrite Hv, lookup_empty in Hempty.
    + intros key t Hin. destruct (Hfields key t Hin) as (parsed & Hparsed & Hget).
      rewrite Hget by apply lookup_empty.
      rewrite Forall_forall in IH, Hwf.
      by eapply (IH (key, t) Hin (Hwf (key, t) Hin)).
  - apply well_formed_union in Hwf.
    rewrite parse_union. destruct (is_object data); [|done].
    destruct (get data d) as [| | | |tag| | | |]; try done.
    rewrite parse_option_get.
    destruct (optionsMap_get d options tag) as [option|] eqn:Hoption; [|done].
    apply optionsMap_get_Some in Hoption as [Hin _].
    intros Hparse. eapply conforms_union; [done|].
    rewrite Forall_forall in IH, Hwf. by eapply (IH option Hin (Hwf option Hin)).
  - simpl in Hwf. apply andb_true_iff in Hwf as [Hwfl Hwfr]. simpl.
    destruct (parse lhs data) as [l|] eqn:Hl; [simpl|done].
    destruct (parse rhs data) as [r|] eqn:Hr; [simpl|done].
    intros Hmerge. eapply conforms_intersection; [by eapply IHl | by eapply IHr | done].
Qed.

(** A key outside the shape does not influence the parse of an object. *)
Lemma parse_shape_insert_other shape props key v acc :
  key ∉ shape_keys shape →
  parse_shape (VObject (<[key := v]> props)) shape acc =
  parse_shape (VObject props) shape acc.
Proof.
  unfold parse_shape. revert acc.
  induction shape as [|[k t] rest IH]; intros acc; [done|].
  intros [Hne Hrest]%not_elem_of_cons. simpl.
  rewrite lookup_insert_ne by done.
  destruct (parse t _) as [parsed|]; [simpl|done].
  by rewrite IH.
Qed.

(** Merging two objects without a common key is spreading both. *)
Lemma mergeValues_disjoint (pa pb : gmap string value) :
  (∀ key, is_Some (pa !! key) → pb !! key = None) →
  mergeValues (VObject pa) (VObject pb) = Some (VObject (pb ∪ pa)).
Proof.
  intros Hdisjoint. simpl. f_equal.
  generalize (pb ∪ pa). intros init.
  revert Hdisjoint.
  apply (map_fold_weak_ind
    (λ r (m : gmap string value),
       (∀ key, is_Some (m !! key) → pb !! key = None) → VObject <$> r = Some (VObject init))).
  - done.
  - intros key v m r Hfresh IH Hdisjoint.
    rewrite (Hdisjoint key) by (rewrite lookup_insert_eq; eauto).
    apply IH. intros key' Hkey'. apply Hdisjoint.
    destruct (decide (key = key')) as [->|]; [rewrite lookup_insert_eq; eauto|].
    by rewrite lookup_insert_ne.
Qed.

Lemma mergeValues_plain a b out :
  mergeValues a b = Some out →
  (∀ bytes, a ≠ VUint8Array bytes) → ∀ bytes, out ≠ VUint8Array bytes.
Proof.
  intros Hmerge Ha bytes ->.
  destruct a; simpl in Hmerge;
    repeat (case_match; simplify_eq/=); try done; try by destruct (Ha bytes).
  all: match goal with
       | H : VArray <$> ?x = Some _ |- _ => by destruct x
       | H : VObject <$> ?x = Some _ |- _ => by destruct x
       end.
Qed.

(** No schema of this fragment returns a typed array. *)
Lemma parse_plain t :
  ∀ data out, parse t data = Some out → ∀ bytes, out ≠ VUint8Array bytes.
Proof.
  induction t as [checks| |lit|values|inner IH|element IH|shape IH|d options IH|lhs rhs IHl IHr]
    using ZodType_nested_ind; intros data out.
  - destruct data; try done. simpl. by destruct (forallb _ _); intros [= <-].
  - destruct data as [| | |n| | | | |]; try done. simpl.
    by destruct (isNaN n); intros [= <-].
  - simpl. destruct (strict_equal data (VString lit)) eqn:Heq; [|done].
    apply strict_equal_string in Heq as ->. by intros [= <-].
  - destruct data; try done. simpl. by case_bool_decide; intros [= <-].
  - destruct data; simpl; try apply IH. by intros [= <-].
  - destruct data; try done. simpl. by destruct (mapM _ _); intros [= <-].
  - rewrite parse_object. destruct (is_object data); [|done].
    by destruct (parse_shape _ _ _); intros [= <-].
  - rewrite parse_union. destruct (is_object data); [|done].
    destruct (get data d) as [| | | |tag| | | |]; try done.
    rewrite parse_option_get.
    destruct (optionsMap_get d options tag) as [option|] eqn:Hoption; [|done].
    apply optionsMap_get_Some in Hoption as [Hin _].
    rewrite Forall_forall in IH. by apply IH.
  - simpl. destruct (parse lhs data) as [l|] eqn:Hl; [simpl|done].
    destruct (parse rhs data) as [r|] eqn:Hr; [simpl|done].
    intros Hmerge. eapply mergeValues_plain; [done|]. by eapply IHl.
Qed.

(** What the loop over a shape sets on the final object. *)
Lemma parse_shape_lookup data shape acc out :
  parse_shape data shape acc = Some out →
  NoDup (shape_keys shape) →
  ∀ key t, (key, t) ∈ shape →
    ∃ parsed, parse t (get data key) = Some parsed ∧
      out !! key = if negb (strict_equal parsed VUndefined) || has data key
                   then Some parsed else acc !! key.
Proof.
  unfold parse_shape. revert acc.
  induction shape as [|[k t] rest IH]; intros acc; simpl.
  - by intros _ _ key t' ?%elem_of_nil.
  - destruct (parse t (get data k)) as [parsed|] eqn:Hparsed; [simpl|done].
    intros Hrest [Hk Hnodup]%NoDup_cons key t' [[= -> ->]|Hin]%elem_of_cons.
    + exists parsed. split; [done|].
      destruct (parse_shape_Some _ _ _ _ Hrest Hnodup) as (_ & Hother & _).
      rewrite (Hother k Hk).
      destruct (negb _ || _); [by rewrite lookup_insert_eq | done].
    + destruct (IH _ Hrest Hnodup key t' Hin) as (p & Hp & Hlookup).
      exists p. split; [done|]. rewrite Hlookup.
      assert (key ≠ k) as Hne.
      { intros ->. apply Hk. apply list_elem_of_fmap. by exists (k, t'). }
      destruct (negb (strict_equal p VUndefined) || has data key); [done|].
      destruct (negb _ || _); [by rewrite lookup_insert_ne | done].
Qed.

Lemma parse_shape_is_Some data shape acc :
  (∀ key t, (key, t) ∈ shape → is_Some (parse t (get data key))) →
  is_Some (parse_shape data shape acc).
Proof.
  unfold parse_shape. revert acc.
  induction shape as [|[k t] rest IH]; intros acc Hfields; simpl; [eauto|].
  destruct (Hfields k t) as [parsed ->]; [left|]. simpl.
  apply IH. intros key t' Hin. apply Hfields. by right.
Qed.

(** A value that matches a plain schema exactly is accepted unchanged. *)
Lemma conforms_parse t :
  plain t = true → well_formed t = true →
  ∀ v, conforms t v → parse t v = Some v.
Proof.
  induction t as [checks| |lit|values|inner IH|element IH|shape IH|d options IH|lhs rhs IHl IHr]
    using ZodType_nested_ind; intros Hplain Hwf v Hv; try done.
  - inversion Hv as [? s Hchecks| | | | | | | | |]; subst. simpl.
    assert (forallb (λ c, run_check c s) checks = true) as ->; [|done].
    apply forallb_forall. intros c Hc. rewrite Forall_forall in Hchecks.
    by apply Hchecks, list_elem_of_In.
  - inversion Hv as [|n Hn| | | | | | | |]; subst. simpl. by rewrite Hn.
  - inversion Hv; subst. simpl. by rewrite bool_decide_eq_true_2.
  - inversion Hv; subst. simpl. by rewrite bool_decide_eq_true_2.
  - inversion Hv as [| | | |?|? ? Hinner| | | |]; subst; [done|].
    destruct v; simpl; try by apply IH.
    done.
  - inversion Hv as [| | | | | |? items Hitems| | |]; subst. simpl.
    assert (mapM (parse element) items = Some items) as ->; [|done].
    apply mapM_Some. clear Hv. induction Hitems as [|x l Hx _ IHitems]; [constructor|].
    constructor; [by apply IH | done].
  - inversion Hv as [| | | | | | |? props Hkeys Hfields| |]; subst.
    apply well_formed_object in Hwf as [Hnodup Hwf].
    rewrite parse_object. simpl.
    assert (∀ key t, (key, t) ∈ shape →
              parse t (get (VObject props) key) = Some (get (VObject props) key))
      as Hparsed.
    { intros key t Hin. rewrite Forall_forall in IH, Hwf.
      apply (IH (key, t) Hin); [|by apply (Hwf (key, t))|by apply Hfields].
      simpl in Hplain. rewrite forallb_forall in Hplain.
      by apply (Hplain (key, t)), list_elem_of_In. }
    destruct (parse_shape_is_Some (VObject props) shape ∅) as [out Hout].
    { intros key t Hin. rewrite (Hparsed key t Hin). eauto. }
    rewrite Hout. simpl. do 2 f_equal. apply map_eq. intros key.
    destruct (decide (key ∈ shape_keys shape)) as [Hkey|Hkey].
    + apply list_elem_of_fmap in Hkey as ([k t] & -> & Hin). simpl.
      destruct (parse_shape_lookup _ _ _ _ Hout Hnodup k t Hin) as (p & Hp & ->).
      rewrite (Hparsed k t Hin) in Hp. injection Hp as <-. simpl.
      destruct (props !! k) as [w|] eqn:Hw; simpl.
      * by rewrite orb_true_r.
      * done.
    + destruct (parse_shape_Some _ _ _ _ Hout Hnodup) as (_ & Hother & _).
      rewrite (Hother key Hkey), lookup_empty.
      destruct (props !! key) eqn:Hw; [|done]. destruct Hkey. apply Hkeys. eauto.
Qed.

End ZodFacts.

(** ** The message schema and the codec *)

Module CodecFacts.
Import JS Zod Messages ZodFacts.

#[local] Arguments mergeValues : simpl never.

Lemma shape_lookup_Some shape key t :
  shape_lookup shape key = Some t → (key, t) ∈ shape.
Proof.
  induction shape as [|[k t'] rest IH]; [done|]. simpl.
  case_bool_decide as Hk.
  - intros [= <-]. subst. left.
  - intros ?. right. by apply IH.
Qed.

Lemma conforms_literal_inv lit v :
  conforms (ZodLiteral lit) v → v = VString lit.
Proof. by inversion 1. Qed.

Lemma variants_ok : forallb variant_ok variants = true.
Proof. vm_compute. reflexivity. Qed.

Lemma MessageSchema_well_formed : well_formed MessageSchema = true.
Proof. vm_compute. reflexivity. Qed.

(** What [variant_ok] says of a variant of the union. *)
Lemma variant_inv variant :
  variant ∈ variants →
  ∃ shape lit,
    variant = ZodObject shape ∧
    ("t" ∉ shape_keys shape) ∧
    ("m", ZodLiteral lit) ∈ shape ∧
    discriminators "m" variant = [lit] ∧
    well_formed variant = true ∧
    plain variant = true ∧
    (∀ key t, (key, t) ∈ shape → is_optional t = false → parse t VUndefined = None).
Proof.
  intros Hin.
  pose proof variants_ok as Hok. rewrite forallb_forall in Hok.
  specialize (Hok variant (proj1 (list_elem_of_In _ _) Hin)).
  assert (Hwf : well_formed variant = true).
  { pose proof MessageSchema_well_formed as Hall. simpl in Hall.
    change (forallb well_formed variants = true) in Hall.
    rewrite forallb_forall in Hall. apply Hall. by apply list_elem_of_In. }
  destruct variant as [| | | | | |shape| |]; try done.
  unfold variant_ok in Hok.
  apply andb_true_iff in Hok as [[[Hplain Ht]%andb_true_iff Hm]%andb_true_iff Hfields].
  apply bool_decide_eq_true in Ht.
  destruct (shape_lookup shape "m") as [[| |lit| | | | | |]|] eqn:Hlookup; try done.
  exists shape, lit. split_and!; try done.
  - by apply shape_lookup_Some.
  - unfold discriminators. simpl. by rewrite Hlookup.
  - intros key t Hkt Hopt. rewrite forallb_forall in Hfields.
    specialize (Hfields (key, t) (proj1 (list_elem_of_In _ _) Hkt)). simpl in Hfields.
    rewrite Hopt in Hfields. simpl in Hfields. by apply bool_decide_eq_true in Hfields.
Qed.

Lemma variant_for_Some tag variant :
  variant_for tag = Some variant →
  variant ∈ variants ∧ tag ∈ known_tags.
Proof.
  intros [Hin Htag]%optionsMap_get_Some. split; [done|].
  unfold known_tags. apply list_elem_of_In, in_flat_map. exists variant.
  split; by apply list_elem_of_In.
Qed.

Lemma parse_MessageBodySchema decoded :
  parse MessageBodySchema decoded =
  if is_object decoded then
    match get decoded "m" with
    | VString tag =>
        match variant_for tag with
        | Some variant => parse variant decoded
        | None => None
        end
    | _ => None
    end
  else None.
Proof.
  unfold MessageBodySchema, z.discriminatedUnion. rewrite parse_union.
  destruct (is_object decoded); [|done].
  destruct (get decoded "m"); try done. by rewrite parse_option_get.
Qed.

Lemma parse_MessageSchema decoded :
  parse MessageSchema decoded =
  (parsedLeft ← parse MessageMetaSchema decoded;
   parsedRight ← parse MessageBodySchema decoded;
   mergeValues parsedLeft parsedRight).
Proof. reflexivity. Qed.

Lemma parse_MessageMetaSchema decoded :
  parse MessageMetaSchema decoded =
  if is_object decoded then
    match get decoded "t" with
    | VNumber n => if isNaN n then None else Some (VObject {[ "t" := VNumber n ]})
    | _ => None
    end
  else None.
Proof.
  unfold MessageMetaSchema, z.object. rewrite parse_object.
  destruct (is_object decoded); [|done].
  unfold parse_shape. simpl.
  destruct (get decoded "t") as [| | |n| | | | |]; try done. simpl.
  by destruct (isNaN n).
Qed.

(** The success case of the schema: the parsed message is the timestamp
    added to a body that matches the variant selected by the tag. *)
Lemma parse_MessageSchema_Some decoded message :
  parse MessageSchema decoded = Some message →
  ∃ tag variant n body,
    get decoded "m" = VString tag ∧
    variant_for tag = Some variant ∧
    conforms variant (VObject body) ∧
    body !! "m" = Some (VString tag) ∧
    body !! "t" = None ∧
    get decoded "t" = VNumber n ∧ isNaN n = false ∧
    message = VObject (<["t" := VNumber n]> body).
Proof.
  rewrite parse_MessageSchema, parse_MessageMetaSchema, parse_MessageBodySchema.
  destruct (is_object decoded); [|done].
  destruct (get decoded "t") as [| | |n| | | | |]; try done.
  destruct (isNaN n) eqn:Hnan; [done|]. simpl.
  destruct (get decoded "m") as [| | | |tag| | | |]; try done.
  destruct (variant_for tag) as [variant|] eqn:Hvariant; [|done].
  destruct (parse variant decoded) as [parsed|] eqn:Hparsed; [simpl|done].
  intros Hmerge.
  destruct (variant_for_Some _ _ Hvariant) as [Hin Htag].
  destruct (variant_inv _ Hin) as (shape & lit & -> & Ht & Hm & Hlit & Hwf & _).
  pose proof (parse_conforms _ Hwf _ _ Hparsed) as Hconforms.
  inversion Hconforms as [| | | | | | |shape' body Hkeys Hfields| |]; subst.
  assert (body !! "t" = None) as Hbody_t.
  { destruct (body !! "t") eqn:Hlookup; [|done]. exfalso. apply Ht, Hkeys. eauto. }
  assert (body !! "m" = Some (VString tag)) as Hbody_m.
  { apply Hfields, conforms_literal_inv in Hm.
    apply optionsMap_get_Some in Hvariant as [_ Hdisc].
    rewrite Hlit in Hdisc. apply list_elem_of_singleton in Hdisc as ->.
    simpl in Hm. by destruct (body !! "m") as [?|]; simplify_eq/=. }
  exists tag, (ZodObject shape), n, body. split_and!; try done.
  rewrite mergeValues_disjoint in Hmerge.
  - injection Hmerge as <-. f_equal. by rewrite insert_union_singleton_r.
  - intros key [v Hv]. apply lookup_singleton_Some in Hv as [<- _]. done.
Qed.

Lemma variants_select_themselves :
  Forall (λ variant, ∀ lit, discriminators "m" variant = [lit] →
                            variant_for lit = Some variant) variants.
Proof. repeat constructor; by intros lit [= <-]. Qed.

(** A body is valid exactly when it matches one of the variants exactly. *)
Lemma valid_body_iff body :
  valid_body body ↔ ∃ variant, variant ∈ variants ∧ conforms variant (VObject body).
Proof.
  split.
  - unfold valid_body. rewrite parse_MessageBodySchema. simpl.
    destruct (default VUndefined (body !! "m")) as [| | | |tag| | | |]; try done.
    destruct (variant_for tag) as [variant|] eqn:Hvariant; [|done].
    apply variant_for_Some in Hvariant as [Hvariant _].
    destruct (variant_inv _ Hvariant) as (shape & lit & -> & _ & _ & _ & Hwf & _).
    intros Hparse. exists (ZodObject shape). split; [done|].
    by apply (parse_conforms _ Hwf _ _ Hparse).
  - intros (variant & Hin & Hconforms).
    destruct (variant_inv _ Hin) as (shape & lit & -> & _ & Hm & Hlit & Hwf & Hplain & _).
    unfold valid_body. rewrite parse_MessageBodySchema.
    assert (get (VObject body) "m" = VString lit) as ->.
    { inversion Hconforms as [| | | | | | |? ? Hkeys Hfields| |]; subst.
      by apply conforms_literal_inv, Hfields. }
    pose proof variants_select_themselves as Hself. rewrite Forall_forall in Hself.
    rewrite (Hself _ Hin lit Hlit).
    change (is_object (VObject body)) with true. cbv iota.
    by apply conforms_parse.
Qed.
End CodecFacts.

Module CodecTheorems.
Import JS Zod Messages ZodFacts CodecFacts.

#[local] Arguments mergeValues : simpl never.

Section Codec.
Context `{Msgpack}.

Lemma decodeMessage_eq data :
  decodeMessage data =
  match msgpack_decode data with
  | Return decoded => schema_parse MessageSchema decoded
  | Throw e => Throw e
  end.
Proof.
  unfold decodeMessage. destruct (msgpack_decode data) as [decoded|e]; [|done].
  simpl. by destruct (schema_parse MessageSchema decoded).
Qed.

Lemma unknown_tag_rejected decoded :
  unknown_tag decoded → parse MessageSchema decoded = None.
Proof.
  intros Hunknown.
  rewrite parse_MessageSchema, parse_MessageBodySchema.
  destruct (parse MessageMetaSchema decoded); [simpl|done].
  destruct (is_object decoded); [|done].
  destruct (get decoded "m") as [| | | |tag| | | |] eqn:Hm; try done.
  destruct (variant_for tag) as [variant|] eqn:Hvariant; [|done].
  apply variant_for_Some in Hvariant as [_ Htag].
  by destruct (Hunknown tag).
Qed.

Lemma field_rejected decoded key t :
  (key, t) ∈ prescribed_fields decoded →
  parse t (get decoded key) = None →
  parse MessageSchema decoded = None.
Proof.
  unfold prescribed_fields. intros Hin Hfail.
  rewrite parse_MessageSchema, parse_MessageBodySchema.
  destruct (get decoded "m") as [| | | |tag| | | |] eqn:Hm;
    try by apply elem_of_nil in Hin.
  destruct (variant_for tag) as [variant|] eqn:Hvariant;
    [|by apply elem_of_nil in Hin].
  apply elem_of_app in Hin as [Hin|Hin].
  - assert (parse MessageMetaSchema decoded = None) as ->; [|done].
    exact (parse_object_field_fails _ _ _ _ Hin Hfail).
  - destruct (parse MessageMetaSchema decoded); [simpl|done].
    destruct (is_object decoded); [|done].
    apply variant_for_Some in Hvariant as [Hvariant _].
    destruct (variant_inv _ Hvariant) as (shape & lit & -> & _).
    simpl in Hin. by rewrite (parse_object_field_fails _ _ _ _ Hin Hfail).
Qed.

Lemma missing_required_field_rejected decoded :
  missing_required_field decoded → parse MessageSchema decoded = None.
Proof.
  intros (key & t & Hin & Hrequired & Hmissing).
  apply (field_rejected _ key t Hin).
  assert (get decoded key = VUndefined) as ->.
  { destruct decoded; try done. simpl in *.
    apply bool_decide_eq_false in Hmissing.
    destruct (props !! key); [|done]. destruct Hmissing. eauto. }
  revert Hin. unfold prescribed_fields.
  destruct (get decoded "m") as [| | | |tag| | | |]; try by intros ?%elem_of_nil.
  destruct (variant_for tag) as [variant|] eqn:Hvariant; [|by intros ?%elem_of_nil].
  intros [Hin|Hin]%elem_of_app.
  - apply list_elem_of_singleton in Hin. by injection Hin as -> ->.
  - apply variant_for_Some in Hvariant as [Hvariant _].
    destruct (variant_inv _ Hvariant) as (shape & lit & -> & _ & _ & _ & _ & _ & Hundef).
    by eapply Hundef.
Qed.

Lemma wrong_field_type_rejected decoded :
  wrong_field_type decoded → parse MessageSchema decoded = None.
Proof. intros (key & t & Hin & _ & Hfail). by eapply field_rejected. Qed.

(** C1. For every inbound byte sequence, [decodeMessage] either returns a
    message whose tag "m" is one of the known tags and whose body matches
    the schema of the variant that tag selects exactly (no key outside
    the shape, every field of the declared type), together with a numeric
    timestamp "t", or it throws; and whenever the decoded value has an
    unknown tag, lacks a required field or has a field of the wrong type,
    it throws a [ZodError] and returns nothing. *)
Theorem decodeMessage_fails_closed (data : list Byte.byte) :
  ((∃ decoded tag variant n body,
      msgpack_decode data = Return decoded ∧
      get decoded "m" = VString tag ∧
      tag ∈ known_tags ∧
      variant_for tag = Some variant ∧
      conforms variant (VObject body) ∧
      body !! "m" = Some (VString tag) ∧
      body !! "t" = None ∧
      isNaN n = false ∧
      decodeMessage data = Return (VObject (<["t" := VNumber n]> body)))
   ∨ (∃ e, decodeMessage data = Throw e))
  ∧ (∀ decoded,
       msgpack_decode data = Return decoded →
       unknown_tag decoded ∨ missing_required_field decoded ∨ wrong_field_type decoded →
       decodeMessage data = Throw ZodError).
Proof.
  rewrite decodeMessage_eq. split.
  - destruct (msgpack_decode data) as [decoded|e]; [|right; eauto].
    unfold schema_parse.
    destruct (parse MessageSchema decoded) as [message|] eqn:Hparse; [left|right; eauto].
    destruct (parse_MessageSchema_Some _ _ Hparse)
      as (tag & variant & n & body & Hm & Hvariant & Hconforms & Hbm & Hbt & _ & Hn & ->).
    exists decoded, tag, variant, n, body. split_and!; try done.
    by apply variant_for_Some in Hvariant as [_ ?].
  - intros decoded -> Hbad. unfold schema_parse.
    assert (parse MessageSchema decoded = None) as ->; [|done].
    destruct Hbad as [?|[?|?]];
      auto using unknown_tag_rejected, missing_required_field_rejected,
                 wrong_field_type_rejected.
Qed.

Lemma valid_body_no_timestamp body : valid_body body → body !! "t" = None.
Proof.
  unfold valid_body. rewrite parse_MessageBodySchema. simpl.
  destruct (default VUndefined (body !! "m")) as [| | | |tag| | | |]; try done.
  destruct (variant_for tag) as [variant|] eqn:Hvariant; [|done].
  apply variant_for_Some in Hvariant as [Hvariant _].
  destruct (variant_inv _ Hvariant) as (shape & lit & -> & Ht & _ & _ & Hwf & _).
  intros Hparse. pose proof (parse_conforms _ Hwf _ _ Hparse) as Hconforms.
  inversion Hconforms as [| | | | | | |shape' body' Hkeys Hfields| |]; subst.
  destruct (body !! "t") eqn:Hlookup; [|done]. exfalso. apply Ht, Hkeys. eauto.
Qed.

Lemma parse_MessageBodySchema_timestamp body v :
  parse MessageBodySchema (VObject (<["t" := v]> body)) =
  parse MessageBodySchema (VObject body).
Proof.
  rewrite !parse_MessageBodySchema. simpl.
  rewrite lookup_insert_ne by done.
  destruct (default VUndefined (body !! "m")) as [| | | |tag| | | |]; try done.
  destruct (variant_for tag) as [variant|] eqn:Hvariant; [|done].
  apply variant_for_Some in Hvariant as [Hvariant _].
  destruct (variant_inv _ Hvariant) as (shape & lit & -> & Ht & _).
  rewrite !parse_object. simpl. by rewrite parse_shape_insert_other.
Qed.

(** The schema accepts a valid body with a timestamp added, unchanged. *)
Lemma parse_stamped body n :
  valid_body body → isNaN n = false →
  parse MessageSchema (VObject (<["t" := VNumber n]> body)) =
  Some (VObject (<["t" := VNumber n]> body)).
Proof.
  intros Hvalid Hn.
  pose proof Hvalid as Hparse. unfold valid_body in Hparse.
  rewrite parse_MessageSchema, parse_MessageMetaSchema,
    parse_MessageBodySchema_timestamp, Hparse.
  simpl. rewrite lookup_insert_eq. simpl. rewrite Hn. simpl.
  rewrite mergeValues_disjoint.
  - rewrite insert_union_singleton_r; [done|]. by apply valid_body_no_timestamp.
  - intros key [w Hw]. apply lookup_singleton_Some in Hw as [<- _].
    by apply valid_body_no_timestamp.
Qed.

(** The round trip where it holds: for a valid message body that msgpack
    carries through unchanged once stamped, encoding the body and decoding
    the resulting bytes yields the same body plus the numeric field "t"
    holding the clock reading taken at encoding. *)
Lemma encode_then_decode (clock : Z) (body : gmap string value) :
  valid_body body →
  (∃ bytes,
     msgpack_encode (VObject (<["t" := VNumber (Date_now clock)]> body)) = Return bytes ∧
     msgpack_decode bytes = Return (VObject (<["t" := VNumber (Date_now clock)]> body))) →
  ∃ bytes,
    encodeMessage clock body = Return bytes ∧
    decodeMessage bytes = Return (VObject (<["t" := VNumber (Date_now clock)]> body)).
Proof.
  intros Hvalid (bytes & Hencode & Hdecode). exists bytes.
  unfold encodeMessage.
  rewrite <- insert_union_singleton_r by by apply valid_body_no_timestamp.
  split; [done|].
  rewrite decodeMessage_eq, Hdecode. unfold schema_parse.
  by rewrite parse_stamped.
Qed.

(** C2. Where the round trip fails: the login body of a user without an
    API key, with the key "api_key" present and [undefined], is a valid
    message body, whatever the username; msgpack has no [undefined] and
    writes it as nil, which is read back as [null]; and the schema, for
    which the key is optional but no [null], rejects what comes back:
    [encodeMessage] returns and [decodeMessage] throws a [ZodError] on
    its output. *)
Theorem undefined_api_key_breaks_round_trip (clock : Z) (username : string)
    (bytes : list Byte.byte) :
  msgpack_encode
    (VObject (<["t" := VNumber (Date_now clock)]> (Examples.login_without_api_key username)))
    = Return bytes →
  msgpack_decode bytes =
    Return (VObject (<["api_key" := VNull]>
                       (<["t" := VNumber (Date_now clock)]>
                          (Examples.login_without_api_key username)))) →
  valid_body (Examples.login_without_api_key username) ∧
  encodeMessage clock (Examples.login_without_api_key username) = Return bytes ∧
  decodeMessage bytes = Throw ZodError.
Proof.
  intros Hencode Hdecode.
  assert (valid_body (Examples.login_without_api_key username)) as Hvalid
    by (vm_compute; reflexivity).
  split; [done|]. split.
  - unfold encodeMessage.
    by rewrite <- insert_union_singleton_r by by apply valid_body_no_timestamp.
  - rewrite decodeMessage_eq, Hdecode. unfold schema_parse.
    assert (parse MessageSchema
              (VObject (<["api_key" := VNull]>
                          (<["t" := VNumber (Date_now clock)]>
                             (Examples.login_without_api_key username)))) = None) as ->;
      [|done].
    apply (field_rejected _ "api_key" (ZodOptional (ZodString []))).
    + apply list_elem_of_In. vm_compute. tauto.
    + reflexivity.
Qed.
End Codec.

End CodecTheorems.

(** A frame with an unknown tag is rejected. *)
Lemma decodeMessage_fails_closed_witness :
  Messages.unknown_tag Examples.unknown_frame_value ∧
  @Messages.decodeMessage Reference.msgpack Examples.unknown_frame = JS.Throw Zod.ZodError.
Proof.
  assert (Messages.unknown_tag Examples.unknown_frame_value) as Hunknown.
  { intros tag Htag. vm_compute in Htag. injection Htag as <-.
    apply (bool_decide_unpack _). vm_compute. exact I. }
  split; [done|].
  apply (proj2 (@CodecTheorems.decodeMessage_fails_closed Reference.msgpack
                  Examples.unknown_frame) Examples.unknown_frame_value).
  - vm_compute. reflexivity.
  - by left.
Defined.

(** A [room::create] body survives the round trip through the reference
    MessagePack codec. *)
Lemma encode_then_decode_witness :
  Messages.valid_body Examples.create_body ∧
  ∃ bytes,
    @Messages.encodeMessage Reference.msgpack Examples.clock Examples.create_body
      = JS.Return bytes ∧
    @Messages.decodeMessage Reference.msgpack bytes = JS.Return Examples.stamped_create.
Proof.
  assert (Messages.valid_body Examples.create_body) as Hvalid
    by (vm_compute; reflexivity).
  split; [done|].
  apply (@CodecTheorems.encode_then_decode Reference.msgpack); [done|].
  exists (default [] (Reference.encode Examples.stamped_create)).
  split; vm_compute; reflexivity.
Defined.

(** The login body of "alice" without an API key does not survive the
    round trip through the reference MessagePack codec. *)
Lemma undefined_api_key_breaks_round_trip_witness :
  Messages.valid_body (Examples.login_without_api_key "alice") ∧
  ∃ bytes,
    @Messages.encodeMessage Reference.msgpack Examples.clock
      (Examples.login_without_api_key "alice") = JS.Return bytes ∧
    @Messages.decodeMessage Reference.msgpack bytes = JS.Throw Zod.ZodError.
Proof.
  pose (bytes :=
          default []
            (Reference.encode
               (JS.VObject (<["t" := JS.VNumber (Messages.Date_now Examples.clock)]>
                              (Examples.login_without_api_key "alice"))))).
  destruct (@CodecTheorems.undefined_api_key_breaks_round_trip Reference.msgpack
              Examples.clock "alice" bytes) as (Hvalid & Hencode & Hdecode).
  - vm_compute. reflexivity.
  - vm_compute. reflexivity.
  - split; [exact Hvalid|]. exists bytes. split; [exact Hencode | exact Hdecode].
Defined.

(** ** The connection channel *)

Module ChannelTheorems.
Import JS Zod Messages.

Section Channel.
Context `{Msgpack} {WebSocket : Type} `{WebSocketAPI WebSocket}.
Implicit Types this : @MessageChannel WebSocket.

Lemma send_eq clock body this :
  send clock body this =
  match encodeMessage clock body with
  | Return bytes =>
      match WebSocket_send bytes (ws this) with
      | (ws', Return _) => (with_ws ws' this, Return tt)
      | (ws', Throw e) =>
          (logged "Failed to send message: %s" (ExceptionArg e) (with_ws ws' this),
           Return tt)
      end
  | Throw e => (logged "Failed to send message: %s" (ExceptionArg e) this, Return tt)
  end.
Proof.
  unfold send, try_catch, mbind, M_bind, bind, lift, on_ws.
  destruct (encodeMessage clock body) as [bytes|e]; [|done].
  by destruct (WebSocket_send bytes (ws this)) as [ws' [[]|e]].
Qed.

Lemma on_message_eq evt_data this :
  on_message evt_data this =
  match evt_data with
  | DataUint8Array data =>
      match decodeMessage data with
      | Return message => (dispatching (MessageEvent message) this, Return tt)
      | Throw e =>
          (logged "Failed to decode received message: %s" (ExceptionArg e) this, Return tt)
      end
  | _ => (logged "Expected to receive a Uint8Array, but got %o" (DataArg evt_data) this,
          Return tt)
  end.
Proof.
  unfold on_message, try_catch, mbind, M_bind, bind, lift.
  destruct evt_data as [text|bytes|bytes|data]; try done.
  by destruct (decodeMessage data).
Qed.

Lemma on_error_eq this :
  on_error this =
  (dispatching ClosedEvent
     (with_open false (logged "Websocket disconnected due to an error." NoArg this)),
   Return tt).
Proof. reflexivity. Qed.

Lemma on_close_eq this :
  on_close this = (dispatching ClosedEvent (with_open false this), Return tt).
Proof. reflexivity. Qed.

Lemma closed_count_dispatching evt this :
  closed_count (dispatching evt this) =
  (closed_count this + if is_closed_event evt then 1 else 0)%nat.
Proof.
  unfold closed_count. simpl. rewrite filter_app, length_app. f_equal.
  by destruct evt.
Qed.

(** The part of the life cycle that holds by construction: nothing ever
    sets [this.open] back to [true], and [isOpen()] is [true] exactly
    as long as no "closed" event has been dispatched. *)
Lemma open_never_returns evt this :
  open this = false → open (handle evt this).1 = false.
Proof.
  intros Hclosed. destruct evt as [data| |]; unfold handle.
  - rewrite on_message_eq. destruct data; try done. by destruct (decodeMessage _).
  - by rewrite on_error_eq.
  - by rewrite on_close_eq.
Qed.

Lemma handle_open_until_closed evt this :
  open_until_closed this → open_until_closed (handle evt this).1.
Proof.
  unfold open_until_closed. intros Hinv. destruct evt as [data| |]; unfold handle.
  - rewrite on_message_eq. destruct data; try done.
    destruct (decodeMessage _); [|done]. simpl.
    rewrite closed_count_dispatching. simpl. by rewrite Nat.add_0_r.
  - rewrite on_error_eq. simpl. rewrite closed_count_dispatching. simpl.
    symmetry. apply bool_decide_eq_false. lia.
  - rewrite on_close_eq. simpl. rewrite closed_count_dispatching. simpl.
    symmetry. apply bool_decide_eq_false. lia.
Qed.

Lemma send_open_until_closed clock body this :
  open_until_closed this → open_until_closed (send clock body this).1.
Proof.
  rewrite send_eq. destruct (encodeMessage clock body) as [bytes|e]; [|done].
  by destruct (WebSocket_send bytes (ws this)) as [ws' [[]|e]].
Qed.

(** C5. What the code does where the claim fails: the transport reports a
    failure as an "error" event followed by a "close" event; the channel
    runs [onClosed] for each, so "closed" is dispatched twice, not at most
    once ([this.open] is [false] from the first one on). *)
Theorem closed_dispatched_for_error_and_for_close this :
  closed_count (handle_all [ws_error; ws_close] this).1 = (closed_count this + 2)%nat
  ∧ open (handle_all [ws_error; ws_close] this).1 = false.
Proof.
  unfold handle_all, for_each, handle. unfold mbind, M_bind, bind, ret.
  rewrite on_error_eq, on_close_eq. split; [|done].
  unfold closed_count. simpl. rewrite !filter_app, !length_app. simpl. lia.
Qed.

(** [send] and the message listener return normally whatever happens, and
    neither changes [this.open]; [send] dispatches nothing. *)
Lemma send_never_throws clock body this :
  (send clock body this).2 = Return tt ∧
  open (send clock body this).1 = open this ∧
  dispatched (send clock body this).1 = dispatched this.
Proof.
  rewrite send_eq. destruct (encodeMessage clock body) as [bytes|e]; [|done].
  by destruct (WebSocket_send bytes (ws this)) as [ws' [[]|e]].
Qed.

Lemma on_message_never_throws evt_data this :
  (on_message evt_data this).2 = Return tt ∧
  open (on_message evt_data this).1 = open this.
Proof.
  rewrite on_message_eq. destruct evt_data as [text|bytes|bytes|data]; try done.
  by destruct (decodeMessage data).
Qed.

(** C6. Per-message errors are recovered from locally.  When the write of
    the transport throws, [send] logs the error and returns normally: the
    exception does not reach the caller, [this.open] is unchanged and no
    event is dispatched.  When an inbound frame fails to decode, the
    failure is logged and nothing else happens: no event is dispatched,
    [this.open] and the transport are unchanged.  In every case, [send]
    and the message listener return normally and leave [this.open] as it
    is. *)
Theorem per_message_errors_are_recovered this clock body data :
  (∀ bytes ws' e,
     encodeMessage clock body = Return bytes →
     WebSocket_send bytes (ws this) = (ws', Throw e) →
     ∃ this',
       send clock body this = (this', Return tt) ∧
       ws this' = ws' ∧
       open this' = open this ∧
       dispatched this' = dispatched this ∧
       log this' = (log this ++ [{| format := "Failed to send message: %s";
                                     arg := ExceptionArg e |}])%list)
  ∧ (∀ e,
       decodeMessage data = Throw e →
       ∃ this',
         on_message (DataUint8Array data) this = (this', Return tt) ∧
         ws this' = ws this ∧
         open this' = open this ∧
         dispatched this' = dispatched this ∧
         log this' = (log this ++ [{| format := "Failed to decode received message: %s";
                                       arg := ExceptionArg e |}])%list)
  ∧ (send clock body this).2 = Return tt
  ∧ open (send clock body this).1 = open this
  ∧ (on_message (DataUint8Array data) this).2 = Return tt
  ∧ open (on_message (DataUint8Array data) this).1 = open this.
Proof.
  split_and!.
  - intros bytes ws' e Hencode Hsend. rewrite send_eq, Hencode, Hsend. eauto 10.
  - intros e Hdecode. rewrite on_message_eq, Hdecode. eauto 10.
  - apply send_never_throws.
  - apply send_never_throws.
  - apply on_message_never_throws.
  - apply on_message_never_throws.
Qed.

End Channel.

(** C9. For every inbound transport event whose payload is not a
    [Uint8Array], the channel logs an error and does nothing else: the
    decoder plays no part in the outcome (it is the same for every
    decoder), no event is dispatched, and the transport and [this.open]
    are unchanged. *)
Theorem non_binary_payload_is_discarded {WebSocket : Type}
    (this : @MessageChannel WebSocket) (evt_data : MessageData) :
  (∀ bytes, evt_data ≠ DataUint8Array bytes) →
  ∃ this',
    (∀ decoder : Msgpack, @on_message decoder WebSocket evt_data this = (this', Return tt)) ∧
    ws this' = ws this ∧
    open this' = open this ∧
    dispatched this' = dispatched this ∧
    log this' = (log this ++ [{| format := "Expected to receive a Uint8Array, but got %o";
                                  arg := DataArg evt_data |}])%list.
Proof.
  intros Hdata.
  exists (logged "Expected to receive a Uint8Array, but got %o" (DataArg evt_data) this).
  split_and!; try done.
  intros decoder. rewrite on_message_eq.
  destruct evt_data as [text|bytes|bytes|data]; try done. by destruct (Hdata data).
Qed.

End ChannelTheorems.

(** A write on a transport that is still connecting throws, and an empty
    frame does not decode: both are logged and nothing else happens. *)
Lemma per_message_errors_are_recovered_witness :
  (∃ this',
     @Messages.send Reference.msgpack _ Reference.websocket
       Examples.clock Examples.create_body Examples.connecting_channel
       = (this', JS.Return tt) ∧
     Messages.open this' = true ∧ Messages.dispatched this' = [])
  ∧ (∃ this',
       @Messages.on_message Reference.msgpack _ (Messages.DataUint8Array [])
         Examples.connecting_channel = (this', JS.Return tt) ∧
       Messages.open this' = true ∧ Messages.dispatched this' = []).
Proof.
  destruct (@ChannelTheorems.per_message_errors_are_recovered
              Reference.msgpack _ Reference.websocket
              Examples.connecting_channel Examples.clock Examples.create_body [])
    as (Hsend & Hreceive & _).
  split.
  - destruct (Hsend (default [] (Reference.encode Examples.stamped_create))
                (Messages.ws Examples.connecting_channel)
                (JS.Error "InvalidStateError" "Still in CONNECTING state."))
      as (this' & Hrun & _ & Hopen & Hdispatched & _);
      [vm_compute; reflexivity | vm_compute; reflexivity |].
    exists this'. split; [exact Hrun|]. split; [exact Hopen | exact Hdispatched].
  - destruct (Hreceive (JS.Error "RangeError" "Insufficient data"))
      as (this' & Hrun & _ & Hopen & Hdispatched & _); [vm_compute; reflexivity|].
    exists this'. split; [exact Hrun|]. split; [exact Hopen | exact Hdispatched].
Defined.

(** A text frame is discarded. *)
Lemma non_binary_payload_is_discarded_witness :
  (∀ bytes, Messages.DataText "ping" ≠ Messages.DataUint8Array bytes) ∧
  ∃ this',
    @Messages.on_message Reference.msgpack _ (Messages.DataText "ping")
      Examples.connecting_channel = (this', JS.Return tt) ∧
    Messages.open this' = true ∧ Messages.dispatched this' = [].
Proof.
  assert (∀ bytes, Messages.DataText "ping" ≠ Messages.DataUint8Array bytes) as Htext
    by done.
  split; [done|].
  destruct (ChannelTheorems.non_binary_payload_is_discarded
              Examples.connecting_channel (Messages.DataText "ping") Htext)
    as (this' & Hrun & _ & Hopen & Hdispatched & _).
  exists this'. split; [exact (Hrun _)|]. split; [exact Hopen | exact Hdispatched].
Defined.

(** ** The background script *)

Module BackgroundFacts.
Import JS Background.

Section Facts.
Context {Session : Type} `{SessionAPI Session}.
Implicit Types st : @State Session.

(** Running a computation: unfold the monad. *)
Ltac run :=
  unfold mbind, mret, M_bind, M_ret, bind, ret, gets, modify, lift, throw, try_catch;
  simpl.

(** Normalising a state built by successive updates. *)
Ltac norm :=
  unfold emitting, with_store, with_session, with_listening_to, with_listeners;
  simpl; rewrite <- ?app_assoc; simpl.

Lemma emitting_emitting l1 l2 st :
  emitting l2 (emitting l1 st) = emitting (l1 ++ l2) st.
Proof. unfold emitting. simpl. by rewrite app_assoc. Qed.

Lemma effects_since_emitting l st : effects_since st (emitting l st) = l.
Proof. unfold effects_since. simpl. by rewrite drop_app_length. Qed.

Lemma for_each_post (message : Port → Message) ports st :
  for_each (λ port, postMessage port (message port)) ports st =
  (emitting (map (λ port, Posted port (message port)) ports) st, Return tt).
Proof.
  revert st. induction ports as [|port rest IH]; intros st.
  - unfold emitting. simpl. rewrite app_nil_r. by destruct st.
  - simpl. unfold postMessage, emit. run. rewrite IH.
    by rewrite emitting_emitting.
Qed.

Lemma sendError_eq message st :
  sendError message st =
  (emitting ([Logged error ("Session error: " +:+ message);
              Dispatched (error_event message)] ++
             error_posts message st) st,
   Return tt).
Proof.
  unfold sendError, logger, dispatchEvent, emit. run.
  unfold postSessionError. rewrite for_each_post. simpl.
  by rewrite !emitting_emitting.
Qed.

Lemma error_events_posts (message : Port → Message) ports :
  error_events (map (λ port, Posted port (message port)) ports) = [].
Proof. by induction ports. Qed.

Lemma error_events_app l1 l2 :
  error_events (l1 ++ l2) = error_events l1 ++ error_events l2.
Proof. apply omap_app. Qed.

Lemma call_eq ref method body st :
  call ref method body st =
  match store st !! ref with
  | Some object =>
      (emitting [Called ref method (body object).2]
         (with_store (<[ref := (body object).1]> (store st)) st),
       (body object).2)
  | None => (st, Return tt)
  end.
Proof.
  unfold call. run. destruct (store st !! ref) as [object|]; [|done].
  destruct (body object) as [object' outcome]. unfold set_store, emit. run.
  by destruct outcome.
Qed.

Lemma stopSession_eq message st :
  stopSession message st =
  match session st with
  | Some ref =>
      match store st !! ref with
      | Some object =>
          (emitting [Logged info ("Stopping current session: " +:+ message);
                     Called ref (call_close message) (Session_close message object).2]
             (with_store (<[ref := (Session_close message object).1]> (store st)) st),
           (Session_close message object).2)
      | None =>
          (emitting [Logged info ("Stopping current session: " +:+ message)] st, Return tt)
      end
  | None => (st, Return tt)
  end.
Proof.
  unfold stopSession, logger, emit. run. destruct (session st) as [ref|]; [|done].
  rewrite call_eq. simpl. destruct (store st !! ref) as [object|]; [|done].
  by norm.
Qed.

Lemma new_Session_eq options st :
  new_Session options st =
  match Session_new options with
  | Return object =>
      (emitting [Constructed options (Some (length (store st)))]
         (with_store (store st ++ [object]) st),
       Return (length (store st)))
  | Throw e => (emitting [Constructed options None] st, Throw e)
  end.
Proof. unfold new_Session. by destruct (Session_new options). Qed.

(** Starting a session when none is current. *)
Lemma startSession_fresh options st :
  session st = None →
  startSession options st =
  match Session_new options with
  | Return object =>
      (emitting [Logged info "Starting new session";
                 Constructed options (Some (length (store st)));
                 Assigned (Some (length (store st)));
                 Called (length (store st)) call_addEventListener_update (Return tt)]
         (with_listening_to
            (if bool_decide (length (store st) ∈ listening_to st) then listening_to st
             else listening_to st ++ [length (store st)])
            (with_session (Some (length (store st)))
               (with_store (store st ++ [object]) st))),
       Return tt)
  | Throw e =>
      (emitting [Logged info "Starting new session"; Constructed options None] st, Throw e)
  end.
Proof.
  intros Hnone. unfold startSession, logger, emit. run.
  rewrite stopSession_eq. simpl. rewrite Hnone.
  rewrite new_Session_eq. simpl. destruct (Session_new options) as [object|e].
  - unfold assign, addEventListener_update, emit. run. unfold emitting. simpl.
    by rewrite <- !app_assoc.
  - by rewrite emitting_emitting.
Qed.

Lemma error_events_error_posts detail st : error_events (error_posts detail st) = [].
Proof. apply error_events_posts. Qed.

Lemma startSessionFromOptions_incomplete options st :
  incomplete options = true →
  startSessionFromOptions options st =
  (emitting ([Logged error "Failed to start session: Options is incomplete";
              Logged error ("Session error: " +:+ incomplete_options_message);
              Dispatched (error_event incomplete_options_message)] ++
             error_posts incomplete_options_message st) st,
   Return tt).
Proof.
  unfold incomplete, startSessionFromOptions. intros ->.
  unfold logger, emit. run. rewrite sendError_eq. simpl.
  by rewrite emitting_emitting.
Qed.

Lemma startSessionFromOptions_complete options st :
  incomplete options = false →
  startSessionFromOptions options st =
  startSession {| username := default "" (options_username options);
                  url := default "" (options_serverUrl options);
                  apiKey := options_apiKey options |} st.
Proof. unfold incomplete, startSessionFromOptions. by intros ->. Qed.

(** The operation itself, tried on the session [ref]. *)
Lemma attempt_eq ref method body label st :
  try_catch
    (call ref method body)
    (λ e, sendError (label +:+ toString_or e "unknown error");; assign None) st =
  match store st !! ref with
  | Some object =>
      match (body object).2 with
      | Return _ =>
          (emitting [Called ref method (body object).2]
             (with_store (<[ref := (body object).1]> (store st)) st),
           Return tt)
      | Throw e =>
          (emitting ([Called ref method (Throw e);
                      Logged error ("Session error: " +:+ label +:+ toString_or e "unknown error");
                      Dispatched (error_event (label +:+ toString_or e "unknown error"))] ++
                     error_posts (label +:+ toString_or e "unknown error") st ++
                     [Assigned None])
             (with_session None
                (with_store (<[ref := (body object).1]> (store st)) st)),
           Return tt)
      end
  | None => (st, Return tt)
  end.
Proof.
  unfold try_catch. rewrite call_eq.
  destruct (store st !! ref) as [object|]; [|done].
  destruct (body object) as [object' [[]|e]]; simpl; [done|].
  unfold assign, emit. run. rewrite sendError_eq. simpl. by norm.
Qed.

Lemma ensured_operation_eq options method body label st :
  ensured_operation options method body label st =
  match session st with
  | Some ref =>
      try_catch
        (call ref method body)
        (λ e, sendError (label +:+ toString_or e "unknown error");; assign None) st
  | None =>
      match startSessionFromOptions options st with
      | (st1, Return _) =>
          match session st1 with
          | Some ref =>
              try_catch
                (call ref method body)
                (λ e, sendError (label +:+ toString_or e "unknown error");; assign None)
                st1
          | None => (st1, Return tt)
          end
      | (st1, Throw e) => (st1, Throw e)
      end
  end.
Proof.
  unfold ensured_operation, tryEnsureSession.
  unfold mbind, mret, M_bind, M_ret, bind, ret, gets. simpl.
  destruct (session st) as [ref|] eqn:Hsession; simpl.
  - by rewrite Hsession.
  - destruct (startSessionFromOptions options st) as [st1 [[]|e]]; [|done].
    by destruct (session st1).
Qed.

Lemma createRoom_ensured options init :
  createRoom options init =
  ensured_operation options (call_createRoom init) (Session_createRoom init)
    "Failed to create room: ".
Proof. reflexivity. Qed.

Lemma joinRoom_ensured options id password :
  joinRoom options id password =
  ensured_operation options (call_joinRoom id password) (Session_joinRoom id password)
    "Failed to join room: ".
Proof. reflexivity. Qed.

Lemma leaveRoom_eq st :
  leaveRoom st =
  match session st with
  | Some ref =>
      try_catch
        (call ref call_leaveRoom Session_leaveRoom)
        (λ e, sendError ("Failed to leave room: " +:+ toString_or e "unknown error");;
              assign None) st
  | None => (st, Return tt)
  end.
Proof.
  unfold leaveRoom. unfold try_catch at 1.
  unfold mbind, mret, M_bind, M_ret, bind, ret, gets. simpl.
  destruct (session st) as [ref|]; [|done].
  unfold try_catch. by destruct (call ref call_leaveRoom Session_leaveRoom st) as [? [[]|?]].
Qed.
(** *** The session reference never dangles *)

Lemma postSessionState_eq port st :
  ∃ l, postSessionState port st = (emitting l st, Return tt).
Proof.
  unfold postSessionState, postMessage, emit, getSessionState.
  unfold mbind, mret, M_bind, M_ret, bind, ret, gets, modify. simpl.
  destruct (session st) as [ref|]; [destruct (store st !! ref)|]; simpl; eauto.
Qed.

Lemma for_each_postSessionState ports st :
  ∃ l, for_each postSessionState ports st = (emitting l st, Return tt).
Proof.
  revert st. induction ports as [|port rest IH]; intros st.
  - exists []. unfold emitting. simpl. rewrite app_nil_r. by destruct st.
  - simpl. unfold bind.
    destruct (postSessionState_eq port st) as [l1 ->].
    destruct (IH (emitting l1 st)) as [l2 ->].
    exists (l1 ++ l2). by rewrite emitting_emitting.
Qed.

Lemma attempt_coherent ref method body label st :
  coherent st →
  coherent (try_catch
              (call ref method body)
              (λ e, sendError (label +:+ toString_or e "unknown error");; assign None)
              st).1.
Proof.
  intros Hst. rewrite attempt_eq. destruct (store st !! ref) as [object|]; [|done].
  destruct (body object) as [object' [[]|e]]; simpl; [|done].
  intros r Hr. simpl in *. rewrite length_insert. by apply Hst.
Qed.

Lemma ensured_operation_coherent options method body label st :
  coherent st → coherent (ensured_operation options method body label st).1.
Proof.
  intros Hst. rewrite ensured_operation_eq.
  destruct (session st) as [ref|] eqn:Hsession; [by apply attempt_coherent|].
  destruct (incomplete options) eqn:Hoptions.
  - rewrite startSessionFromOptions_incomplete by done. simpl. rewrite Hsession.
    simpl. intros r Hr. simpl in Hr. congruence.
  - rewrite startSessionFromOptions_complete, startSession_fresh by done.
    destruct (Session_new _) as [object|e]; simpl.
    + apply attempt_coherent. intros r [= <-]. simpl. rewrite length_app. simpl. lia.
    + intros r Hr. simpl in Hr. congruence.
Qed.

Lemma resumed_coherent method body label st :
  coherent st →
  coherent ((current ← gets session;
             match current with
             | None => mret tt
             | Some ref =>
                 try_catch
                   (call ref method body)
                   (λ e, sendError (label +:+ toString_or e "unknown error");;
                         assign None)
             end) st).1.
Proof.
  intros Hst. unfold mbind, mret, M_bind, M_ret, bind, ret, gets. simpl.
  destruct (session st) as [ref|]; [by apply attempt_coherent | done].
Qed.

Lemma startSession_coherent options st :
  coherent st → coherent (startSession options st).1.
Proof.
  intros Hst. unfold startSession, logger, emit.
  unfold mbind, mret, M_bind, M_ret, bind, ret, gets, modify. simpl.
  rewrite stopSession_eq. simpl.
  destruct (session st) as [old|] eqn:Hsession;
    [destruct (store st !! old) as [object|]|];
    [destruct (Session_close _ object) as [object' [[]|e]]|..]; simpl;
    try (rewrite new_Session_eq; destruct (Session_new options) as [new_object|e]; simpl);
    intros r Hr; simpl in *; simplify_eq;
    rewrite ?length_app, ?length_insert; simpl; try lia;
    try (apply Hst; congruence).
Qed.

Lemma void_coherent (promise : M State unit) st :
  coherent (promise st).1 → coherent (void promise st).1.
Proof. unfold void, try_catch. by destruct (promise st) as [st' [[]|e]]. Qed.

(** Every listener of the script keeps [session] pointing into the store. *)
Lemma step_coherent input st : coherent st → coherent (step input st).1.
Proof.
  intros Hst. destruct input
    as [port|port|options port rawMsg|rawMsg|ref|options|init|id password]; simpl.
  - done.
  - done.
  - unfold onPortMessage. destruct rawMsg as [message|e]; simpl; [|done].
    unfold emit. unfold mbind, M_bind, bind, modify. simpl.
    destruct message; try done.
    + apply void_coherent. rewrite createRoom_ensured.
      by apply ensured_operation_coherent.
    + apply void_coherent. rewrite joinRoom_ensured.
      by apply ensured_operation_coherent.
    + rewrite leaveRoom_eq. simpl. destruct (session st) as [ref|] eqn:Hsession.
      * apply attempt_coherent. intros r Hr. simpl in *. apply Hst. congruence.
      * intros r Hr. simpl in Hr. congruence.
  - unfold onRuntimeMessage. destruct rawMsg as [message|e]; simpl; [|done].
    by destruct message.
  - unfold onSessionEvent. unfold mbind, M_bind, bind, gets. simpl.
    case_bool_decide; [|done].
    unfold onSessionUpdate, dispatchEvent, emit.
    unfold mbind, M_bind, bind, gets, modify. simpl.
    match goal with |- context [for_each _ ?ports ?s] =>
      destruct (for_each_postSessionState ports s) as [l ->] end.
    done.
  - apply void_coherent. destruct (incomplete options) eqn:Hoptions.
    + by rewrite startSessionFromOptions_incomplete.
    + rewrite startSessionFromOptions_complete by done. by apply startSession_coherent.
  - apply void_coherent. by apply resumed_coherent.
  - apply void_coherent. by apply resumed_coherent.
Qed.

Lemma run_coherent inputs st : coherent st → coherent (run inputs st).1.
Proof.
  unfold run. revert st. induction inputs as [|input rest IH]; intros st Hst; [done|].
  simpl. unfold bind. pose proof (step_coherent input st Hst) as Hstep.
  destruct (step input st) as [st' [[]|e]]; [by apply IH | done].
Qed.
End Facts.
End BackgroundFacts.

Module BackgroundTheorems.
Import JS Background BackgroundFacts.

Section Theorems.
Context {Session : Type} `{SessionAPI Session}.
Implicit Types st : @State Session.

Lemma effects_since_trace st st' l :
  trace st' = trace st ++ l → effects_since st st' = l.
Proof. unfold effects_since. intros ->. by rewrite drop_app_length. Qed.

Lemma effects_since_refl st : effects_since st st = [].
Proof. unfold effects_since. by rewrite drop_all. Qed.

Lemma error_events_cons_posts detail st rest :
  error_events (error_posts detail st ++ rest) = error_events rest.
Proof. by rewrite error_events_app, error_events_error_posts. Qed.

(** C3, as the code has it.  When a session is started while another one
    ([old]) is current, [close] is called on the old session first, exactly
    once, then the new session is constructed and the reference to the
    current session is replaced by it, all in one synchronous run; the
    listeners of the script are untouched. *)
Theorem startSession_closes_then_supersedes options st old object new_object :
  session st = Some old →
  store st !! old = Some object →
  (Session_close "Superseded by another session" object).2 = Return tt →
  Session_new options = Return new_object →
  ∃ st',
    startSession options st = (st', Return tt) ∧
    session st' = Some (length (store st)) ∧
    length (store st) ≠ old ∧
    effects_since st st' =
      [Logged info "Starting new session";
       Logged info "Stopping current session: Superseded by another session";
       Called old (call_close "Superseded by another session") (Return tt);
       Constructed options (Some (length (store st)));
       Assigned (Some (length (store st)));
       Called (length (store st)) call_addEventListener_update (Return tt)] ∧
    update_listeners st' = update_listeners st ∧
    error_listeners st' = error_listeners st.
Proof.
  intros Hsession Hobject Hclose Hnew.
  unfold startSession, logger, emit.
  unfold mbind, mret, M_bind, M_ret, bind, ret, gets, modify. simpl.
  rewrite stopSession_eq. simpl. rewrite Hsession, Hobject, Hclose.
  rewrite new_Session_eq, Hnew. simpl.
  unfold assign, addEventListener_update, emit.
  unfold mbind, mret, M_bind, M_ret, bind, ret, gets, modify. simpl.
  rewrite length_insert.
  eexists. split; [reflexivity|]. split_and!; try done.
  - apply lookup_lt_Some in Hobject. lia.
  - apply effects_since_trace. simpl. by rewrite <- !app_assoc.
Qed.

(** C4. What the code does where the claim fails: a
    [{ type: "get_session_state" }] message on a port is parsed and logged,
    then falls to the default branch of the switch, where a warning is
    logged; the snapshot is not posted back, nor anything else. *)
Theorem get_session_state_gets_no_reply options port st :
  ∃ st',
    onPortMessage options port (well_formed get_session_state) st = (st', Return tt) ∧
    effects_since st st' =
      [LoggedMessage debug ("Received message from port '" +:+ port_name port +:+ "': ")
         get_session_state;
       Logged warning ("Received unexpected message from port '" +:+ port_name port
                       +:+ "': " +:+ "get_session_state")] ∧
    (∀ target message, Posted target message ∉ effects_since st st').
Proof.
  eexists. split; [reflexivity|].
  unfold effects_since. simpl. rewrite <- app_assoc. simpl.
  rewrite drop_app_length. split; [done|].
  intros target message Hin.
  repeat (apply elem_of_cons in Hin as [?|Hin]; [done|]). by apply elem_of_nil in Hin.
Qed.

(** A failed attempt: the operation threw [e]; the session is dropped and
    one error event is raised. *)
(** After an invalidation the next operation builds a fresh session. *)
Lemma tryEnsureSession_fresh next st :
  session st = None → incomplete next = false →
  (∃ fresh, Constructed {| username := default "" (options_username next);
                           url := default "" (options_serverUrl next);
                           apiKey := options_apiKey next |} fresh
              ∈ effects_since st (tryEnsureSession next st).1) ∧
  (∀ new, Session_new {| username := default "" (options_username next);
                         url := default "" (options_serverUrl next);
                         apiKey := options_apiKey next |} = Return new →
     ∃ fresh, session (tryEnsureSession next st).1 = Some fresh ∧
              store st !! fresh = None ∧
              store (tryEnsureSession next st).1 !! fresh = Some new).
Proof.
  intros Hsession Hnext. unfold tryEnsureSession.
  unfold mbind, M_bind, bind, gets. simpl. rewrite Hsession.
  rewrite startSessionFromOptions_complete, startSession_fresh by done.
  destruct (Session_new _) as [object|e]; simpl; split.
  - eexists. erewrite effects_since_trace; [|simpl; reflexivity]. right; left.
  - intros new [= <-]. exists (length (store st)). split_and!.
    + done.
    + by apply lookup_ge_None_2.
    + by apply list_lookup_middle.
  - eexists. rewrite effects_since_emitting. right; left.
  - done.
Qed.

(** The operation, tried on a session on which it throws; [st0] is the
    state the call started from, and nothing since was an error event. *)
Lemma attempt_invalidates ref method body label st0 l0 st object e :
  trace st = trace st0 ++ l0 →
  error_events l0 = [] →
  store st !! ref = Some object →
  (body object).2 = Throw e →
  invalidated (label +:+ toString_or e "unknown error") st0
    (try_catch
       (call ref method body)
       (λ e, sendError (label +:+ toString_or e "unknown error");; assign None) st).
Proof.
  intros Htrace Hquiet Hobject Hthrow. rewrite attempt_eq, Hobject, Hthrow.
  split; [done|]. split; [done|]. split.
  - match goal with |- context [emitting ?l _] =>
      rewrite (effects_since_trace st0 _ (l0 ++ l)) end.
    2:{ simpl. by rewrite Htrace, <- app_assoc. }
    rewrite error_events_app, Hquiet. simpl.
    by rewrite error_events_cons_posts.
  - intros next Hnext. by apply tryEnsureSession_fresh.
Qed.

Lemma ensured_operation_invalidates options method body label st ref object e :
  session st = Some ref →
  store st !! ref = Some object →
  (body object).2 = Throw e →
  invalidated (label +:+ toString_or e "unknown error") st
    (ensured_operation options method body label st).
Proof.
  intros Hsession Hobject Hthrow. rewrite ensured_operation_eq, Hsession.
  by eapply (attempt_invalidates _ _ _ _ st []); [rewrite app_nil_r|..].
Qed.

Lemma started_operation_invalidates options method body label st new e :
  session st = None →
  incomplete options = false →
  Session_new {| username := default "" (options_username options);
                 url := default "" (options_serverUrl options);
                 apiKey := options_apiKey options |} = Return new →
  (body new).2 = Throw e →
  invalidated (label +:+ toString_or e "unknown error") st
    (ensured_operation options method body label st).
Proof.
  intros Hsession Hoptions Hnew Hthrow. rewrite ensured_operation_eq, Hsession.
  rewrite startSessionFromOptions_complete, startSession_fresh, Hnew by done.
  cbn [session emitting with_listening_to with_session].
  eapply attempt_invalidates; [simpl; reflexivity|done| |done].
  simpl. by apply list_lookup_middle.
Qed.


Lemma attempt_trace ref method body label st :
  ∃ l, trace (try_catch
                (call ref method body)
                (λ e, sendError (label +:+ toString_or e "unknown error");; assign None)
                st).1 = trace st ++ l.
Proof.
  rewrite attempt_eq. destruct (store st !! ref) as [object|].
  - destruct (body object) as [object' [[]|e]]; simpl; eauto.
  - exists []. by rewrite app_nil_r.
Qed.

Lemma ensured_operation_constructs options method body label st :
  session st = None → incomplete options = false →
  ∃ ref, Constructed {| username := default "" (options_username options);
                        url := default "" (options_serverUrl options);
                        apiKey := options_apiKey options |} ref
           ∈ effects_since st (ensured_operation options method body label st).1.
Proof.
  intros Hsession Hoptions. rewrite ensured_operation_eq, Hsession.
  rewrite startSessionFromOptions_complete, startSession_fresh by done.
  destruct (Session_new _) as [object|e].
  - cbn [session emitting with_listening_to with_session].
    match goal with |- context [try_catch ?b ?h ?s] =>
      destruct (attempt_trace (length (store st)) method body label s) as [l Hl] end.
    eexists. erewrite effects_since_trace.
    2:{ rewrite Hl. simpl. rewrite <- app_assoc. reflexivity. }
    simpl. right; left.
  - eexists. simpl. rewrite effects_since_emitting. right; left.
Qed.

(** C8, as the code has it.  For every create-room or join-room intent
    issued while no session is current and the configured credentials are
    incomplete (username or server URL missing or empty), no session is
    constructed and no session operation is called, the call returns
    normally, and the reason is raised as one readable error event, which
    every error listener posts to its port. *)
Theorem incomplete_options_refused options st :
  session st = None →
  incomplete options = true →
  ∃ st',
    (∀ init, createRoom options init st = (st', Return tt)) ∧
    (∀ id password, joinRoom options id password st = (st', Return tt)) ∧
    session st' = None ∧
    store st' = store st ∧
    effects_since st st' =
      [Logged error "Failed to start session: Options is incomplete";
       Logged error ("Session error: " +:+ incomplete_options_message);
       Dispatched (error_event incomplete_options_message)] ++
      error_posts incomplete_options_message st ∧
    refused_with_error (effects_since st st').
Proof.
  intros Hsession Hoptions.
  exists (emitting
            ([Logged error "Failed to start session: Options is incomplete";
              Logged error ("Session error: " +:+ incomplete_options_message);
              Dispatched (error_event incomplete_options_message)] ++
             error_posts incomplete_options_message st) st).
  split_and!.
  - intros init. rewrite createRoom_ensured, ensured_operation_eq, Hsession.
    rewrite startSessionFromOptions_incomplete by done.
    cbn [session emitting]. by rewrite Hsession.
  - intros id password. rewrite joinRoom_ensured, ensured_operation_eq, Hsession.
    rewrite startSessionFromOptions_incomplete by done.
    cbn [session emitting]. by rewrite Hsession.
  - done.
  - done.
  - apply effects_since_emitting.
  - rewrite effects_since_emitting. split.
    + simpl. unfold error_posts. by induction (error_listeners st).
    + done.
Qed.

(** C10. With no current session [leaveRoom] does nothing at all: the
    state, trace included, is unchanged and the call returns normally;
    whereas [createRoom] and [joinRoom], given complete options, construct
    a session on demand. *)
Theorem leaveRoom_without_session_is_a_no_op st :
  session st = None →
  leaveRoom st = (st, Return tt) ∧
  (∀ options init, incomplete options = false →
     ∃ ref, Constructed {| username := default "" (options_username options);
                           url := default "" (options_serverUrl options);
                           apiKey := options_apiKey options |} ref
              ∈ effects_since st (createRoom options init st).1) ∧
  (∀ options id password, incomplete options = false →
     ∃ ref, Constructed {| username := default "" (options_username options);
                           url := default "" (options_serverUrl options);
                           apiKey := options_apiKey options |} ref
              ∈ effects_since st (joinRoom options id password st).1).
Proof.
  intros Hsession. split_and!.
  - by rewrite leaveRoom_eq, Hsession.
  - intros options init Hoptions. rewrite createRoom_ensured.
    by apply ensured_operation_constructs.
  - intros options id password Hoptions. rewrite joinRoom_ensured.
    by apply ensured_operation_constructs.
Qed.

(** The listener on a superseded session is never removed: an "update" of
    the old session is still relayed to the ports. *)
Lemma startSession_keeps_listening options st ref :
  ref ∈ listening_to st → ref ∈ listening_to (startSession options st).1.
Proof.
  intros Hin. unfold startSession, logger, emit.
  unfold mbind, mret, M_bind, M_ret, bind, ret, gets, modify. simpl.
  rewrite stopSession_eq. simpl.
  destruct (session st) as [old|]; [destruct (store st !! old) as [object|]|];
    [destruct (Session_close _ object) as [object' [[]|e]]|..]; simpl; try done;
    rewrite new_Session_eq; destruct (Session_new options) as [new_object|e]; simpl;
    try done; case_bool_decide; try done; by apply elem_of_app; left.
Qed.
End Theorems.
End BackgroundTheorems.

(** ** The theorems on examples, with the reference session *)

(** A session is superseded when two calls overlap: the second one closes
    the session the first one has started, and both rooms are created on
    the second session. *)
Lemma overlapping_calls_supersede :
  let st := (@Background.run _ Reference.session_api
               Examples.overlapping_calls Examples.connected).1 in
  Background.session st = Some 1%nat ∧
  Background.Called 0 (Background.call_close "Superseded by another session")
    (JS.Return tt) ∈ Background.trace st ∧
  Background.Called 1 (Background.call_createRoom Examples.alpha) (JS.Return tt)
    ∈ Background.trace st ∧
  Background.Called 1 (Background.call_createRoom Examples.beta) (JS.Return tt)
    ∈ Background.trace st.
Proof.
  intros st. split_and!; [by vm_compute|..];
    apply list_elem_of_In; vm_compute; tauto.
Qed.

(** Starting a second session: [close] is requested on the first one
    before the reference is replaced. *)
Lemma startSession_closes_then_supersedes_witness :
  ∃ st',
    @Background.startSession _ Reference.session_api Examples.alice Examples.in_session
      = (st', JS.Return tt) ∧
    Background.session st' = Some 1%nat.
Proof.
  destruct (@BackgroundTheorems.startSession_closes_then_supersedes
              _ Reference.session_api Examples.alice Examples.in_session 0%nat
              (Reference.with_status Background.JOINING
                 {| Reference.session_options := Examples.alice;
                    Reference.channel_open := true;
                    Reference.state :=
                      {| Background.inRoom := false;
                         Background.roomConnectionStatus := Some Background.NOT_IN_ROOM;
                         Background.room := None |} |})
              {| Reference.session_options := Examples.alice;
                 Reference.channel_open := true;
                 Reference.state :=
                   {| Background.inRoom := false;
                      Background.roomConnectionStatus := Some Background.NOT_IN_ROOM;
                      Background.room := None |} |})
    as (st' & Hrun & Hsession & _); try (vm_compute; reflexivity).
  exists st'. split; [exact Hrun|]. exact Hsession.
Defined.

(** The claim as stated fails: in the run above no assignment of the new
    session precedes the call of [close] on the old one. *)
Lemma teardown_is_requested_before_superseding :
  ¬ Background.superseded_before_teardown 0
      (Background.effects_since Examples.in_session
         (@Background.startSession _ Reference.session_api Examples.alice
            Examples.in_session).1).
Proof.
  intros (i & j & new & message & outcome & Hi & Hnew & Hj & Hlt).
  remember (Background.effects_since _ _) as effects eqn:Heffects.
  vm_compute in Heffects. subst effects.
  destruct j as [|[|[|[|[|[|j]]]]]]; simplify_eq/=;
    destruct i as [|[|[|[|[|[|i]]]]]]; simplify_eq/=; lia.
Qed.


(** Incomplete options and no session: the intent is refused. *)
Lemma incomplete_options_refused_witness :
  ∃ st',
    @Background.createRoom _ Reference.session_api Examples.incomplete_options
      Examples.alpha Examples.connected = (st', JS.Return tt) ∧
    Background.refused_with_error (Background.effects_since Examples.connected st').
Proof.
  destruct (@BackgroundTheorems.incomplete_options_refused
              _ Reference.session_api Examples.incomplete_options Examples.connected)
    as (st' & Hcreate & _ & _ & _ & _ & Hrefused); try (vm_compute; reflexivity).
  exists st'. split; [apply Hcreate | exact Hrefused].
Defined.

(** The claim as stated fails when a session is current: the intent goes to
    that session although the configured options are incomplete, and no
    error event is raised. *)
Lemma incomplete_options_with_session_reach_the_network :
  Background.incomplete Examples.incomplete_options = true ∧
  ¬ Background.refused_with_error
      (Background.effects_since Examples.in_session
         (@Background.createRoom _ Reference.session_api Examples.incomplete_options
            Examples.alpha Examples.in_session).1).
Proof.
  split; [reflexivity|].
  intros [Hquiet _]. vm_compute in Hquiet. discriminate.
Qed.

(** With no session, leaving a room changes nothing. *)
Lemma leaveRoom_without_session_is_a_no_op_witness :
  @Background.leaveRoom _ Reference.session_api Examples.connected =
    (Examples.connected, JS.Return tt).
Proof.
  apply (@BackgroundTheorems.leaveRoom_without_session_is_a_no_op
           _ Reference.session_api Examples.connected).
  vm_compute. reflexivity.
Defined.

(** ** More of the codec and the channel *)

Module ChannelLifeCycle.
Import JS Zod Messages ZodFacts CodecFacts CodecTheorems ChannelTheorems.
#[local] Arguments mergeValues : simpl never.

Section Codec.
Context `{Msgpack}.

Lemma parse_MessageSchema_insert_other props key v :
  key ≠ "m" →
  key ∉ shape_keys (prescribed_fields (VObject props)) →
  parse MessageSchema (VObject (<[key := v]> props)) = parse MessageSchema (VObject props).
Proof.
  intros Hm Hkey.
  rewrite !parse_MessageSchema, !parse_MessageMetaSchema, !parse_MessageBodySchema.
  change (is_object (VObject ?p)) with true. cbv iota.
  unfold prescribed_fields in Hkey.
  assert (get (VObject (<[key := v]> props)) "m" = get (VObject props) "m") as ->.
  { simpl. by rewrite lookup_insert_ne. }
  destruct (get (VObject props) "m") as [| | | |tag| | | |] eqn:Htag;
    try (by do 2 (destruct (get _ "t") as [| | |?n| | | | |]; try done;
                  try destruct (isNaN _))).
  destruct (variant_for tag) as [variant|] eqn:Hvariant.
  2:{ by do 2 (destruct (get _ "t") as [| | |?n| | | | |]; try done; try destruct (isNaN _)). }
  apply variant_for_Some in Hvariant as [Hvariant _].
  destruct (variant_inv _ Hvariant) as (shape & lit & -> & _).
  simpl in Hkey. apply not_elem_of_cons in Hkey as [Ht Hshape].
  assert (get (VObject (<[key := v]> props)) "t" = get (VObject props) "t") as ->.
  { simpl. by rewrite lookup_insert_ne. }
  rewrite !parse_object. change (is_object (VObject ?p)) with true. cbv iota.
  by rewrite parse_shape_insert_other.
Qed.

(** X1. A key that the schema does not prescribe for the tag of a frame has
    no influence on decoding: two frames whose decoded objects differ only
    in such a key (other than the tag "m" itself) decode to the same result,
    be it the same message or the same failure. *)
Theorem unprescribed_keys_are_ignored data data' props key v :
  msgpack_decode data = Return (VObject props) →
  msgpack_decode data' = Return (VObject (<[key := v]> props)) →
  key ≠ "m" →
  key ∉ shape_keys (prescribed_fields (VObject props)) →
  decodeMessage data' = decodeMessage data.
Proof.
  intros Hdata Hdata' Hm Hkey. rewrite !decodeMessage_eq, Hdata, Hdata'.
  unfold schema_parse. by rewrite parse_MessageSchema_insert_other.
Qed.

(** X2. Whatever [decodeMessage] returns is a numeric timestamp "t" added
    to a valid message body, and the message schema accepts the returned
    message again unchanged: a decoded message can be validated a second
    time, or stripped of its timestamp and sent. *)
Theorem decoded_message_is_valid data message :
  decodeMessage data = Return message →
  ∃ body n,
    message = VObject (<["t" := VNumber n]> body) ∧
    isNaN n = false ∧
    valid_body body ∧
    schema_parse MessageSchema message = Return message.
Proof.
  rewrite decodeMessage_eq. destruct (msgpack_decode data) as [decoded|e]; [|done].
  unfold schema_parse.
  destruct (parse MessageSchema decoded) as [parsed|] eqn:Hparse; [|done].
  intros [= <-].
  destruct (parse_MessageSchema_Some _ _ Hparse)
    as (tag & variant & n & body & _ & Hvariant & Hconforms & _ & _ & _ & Hn & ->).
  apply variant_for_Some in Hvariant as [Hvariant _].
  assert (valid_body body) as Hvalid by (apply valid_body_iff; eauto).
  exists body, n. split_and!; try done. by rewrite parse_stamped.
Qed.

(** X3. [encodeMessage] spreads the body over the timestamp: the clock
    reading is what is encoded under "t" only when the body has no "t" of
    its own; a body that carries a "t" is encoded as it is. *)
Theorem encodeMessage_keeps_own_timestamp clock body :
  encodeMessage clock body =
  msgpack_encode (VObject (match body !! "t" with
                           | Some _ => body
                           | None => <["t" := VNumber (Date_now clock)]> body
                           end)).
Proof.
  unfold encodeMessage. f_equal. f_equal.
  destruct (body !! "t") as [own|] eqn:Hown.
  - apply map_eq. intros key. rewrite lookup_union.
    destruct (decide (key = "t")) as [->|Hne].
    + by rewrite Hown, lookup_singleton_eq.
    + rewrite lookup_singleton_ne by done. by destruct (body !! key).
  - by rewrite insert_union_singleton_r.
Qed.
End Codec.

Section Channel.
Context `{Msgpack} {WebSocket : Type} `{WebSocketAPI WebSocket}.
Implicit Types this : @MessageChannel WebSocket.

(** X4. For every frame that arrives as a [Uint8Array] and decodes, the
    message listener returns normally and dispatches exactly one
    [MessageEvent], which carries the decoded message, and it leaves
    [this.open] as it is.  The same bytes arriving as an [ArrayBuffer] or
    a [Blob] are not decoded: the listener dispatches nothing for them. *)
Theorem frame_is_dispatched_as_one_message this data message :
  decodeMessage data = Return message →
  (∃ this',
     on_message (DataUint8Array data) this = (this', Return tt) ∧
     dispatched this' = dispatched this ++ [MessageEvent message] ∧
     open this' = open this) ∧
  dispatched (on_message (DataArrayBuffer data) this).1 = dispatched this ∧
  dispatched (on_message (DataBlob data) this).1 = dispatched this.
Proof.
  intros Hdecode. rewrite !on_message_eq, Hdecode. split; [eauto 10|]. by split.
Qed.

(** X5. [this.open] is only reported, never consulted: [send], the
    message listener and [close] do to a channel whose flag is set either
    way exactly what they do to the channel otherwise, so a [send] after
    the channel has closed still reaches the transport and a frame that
    arrives late is still dispatched. *)
Theorem open_flag_is_never_consulted this flag clock body data :
  send clock body (with_open flag this) =
    (with_open flag (send clock body this).1, (send clock body this).2) ∧
  on_message data (with_open flag this) =
    (with_open flag (on_message data this).1, (on_message data this).2) ∧
  close (with_open flag this) = (with_open flag (close this).1, (close this).2).
Proof.
  split_and!.
  - rewrite !send_eq. destruct (encodeMessage clock body) as [bytes|e]; [|done].
    cbn [ws with_open]. by destruct (WebSocket_send bytes (ws this)) as [ws' [[]|e]].
  - rewrite !on_message_eq. destruct data as [text|bytes|bytes|frame]; try done.
    by destruct (decodeMessage frame).
  - unfold close, on_ws. cbn [ws with_open]. by destruct (WebSocket_close (ws this)).
Qed.

Lemma handle_returns evt this : (handle evt this).2 = Return tt.
Proof.
  destruct evt as [data| |]; unfold handle; [|done..].
  apply on_message_never_throws.
Qed.

Lemma handle_closed_count evt this :
  closed_count (handle evt this).1 =
  (closed_count this + if is_terminal evt then 1 else 0)%nat.
Proof.
  destruct evt as [data| |]; unfold handle.
  - rewrite on_message_eq.
    destruct data as [text|bytes|bytes|data]; try (unfold closed_count; simpl; lia).
    destruct (decodeMessage data); [|unfold closed_count; simpl; lia].
    cbn [fst]. rewrite closed_count_dispatching. simpl. lia.
  - rewrite on_error_eq. cbn [fst]. rewrite closed_count_dispatching.
    unfold closed_count. simpl. lia.
  - rewrite on_close_eq. cbn [fst]. by rewrite closed_count_dispatching.
Qed.

Lemma handle_open evt this :
  open (handle evt this).1 = open this && negb (is_terminal evt).
Proof.
  destruct evt as [data| |]; unfold handle.
  - rewrite (proj2 (on_message_never_throws data this)). simpl. by rewrite andb_true_r.
  - rewrite on_error_eq. simpl. by rewrite andb_false_r.
  - rewrite on_close_eq. simpl. by rewrite andb_false_r.
Qed.

Lemma length_filter_terminal evt rest :
  length (filter (λ evt, is_terminal evt) (evt :: rest)) =
  ((if is_terminal evt then 1 else 0) + length (filter (λ evt, is_terminal evt) rest))%nat.
Proof.
  destruct (is_terminal evt) eqn:Hevt.
  - rewrite filter_cons_True; [done | by rewrite Hevt].
  - rewrite filter_cons_False; [done | rewrite Hevt; by intros ?].
Qed.

(** Over any sequence of transport events the listeners never throw,
    the number of "closed" events dispatched grows by the number of error
    and close events in the sequence, one for each, and [this.open] stays
    [true] exactly if it was and the sequence has no error or close
    event. *)
Lemma every_error_and_close_dispatches_closed this evts :
  (handle_all evts this).2 = Return tt ∧
  closed_count (handle_all evts this).1 =
    (closed_count this + length (filter (λ evt, is_terminal evt) evts))%nat ∧
  open (handle_all evts this).1 = open this && forallb (λ evt, negb (is_terminal evt)) evts.
Proof.
  unfold handle_all. revert this.
  induction evts as [|evt rest IH]; intros this.
  - simpl. split_and!; [done|lia|by rewrite andb_true_r].
  - simpl. unfold bind.
    pose proof (handle_returns evt this) as Hret.
    pose proof (handle_closed_count evt this) as Hcount.
    pose proof (handle_open evt this) as Hopen.
    destruct (handle evt this) as [this1 outcome]. simpl in *. subst outcome.
    destruct (IH this1) as (IHret & IHcount & IHopen).
    split_and!; [done| |].
    + rewrite IHcount, Hcount, length_filter_terminal. lia.
    + rewrite IHopen, Hopen. by rewrite andb_assoc.
Qed.

Lemma close_open_until_closed this :
  open_until_closed this → open_until_closed (close this).1.
Proof. unfold close, on_ws. by destruct (WebSocket_close (ws this)). Qed.

Lemma close_closed_count this : closed_count (close this).1 = closed_count this.
Proof. unfold close, on_ws. by destruct (WebSocket_close (ws this)). Qed.

Lemma send_closed_count clock body this :
  closed_count (send clock body this).1 = closed_count this.
Proof.
  unfold closed_count. by rewrite (proj2 (proj2 (send_never_throws clock body this))).
Qed.

Lemma perform_all_spec actions this :
  open_until_closed this →
  open_until_closed (perform_all actions this) ∧
  closed_count (perform_all actions this) =
    (closed_count this + length (filter (λ evt, is_terminal evt) (delivered actions)))%nat.
Proof.
  unfold perform_all. revert this.
  induction actions as [|action rest IH]; intros this Hinv; simpl.
  - split; [done|lia].
  - destruct action as [evt|clock body|]; simpl.
    + destruct (IH _ (handle_open_until_closed evt this Hinv)) as [IHinv ->].
      split; [done|]. rewrite handle_closed_count, length_filter_terminal. lia.
    + destruct (IH _ (send_open_until_closed clock body this Hinv)) as [IHinv ->].
      split; [done|]. by rewrite send_closed_count.
    + destruct (IH _ (close_open_until_closed this Hinv)) as [IHinv ->].
      split; [done|]. by rewrite close_closed_count.
Qed.

(** X6. For a channel that the constructor returned, after any sequence
    of transport events and calls of [send] and [close], [isOpen()]
    returns [true] exactly when no "closed" event has been dispatched, and
    the "closed" events dispatched are as many as the error and close
    events delivered: [close()] itself neither marks the channel closed
    nor dispatches. *)
Theorem constructed_channel_is_open_until_closed url this actions :
  constructor url = Return this →
  isOpen (perform_all actions this) =
    (perform_all actions this,
     Return (bool_decide (closed_count (perform_all actions this) = 0%nat))) ∧
  closed_count (perform_all actions this) =
    length (filter (λ evt, is_terminal evt) (delivered actions)).
Proof.
  unfold constructor. destruct (WebSocket_new url) as [socket|e]; [|done].
  intros [= <-].
  destruct (perform_all_spec actions
              {| ws := socket; open := true; dispatched := []; log := [] |})
    as [Hinv Hcount]; [done|].
  split; [|by rewrite Hcount].
  unfold isOpen, gets. by rewrite Hinv.
Qed.
End Channel.
End ChannelLifeCycle.

(** ** More of the background script *)

Module BroadcastFacts.
Import JS Background BackgroundFacts.

Section Facts.
Context {Session : Type} `{SessionAPI Session}.
Implicit Types st : @State Session.

Ltac run :=
  unfold mbind, mret, M_bind, M_ret, bind, ret, gets, modify, lift, throw, try_catch;
  simpl.

Lemma since_trace st st' l :
  trace st' = trace st ++ l → effects_since st st' = l.
Proof. unfold effects_since. intros ->. by rewrite drop_app_length. Qed.

(** *** Runs are confined *)

Lemma confined_refl st : confined st st.
Proof.
  exists []. rewrite app_nil_r. split_and!; try done.
  - by intros ?? ?%elem_of_nil.
  - by intros ??? ?%elem_of_nil.
  - intros ref ?. by left.
Qed.

Lemma confined_trans st1 st2 st3 :
  confined st1 st2 → confined st2 st3 → confined st1 st3.
Proof.
  intros (l1 & Ht1 & Hu1 & He1 & Hp1 & Hc1 & Hs1 & Hr1)
         (l2 & Ht2 & Hu2 & He2 & Hp2 & Hc2 & Hs2 & Hr2).
  assert (∀ ref, session st2 = Some ref ∨ (length (store st2) ≤ ref)%nat →
                 session st1 = Some ref ∨ (length (store st1) ≤ ref)%nat) as Hmid.
  { intros ref [Hcurrent|Hfresh]; [by apply Hr1|right; lia]. }
  exists (l1 ++ l2). split_and!.
  - by rewrite Ht2, Ht1, app_assoc.
  - by rewrite Hu2.
  - by rewrite He2.
  - intros port message [Hin|Hin]%elem_of_app; [by eapply Hp1|].
    rewrite <- Hu1, <- He1. by eapply Hp2.
  - intros ref method outcome [Hin|Hin]%elem_of_app; [by eapply Hc1|].
    eapply Hmid, Hc2, Hin.
  - lia.
  - intros ref Hcurrent. by apply Hmid, Hr2.
Qed.

Lemma confined_bind {A B} st (m : M State A) (k : A → M State B) :
  confined_from st m →
  (∀ a st1, m st = (st1, Return a) → confined_from st1 (k a)) →
  confined_from st (a ← m; k a).
Proof.
  unfold confined_from, mbind, M_bind, bind. intros Hm Hk.
  destruct (m st) as [st1 [a|e]] eqn:Hrun; [|done].
  eapply confined_trans; [done|]. by apply Hk.
Qed.

Lemma confined_try_catch {A} st (body : M State A) handler :
  confined_from st body →
  (∀ e st1, body st = (st1, Throw e) → confined_from st1 (handler e)) →
  confined_from st (try_catch body handler).
Proof.
  unfold confined_from, try_catch. intros Hbody Hhandler.
  destruct (body st) as [st1 [a|e]] eqn:Hrun; [done|].
  eapply confined_trans; [done|]. by apply Hhandler.
Qed.

(** Effects alone: nothing is posted but to a listening port, nothing is
    called but on the current session. *)
Lemma confined_emitting effects st :
  (∀ port message, Posted port message ∈ effects →
     port ∈ update_listeners st ∨ port ∈ error_listeners st) →
  (∀ ref method outcome, Called ref method outcome ∈ effects → session st = Some ref) →
  confined st (emitting effects st).
Proof.
  intros Hposts Hcalls. exists effects. split_and!; try done.
  - intros ref method outcome Hin. left. by eapply Hcalls.
  - intros ref ?. by left.
Qed.

Lemma confined_logs effects st :
  forallb is_housekeeping effects = true → confined st (emitting effects st).
Proof.
  intros Hlogs. rewrite forallb_forall in Hlogs. apply confined_emitting.
  - intros port message Hin%list_elem_of_In. by apply Hlogs in Hin.
  - intros ref method outcome Hin%list_elem_of_In. by apply Hlogs in Hin.
Qed.

Lemma confined_call ref method body st :
  session st = Some ref → confined_from st (call ref method body).
Proof.
  intros Hcurrent. unfold confined_from. rewrite call_eq.
  destruct (store st !! ref) as [object|]; [|apply confined_refl].
  exists [Called ref method (body object).2]. simpl. split_and!; try done.
  - by intros ?? ?%list_elem_of_singleton.
  - intros r m o [= -> _ _]%list_elem_of_singleton. by left.
  - by rewrite length_insert.
  - intros r ?. by left.
Qed.

Lemma confined_sendError message st : confined_from st (sendError message).
Proof.
  unfold confined_from. rewrite sendError_eq. apply confined_emitting.
  - intros port m Hin.
    do 2 (apply elem_of_cons in Hin as [?|Hin]; [done|]).
    apply list_elem_of_fmap in Hin as (p & [= -> _] & Hp). by right.
  - intros ref method outcome Hin.
    do 2 (apply elem_of_cons in Hin as [?|Hin]; [done|]).
    by apply list_elem_of_fmap in Hin as (p & ? & Hp).
Qed.

Lemma confined_assign_None st : confined_from st (assign None).
Proof.
  exists [Assigned None]. simpl. split_and!; try done.
  - by intros ?? ?%list_elem_of_singleton.
  - by intros ??? ?%list_elem_of_singleton.
Qed.

Lemma confined_attempt ref method body label st :
  session st = Some ref →
  confined_from st
    (try_catch
       (call ref method body)
       (λ e, sendError (label +:+ toString_or e "unknown error");; assign None)).
Proof.
  intros Hcurrent. apply confined_try_catch; [by apply confined_call|].
  intros e st1 _. apply confined_bind; [apply confined_sendError|].
  intros _ st2 _. apply confined_assign_None.
Qed.

Lemma confined_stopSession message st : confined_from st (stopSession message).
Proof.
  unfold confined_from. rewrite stopSession_eq.
  destruct (session st) as [ref|] eqn:Hcurrent; [|apply confined_refl].
  destruct (store st !! ref) as [object|].
  - eexists. simpl. split_and!; try done.
    + intros port m Hin. by do 2 (apply elem_of_cons in Hin as [?|Hin]; [done|]);
        apply elem_of_nil in Hin.
    + intros r m o Hin. apply elem_of_cons in Hin as [?|Hin]; [done|].
      apply list_elem_of_singleton in Hin as [= -> _ _]. by left.
    + by rewrite length_insert.
    + intros r ?. left. congruence.
  - by apply confined_logs.
Qed.

(** The construction of a session, its assignment to [session] and the
    registration of the update listener on it. *)
Lemma construct_eq options st :
  (ref ← new_Session options; assign (Some ref);; addEventListener_update ref) st =
  match Session_new options with
  | Return object =>
      (emitting [Constructed options (Some (length (store st)));
                 Assigned (Some (length (store st)));
                 Called (length (store st)) call_addEventListener_update (Return tt)]
         (with_listening_to
            (if bool_decide (length (store st) ∈ listening_to st) then listening_to st
             else listening_to st ++ [length (store st)])
            (with_session (Some (length (store st)))
               (with_store (store st ++ [object]) st))),
       Return tt)
  | Throw e => (emitting [Constructed options None] st, Throw e)
  end.
Proof.
  unfold mbind at 1. unfold M_bind, bind. rewrite new_Session_eq.
  destruct (Session_new options) as [object|e]; [|done].
  unfold assign, addEventListener_update, emit. run. unfold emitting. simpl.
  by rewrite <- !app_assoc.
Qed.

Lemma confined_construct options st :
  confined_from st (ref ← new_Session options; assign (Some ref);;
                    addEventListener_update ref).
Proof.
  unfold confined_from. rewrite construct_eq.
  destruct (Session_new options) as [object|e].
  - eexists. simpl. split_and!; try done.
    + intros port m Hin. by do 3 (apply elem_of_cons in Hin as [?|Hin]; [done|]);
        apply elem_of_nil in Hin.
    + intros r m o Hin. do 2 (apply elem_of_cons in Hin as [?|Hin]; [done|]).
      apply list_elem_of_singleton in Hin as [= -> _ _]. by right.
    + rewrite length_app. lia.
    + intros r [= <-]. by right.
  - apply confined_emitting.
    + by intros ?? ?%list_elem_of_singleton.
    + by intros ??? ?%list_elem_of_singleton.
Qed.

Lemma confined_startSession options st : confined_from st (startSession options).
Proof.
  unfold startSession.
  apply confined_bind; [by apply confined_logs|]. intros _ st1 _.
  apply confined_bind; [apply confined_stopSession|]. intros _ st2 _.
  apply confined_construct.
Qed.

Lemma getSessionState_eq st : getSessionState st = (st, Return (snapshot st)).
Proof.
  unfold getSessionState, snapshot. run.
  destruct (session st) as [ref|]; [|done]. by destruct (store st !! ref).
Qed.

Lemma snapshot_emitting effects st : snapshot (emitting effects st) = snapshot st.
Proof. done. Qed.

Lemma for_each_postSessionState_eq ports st :
  for_each postSessionState ports st =
  (emitting (map (λ port, Posted port (session_state (snapshot st))) ports) st, Return tt).
Proof.
  revert st. induction ports as [|port rest IH]; intros st.
  - unfold emitting. simpl. rewrite app_nil_r. by destruct st.
  - simpl. unfold postSessionState at 1. unfold postMessage, emit. run.
    rewrite getSessionState_eq. simpl. rewrite IH, snapshot_emitting.
    by rewrite emitting_emitting.
Qed.

Lemma onSessionUpdate_eq st :
  onSessionUpdate st =
  (emitting (Dispatched update_event ::
             map (λ port, Posted port (session_state (snapshot st))) (update_listeners st))
     st, Return tt).
Proof.
  unfold onSessionUpdate, dispatchEvent, emit. run.
  rewrite for_each_postSessionState_eq, snapshot_emitting. simpl.
  by rewrite emitting_emitting.
Qed.

Lemma confined_onSessionUpdate st : confined_from st onSessionUpdate.
Proof.
  unfold confined_from. rewrite onSessionUpdate_eq. apply confined_emitting.
  - intros port m Hin.
    apply elem_of_cons in Hin as [?|Hin]; [done|].
    apply list_elem_of_fmap in Hin as (p & [= -> _] & Hp). by left.
  - intros ref method outcome Hin.
    apply elem_of_cons in Hin as [?|Hin]; [done|].
    by apply list_elem_of_fmap in Hin as (p & ? & Hp).
Qed.

Lemma confined_startSessionFromOptions options st :
  confined_from st (startSessionFromOptions options).
Proof.
  unfold startSessionFromOptions. destruct (_ || _).
  - apply confined_bind; [by apply confined_logs|]. intros _ st1 _.
    apply confined_sendError.
  - apply confined_startSession.
Qed.

Lemma confined_tryEnsureSession options st : confined_from st (tryEnsureSession options).
Proof.
  unfold tryEnsureSession, confined_from. run.
  destruct (session st); [apply confined_refl|apply confined_startSessionFromOptions].
Qed.

Lemma confined_createRoom_resumed init st : confined_from st (createRoom_resumed init).
Proof.
  unfold createRoom_resumed, confined_from. unfold mbind at 1. unfold M_bind, bind, gets.
  destruct (session st) as [ref|] eqn:Hcurrent; [|apply confined_refl].
  by apply confined_attempt.
Qed.

Lemma confined_joinRoom_resumed id password st :
  confined_from st (joinRoom_resumed id password).
Proof.
  unfold joinRoom_resumed, confined_from. unfold mbind at 1. unfold M_bind, bind, gets.
  destruct (session st) as [ref|] eqn:Hcurrent; [|apply confined_refl].
  by apply confined_attempt.
Qed.

Lemma confined_createRoom options init st : confined_from st (createRoom options init).
Proof.
  unfold createRoom. apply confined_bind; [apply confined_tryEnsureSession|].
  intros _ st1 _. apply confined_createRoom_resumed.
Qed.

Lemma confined_joinRoom options id password st :
  confined_from st (joinRoom options id password).
Proof.
  unfold joinRoom. apply confined_bind; [apply confined_tryEnsureSession|].
  intros _ st1 _. apply confined_joinRoom_resumed.
Qed.

Lemma confined_leaveRoom st : confined_from st leaveRoom.
Proof.
  unfold confined_from. rewrite leaveRoom_eq.
  destruct (session st) as [ref|] eqn:Hcurrent; [|apply confined_refl].
  by apply confined_attempt.
Qed.

Lemma confined_void promise st :
  confined_from st promise → confined_from st (void promise).
Proof.
  intros Hpromise. apply confined_try_catch; [done|]. intros _ st1 _. apply confined_refl.
Qed.

Lemma confined_onPortMessage options port rawMsg st :
  confined_from st (onPortMessage options port rawMsg).
Proof.
  unfold onPortMessage. destruct rawMsg as [message|e]; simpl; [|by apply confined_logs].
  apply confined_bind; [by apply confined_logs|]. intros _ st1 _.
  destruct message; try (by apply confined_logs).
  - apply confined_void, confined_createRoom.
  - apply confined_void, confined_joinRoom.
  - apply confined_leaveRoom.
Qed.

Lemma confined_onRuntimeMessage rawMsg st : confined_from st (onRuntimeMessage rawMsg).
Proof.
  unfold onRuntimeMessage. destruct rawMsg as [message|e]; simpl; [|by apply confined_logs].
  apply confined_bind; [by apply confined_logs|]. intros _ st1 _.
  destruct message; by apply confined_logs.
Qed.

Lemma confined_onSessionEvent ref st : confined_from st (onSessionEvent ref).
Proof.
  unfold onSessionEvent, confined_from. run.
  case_bool_decide; [apply confined_onSessionUpdate | apply confined_refl].
Qed.

(** Every input but a connection or a disconnection is handled within
    these bounds. *)
Lemma confined_step input st :
  (∀ port, input ≠ port_connected port) →
  (∀ port, input ≠ port_disconnected port) →
  confined st (step input st).1.
Proof.
  intros Hconnected Hdisconnected.
  destruct input as [port|port|options port rawMsg|rawMsg|ref|options|init|id password];
    simpl.
  - by destruct (Hconnected port).
  - by destruct (Hdisconnected port).
  - apply confined_onPortMessage.
  - apply confined_onRuntimeMessage.
  - apply confined_onSessionEvent.
  - apply confined_void, confined_startSessionFromOptions.
  - apply confined_void, confined_createRoom_resumed.
  - apply confined_void, confined_joinRoom_resumed.
Qed.

Lemma onConnect_eq port st :
  onConnect port st =
  (emitting [Logged debug ("Received port connection: '" +:+ port_name port +:+ "'")]
     (with_listeners (update_listeners st ++ [port]) (error_listeners st ++ [port]) st),
   Return tt).
Proof. reflexivity. Qed.

Lemma onDisconnect_eq port st :
  onDisconnect port st =
  (emitting [Logged debug ("Port '" +:+ port_name port +:+ "' disconnected")]
     (with_listeners (filter (λ p, p ≠ port) (update_listeners st))
                     (filter (λ p, p ≠ port) (error_listeners st)) st),
   Return tt).
Proof. reflexivity. Qed.
End Facts.
End BroadcastFacts.

Module BroadcastTheorems.
Import JS Background BackgroundFacts BroadcastFacts.

Section Theorems.
Context {Session : Type} `{SessionAPI Session}.
Implicit Types st : @State Session.


Lemma void_returns (promise : M State unit) st : (void promise st).2 = Return tt.
Proof. unfold void, try_catch. by destruct (promise st) as [st' [[]|e]]. Qed.

Lemma attempt_returns ref method body label st :
  (try_catch
     (call ref method body)
     (λ e, sendError (label +:+ toString_or e "unknown error");; assign None) st).2
  = Return tt.
Proof.
  rewrite attempt_eq. destruct (store st !! ref) as [object|]; [|done].
  by destruct (body object) as [object' [[]|e]].
Qed.

(** X8. No listener of the script lets an exception of the session
    escape: whatever the constructor and the methods of [Session] throw,
    the handling of every input returns normally. *)
Theorem listeners_never_throw input st : (step input st).2 = Return tt.
Proof.
  destruct input as [port|port|options port rawMsg|rawMsg|ref|options|init|id password];
    simpl; try done; try apply void_returns.
  - unfold onPortMessage. destruct rawMsg as [message|e]; simpl; [|done].
    unfold emit. unfold mbind, M_bind, bind, modify. simpl.
    destruct message; try done; try apply void_returns.
    rewrite leaveRoom_eq. simpl. destruct (session st); [apply attempt_returns|done].
  - unfold onRuntimeMessage. destruct rawMsg as [message|e]; simpl; [|done].
    by destruct message.
  - unfold onSessionEvent. unfold mbind, M_bind, bind, gets. simpl.
    case_bool_decide; [|done]. by rewrite onSessionUpdate_eq.
Qed.

(** One more input keeps a port that is not listening unposted. *)
Lemma step_not_posted port input st :
  port ∉ update_listeners st → port ∉ error_listeners st →
  input ≠ port_connected port →
  ∃ effects,
    trace (step input st).1 = trace st ++ effects ∧
    (∀ message, Posted port message ∉ effects) ∧
    (port ∉ update_listeners (step input st).1) ∧
    (port ∉ error_listeners (step input st).1).
Proof.
  intros Hupdate Herror Hinput.
  assert (∀ other, other ≠ port → port ∉ [other]) as Hother.
  { intros other Hne ?%list_elem_of_singleton. congruence. }
  destruct input as [other|other|options p rawMsg|rawMsg|ref|options|init|id password].
  1:{ unfold step. rewrite onConnect_eq. eexists. split; [reflexivity|]. simpl.
      assert (other ≠ port) by congruence.
      split_and!.
      - by intros message ?%list_elem_of_singleton.
      - intros [?|?%list_elem_of_singleton]%elem_of_app; [done|congruence].
      - intros [?|?%list_elem_of_singleton]%elem_of_app; [done|congruence]. }
  1:{ unfold step. rewrite onDisconnect_eq. eexists. split; [reflexivity|]. simpl.
      split_and!.
      - by intros message ?%list_elem_of_singleton.
      - by intros [_ ?]%list_elem_of_filter.
      - by intros [_ ?]%list_elem_of_filter. }
  all: match goal with |- context [step ?input ?s] =>
         destruct (confined_step input s ltac:(done) ltac:(done))
           as (effects & Htrace & Hu & He & Hposts & _) end.
  all: exists effects; rewrite Hu, He; split_and!; try done.
  all: intros message Hin; by destruct (Hposts _ _ Hin).
Qed.

Lemma run_not_posted port inputs st :
  port ∉ update_listeners st → port ∉ error_listeners st →
  port_connected port ∉ inputs →
  ∀ message, Posted port message ∉ effects_since st (run inputs st).1.
Proof.
  intros Hupdate Herror Hinputs message.
  cut (∃ effects, trace (run inputs st).1 = trace st ++ effects ∧
                  ∀ message, Posted port message ∉ effects).
  { intros (effects & Htrace & Hposts). by rewrite (since_trace _ _ _ Htrace). }
  clear message. unfold run. revert st Hupdate Herror.
  induction inputs as [|input rest IH]; intros st Hupdate Herror.
  - exists []. simpl. rewrite app_nil_r. split; [done|]. by intros ? ?%elem_of_nil.
  - apply not_elem_of_cons in Hinputs as [Hinput Hrest].
    destruct (step_not_posted port input st Hupdate Herror)
      as (l1 & Htrace1 & Hposts1 & Hupdate1 & Herror1); [done|].
    simpl. unfold bind.
    destruct (step input st) as [st1 [[]|e]]; simpl in *.
    + destruct (IH Hrest st1 Hupdate1 Herror1) as (l2 & Htrace2 & Hposts2).
      exists (l1 ++ l2). split; [by rewrite Htrace2, Htrace1, app_assoc|].
      intros message [?|?]%elem_of_app; [by eapply Hposts1 | by eapply Hposts2].
    + by exists l1.
Qed.

(** X9. Once a port has disconnected, nothing is posted to it any more,
    whatever the script handles afterwards, as long as the port does not
    connect again. *)
Theorem disconnected_port_is_not_posted_to port inputs st :
  port_connected port ∉ inputs →
  ∀ message,
    Posted port message ∉
      effects_since (step (port_disconnected port) st).1
        (run inputs (step (port_disconnected port) st).1).1.
Proof.
  intros Hinputs. apply run_not_posted; [| |done].
  - simpl. by intros [? _]%list_elem_of_filter.
  - simpl. by intros [? _]%list_elem_of_filter.
Qed.

Lemma filter_others (port : Port) (ports : list Port) :
  port ∉ ports → filter (λ p, p ≠ port) ports = ports.
Proof.
  induction ports as [|p rest IH]; [done|].
  intros [Hne Hrest]%not_elem_of_cons.
  rewrite filter_cons_True by done. by rewrite IH.
Qed.

(** One more input leaves a session that is not current uncalled. *)
Lemma step_not_called ref input st :
  (ref < length (store st))%nat → session st ≠ Some ref →
  ∃ effects,
    trace (step input st).1 = trace st ++ effects ∧
    (∀ method outcome, Called ref method outcome ∉ effects) ∧
    (ref < length (store (step input st).1))%nat ∧
    session (step input st).1 ≠ Some ref.
Proof.
  intros Hstored Hcurrent.
  destruct input as [other|other|options p rawMsg|rawMsg|r|options|init|id password].
  1:{ unfold step. rewrite onConnect_eq. eexists. split; [reflexivity|]. simpl.
      split_and!; try done. by intros method outcome ?%list_elem_of_singleton. }
  1:{ unfold step. rewrite onDisconnect_eq. eexists. split; [reflexivity|]. simpl.
      split_and!; try done. by intros method outcome ?%list_elem_of_singleton. }
  all: match goal with |- context [step ?input ?s] =>
         destruct (confined_step input s ltac:(done) ltac:(done))
           as (effects & Htrace & _ & _ & _ & Hcalls & Hstore & Hsession) end.
  all: exists effects; split_and!; [done| |lia|].
  all: try (intros method outcome Hin; destruct (Hcalls _ _ _ Hin); [done|lia]).
  all: intros Hnow; destruct (Hsession _ Hnow); [done|lia].
Qed.

(** X10. The script calls no method on a session that is not the current
    one: once a session has been superseded, or dropped after a failed
    operation, neither [close] nor a room operation is ever called on it,
    whatever the script handles afterwards.  (A superseded session is thus
    closed once; a dropped one is never closed.) *)
Theorem session_that_is_not_current_is_never_called ref inputs st :
  (ref < length (store st))%nat →
  session st ≠ Some ref →
  ∀ method outcome,
    Called ref method outcome ∉ effects_since st (run inputs st).1.
Proof.
  intros Hstored Hcurrent method outcome.
  cut (∃ effects, trace (run inputs st).1 = trace st ++ effects ∧
                  ∀ method outcome, Called ref method outcome ∉ effects).
  { intros (effects & Htrace & Hcalls). by rewrite (since_trace _ _ _ Htrace). }
  clear method outcome. unfold run. revert st Hstored Hcurrent.
  induction inputs as [|input rest IH]; intros st Hstored Hcurrent.
  - exists []. simpl. rewrite app_nil_r. split; [done|]. by intros ?? ?%elem_of_nil.
  - destruct (step_not_called ref input st Hstored Hcurrent)
      as (l1 & Htrace1 & Hcalls1 & Hstored1 & Hcurrent1).
    simpl. unfold bind.
    destruct (step input st) as [st1 [[]|e]]; simpl in *.
    + destruct (IH st1 Hstored1 Hcurrent1) as (l2 & Htrace2 & Hcalls2).
      exists (l1 ++ l2). split; [by rewrite Htrace2, Htrace1, app_assoc|].
      intros method outcome [?|?]%elem_of_app; [by eapply Hcalls1 | by eapply Hcalls2].
    + by exists l1.
Qed.

(** X11. A port that connects is told of every error from then on: an
    error raised right after is logged, dispatched once and posted as
    [session_error] to the ports that were connected, in order, and then
    to the new port.  A port that connects and disconnects leaves the
    listeners as they were. *)
Theorem port_listens_while_connected port detail st :
  effects_since (onConnect port st).1 (sendError detail (onConnect port st).1).1 =
    [Logged error ("Session error: " +:+ detail); Dispatched (error_event detail)] ++
    map (λ p, Posted p (session_error detail)) (error_listeners st ++ [port])
  ∧ (port ∉ update_listeners st → port ∉ error_listeners st →
     update_listeners (run [port_connected port; port_disconnected port] st).1
       = update_listeners st ∧
     error_listeners (run [port_connected port; port_disconnected port] st).1
       = error_listeners st).
Proof.
  split.
  - rewrite sendError_eq. cbn [fst]. by rewrite effects_since_emitting.
  - intros Hupdate Herror. simpl.
    rewrite !filter_app, !filter_cons_False, !filter_nil, !app_nil_r by (by intros ?).
    by rewrite !filter_others.
Qed.

(** X12. The listener of [browser.runtime.onMessage] only logs and
    invalidates the cached options: whatever the message, it returns
    normally and leaves the current session, the sessions and the
    listeners as they are, and the cached options are invalidated exactly
    when the message is a well-formed [options_changed].  A change of the
    options neither stops nor restarts a running session. *)
Theorem runtime_message_leaves_the_session_alone rawMsg st :
  ∃ st',
    onRuntimeMessage rawMsg st = (st', Return tt) ∧
    session st' = session st ∧
    store st' = store st ∧
    update_listeners st' = update_listeners st ∧
    error_listeners st' = error_listeners st ∧
    forallb is_housekeeping (effects_since st st') = true ∧
    (OptionsInvalidated ∈ effects_since st st' ↔ rawMsg = well_formed options_changed).
Proof.
  unfold onRuntimeMessage. destruct rawMsg as [message|e]; simpl.
  - unfold emit, logger, emit. unfold mbind, M_bind, bind, modify. simpl.
    destruct message; eexists; (split; [reflexivity|]);
      rewrite emitting_emitting, effects_since_emitting; split_and!; try done;
      try (split; [|done]; intros Hin;
           repeat (apply elem_of_cons in Hin as [?|Hin]; [done|]);
           by apply elem_of_nil in Hin).
    split; [done|]. intros _. right; left.
  - eexists. split; [reflexivity|].
    unfold logger, emit, modify. simpl. rewrite effects_since_emitting.
    split_and!; try done. split; [|done].
    by intros ?%list_elem_of_singleton.
Qed.

(** X13. When no session is current, the options are complete and the
    constructor of [Session] throws, a create-room or join-room intent is
    dropped without a word: the constructor is called once, no error event
    is dispatched, nothing is posted to any port, no session becomes
    current, and the listener returns normally. *)
Theorem constructor_failure_is_not_reported options port st e :
  session st = None →
  incomplete options = false →
  Session_new {| username := default "" (options_username options);
                 url := default "" (options_serverUrl options);
                 apiKey := options_apiKey options |} = Throw e →
  ∀ message,
    (∃ name password, message = create_room name password) ∨
    (∃ id password, message = join_room id password) →
    ∃ st',
      onPortMessage options port (well_formed message) st = (st', Return tt) ∧
      session st' = None ∧
      store st' = store st ∧
      effects_since st st' =
        [LoggedMessage debug ("Received message from port '" +:+ port_name port +:+ "': ")
           message;
         Logged info "Starting new session";
         Constructed {| username := default "" (options_username options);
                        url := default "" (options_serverUrl options);
                        apiKey := options_apiKey options |} None].
Proof.
  intros Hsession Hoptions Hnew message Hmessage.
  assert (∀ method body label st0,
            session st0 = None →
            void (ensured_operation options method body label) st0 =
            (emitting [Logged info "Starting new session";
                       Constructed {| username := default "" (options_username options);
                                      url := default "" (options_serverUrl options);
                                      apiKey := options_apiKey options |} None] st0,
             Return tt)) as Hvoid.
  { intros method body label st0 Hst0. unfold void, try_catch.
    rewrite ensured_operation_eq, Hst0.
    rewrite startSessionFromOptions_complete, startSession_fresh by done.
    by rewrite Hnew. }
  unfold onPortMessage. simpl. unfold emit. unfold mbind, M_bind, bind, modify. simpl.
  destruct Hmessage as [(name & password & ->)|(id & password & ->)].
  - rewrite createRoom_ensured, Hvoid by done. eexists. split; [reflexivity|].
    rewrite emitting_emitting, effects_since_emitting. by split_and!.
  - rewrite joinRoom_ensured, Hvoid by done. eexists. split; [reflexivity|].
    rewrite emitting_emitting, effects_since_emitting. by split_and!.
Qed.

Lemma attempt_effects ref method body label st object :
  store st !! ref = Some object →
  ∃ effects,
    effects_since st
      (try_catch
         (call ref method body)
         (λ e, sendError (label +:+ toString_or e "unknown error");; assign None) st).1
      = Called ref method (body object).2 :: effects ∧
    (∀ options new, Constructed options new ∉ effects) ∧
    (∀ target called outcome, Called target called outcome ∉ effects).
Proof.
  intros Hobject. rewrite attempt_eq, Hobject.
  destruct (body object) as [object' [[]|e]]; cbn [fst snd].
  - exists []. split_and!; [by apply since_trace|by intros ?? ?%elem_of_nil|].
    by intros ??? ?%elem_of_nil.
  - eexists. split; [apply since_trace; simpl; reflexivity|].
    split.
    + intros options new Hin.
      do 2 (apply elem_of_cons in Hin as [?|Hin]; [done|]).
      apply elem_of_app in Hin as [Hin|Hin%list_elem_of_singleton]; [|done].
      by apply list_elem_of_fmap in Hin as (? & ? & ?).
    + intros target called outcome Hin.
      do 2 (apply elem_of_cons in Hin as [?|Hin]; [done|]).
      apply elem_of_app in Hin as [Hin|Hin%list_elem_of_singleton]; [|done].
      by apply list_elem_of_fmap in Hin as (? & ? & ?).
Qed.

(** X14. While a session is current, [createRoom] and [joinRoom] go
    straight to it, whatever the options are: the first effect is the call
    of the operation on the current session, with the arguments given; no
    session is constructed and no other method is called. *)
Theorem current_session_is_reused options st ref object :
  session st = Some ref →
  store st !! ref = Some object →
  (∀ init, ∃ effects,
     effects_since st (createRoom options init st).1 =
       Called ref (call_createRoom init) (Session_createRoom init object).2 :: effects ∧
     (∀ options new, Constructed options new ∉ effects) ∧
     (∀ target called outcome, Called target called outcome ∉ effects))
  ∧ (∀ id password, ∃ effects,
       effects_since st (joinRoom options id password st).1 =
         Called ref (call_joinRoom id password) (Session_joinRoom id password object).2
         :: effects ∧
       (∀ options new, Constructed options new ∉ effects) ∧
       (∀ target called outcome, Called target called outcome ∉ effects)).
Proof.
  intros Hsession Hobject. split.
  - intros init. rewrite createRoom_ensured, ensured_operation_eq, Hsession.
    by apply attempt_effects.
  - intros id password. rewrite joinRoom_ensured, ensured_operation_eq, Hsession.
    by apply attempt_effects.
Qed.

(** X15. When [startSession] runs while a session is current and the
    constructor throws, the exception propagates after [close] has been
    called on the current session, and [session] still refers to that
    closed session. *)
Theorem failed_restart_leaves_closed_session_current options st old object e :
  session st = Some old →
  store st !! old = Some object →
  (Session_close "Superseded by another session" object).2 = Return tt →
  Session_new options = Throw e →
  ∃ st',
    startSession options st = (st', Throw e) ∧
    session st' = Some old ∧
    store st' !! old = Some (Session_close "Superseded by another session" object).1 ∧
    effects_since st st' =
      [Logged info "Starting new session";
       Logged info "Stopping current session: Superseded by another session";
       Called old (call_close "Superseded by another session") (Return tt);
       Constructed options None].
Proof.
  intros Hsession Hobject Hclose Hnew.
  unfold startSession, logger, emit.
  unfold mbind, mret, M_bind, M_ret, bind, ret, gets, modify. simpl.
  rewrite stopSession_eq. simpl. rewrite Hsession, Hobject, Hclose.
  rewrite new_Session_eq, Hnew. simpl.
  eexists. split; [reflexivity|]. split_and!; try done.
  - simpl. apply list_lookup_insert_eq. by apply lookup_lt_Some in Hobject.
  - apply since_trace. simpl. by rewrite <- !app_assoc.
Qed.
End Theorems.
End BroadcastTheorems.

(** ** The page utilities *)

Module UtilsTheorems.
Import JS Utils.

Section initComponent.
Context {S : Type}.
Variable matches : Node → string → bool.
Variable logger_error : string → M S unit.
Variable query : string.
Variable runtimeType : string.
Variable handler : Node → M S unit.

(** X16. The observer callback of [initComponent], called without a
    [cleanup] function, handles the nodes added by the first mutation
    record of a batch and returns: the records after the first are never
    looked at.  Called with a [cleanup] function it goes on to the removed
    nodes of the record and then to the remaining records. *)
Theorem records_after_the_first_are_dropped record rest st :
  observer matches logger_error query runtimeType handler None (record :: rest) st =
  for_each (changed_node matches logger_error query runtimeType handler)
    (addedNodes record) st
  ∧ ∀ cleanup,
      observer matches logger_error query runtimeType handler (Some cleanup)
        (record :: rest) st =
      (for_each (changed_node matches logger_error query runtimeType handler)
         (addedNodes record);;
       for_each (changed_node matches logger_error query runtimeType cleanup)
         (removedNodes record);;
       observer matches logger_error query runtimeType handler (Some cleanup) rest) st.
Proof.
  split; [|done]. simpl. unfold mbind, M_bind, bind, mret, M_ret, ret.
  by destruct (for_each _ _ st) as [st1 [[]|e]].
Qed.
End initComponent.

Section initForm.
Variable JSON_stringify : FormFieldValue → string.
Variable sanitize : string → string → string.
Variable mode : option FormMode.
Variable elements : list nat.
Variable submitElements : list nat.

Ltac run :=
  unfold mbind, mret, M_bind, M_ret, bind, ret, gets, modify, lift, throw, try_catch;
  simpl.

(** *** The submit buttons *)

Lemma computeCanSubmit_state st : (computeCanSubmit mode st).1 = st.
Proof.
  unfold computeCanSubmit. run. destruct (negb _); [done|].
  destruct mode as [[]|]; try done. by destruct (negb _).
Qed.

Lemma computeCanSubmit_returns st : ∃ b, computeCanSubmit mode st = (st, Return b).
Proof.
  unfold computeCanSubmit. run. destruct (negb _); [eauto|].
  destruct mode as [[]|]; eauto. destruct (negb _); eauto.
Qed.

(** X17. [setSubmitButtonState] never changes anything: an element is
    written only if it is both an [HTMLButtonElement] and an
    [HTMLInputElement], so as long as no submit element is both, the
    [disabled] state of every submit element stays as it is, whatever the
    validation state says. *)
Theorem setSubmitButtonState_changes_nothing st :
  (∀ ref node, ref ∈ submitElements → dom st !! ref = Some node →
     ¬ (instanceof node "HTMLButtonElement" = true ∧
        instanceof node "HTMLInputElement" = true)) →
  setSubmitButtonState mode submitElements st = (st, Return tt).
Proof.
  intros Hdisjoint. unfold setSubmitButtonState.
  destruct (computeCanSubmit_returns st) as [canSubmit HcanSubmit].
  unfold mbind at 1. unfold M_bind, bind. rewrite HcanSubmit.
  induction submitElements as [|ref rest IH]; [done|].
  simpl. run.
  destruct (dom st !! ref) as [node|] eqn:Hnode.
  - destruct (instanceof node "HTMLButtonElement") eqn:Hbutton;
      destruct (instanceof node "HTMLInputElement") eqn:Hinput; simpl;
      try (apply IH; intros r n Hr; apply Hdisjoint; by right).
    destruct (Hdisjoint ref node); [left|done|done].
  - apply IH. intros r n Hr. apply Hdisjoint. by right.
Qed.

(** X18. [computeCanSubmit] changes nothing and returns [true] exactly
    when every field recorded in the validation state is valid and, in
    edit mode, at least one of them is changed (so never in edit mode
    while nothing is recorded). *)
Theorem computeCanSubmit_spec st :
  ∃ canSubmit,
    computeCanSubmit mode st = (st, Return canSubmit) ∧
    (canSubmit = true ↔
       (∀ field state, validationState st !! field = Some state → valid state = true) ∧
       (mode = Some EDIT →
        ∃ field state, validationState st !! field = Some state ∧ changed state = true)).
Proof.
  assert (forallb valid (map_to_list (validationState st)).*2 = true ↔
          ∀ field state, validationState st !! field = Some state → valid state = true)
    as Hvalid.
  { rewrite forallb_forall. split.
    - intros Hall field state Hfield. apply Hall, list_elem_of_In, list_elem_of_fmap.
      exists (field, state). split; [done|]. by apply elem_of_map_to_list.
    - intros Hall state [[field ?] [-> Hin]]%list_elem_of_In%list_elem_of_fmap.
      apply elem_of_map_to_list in Hin. by eapply Hall. }
  assert (existsb changed (map_to_list (validationState st)).*2 = true ↔
          ∃ field state, validationState st !! field = Some state ∧ changed state = true)
    as Hchanged.
  { rewrite existsb_exists. split.
    - intros (state & [[field ?] [-> Hin]]%list_elem_of_In%list_elem_of_fmap & Hstate).
      apply elem_of_map_to_list in Hin. eauto.
    - intros (field & state & Hfield & Hstate). exists state. split; [|done].
      apply list_elem_of_In, list_elem_of_fmap.
      exists (field, state). split; [done|]. by apply elem_of_map_to_list. }
  unfold computeCanSubmit. run.
  destruct (forallb valid _) eqn:HisValid; simpl.
  - destruct mode as [[]|] eqn:Hmode.
    + eexists. split; [reflexivity|]. split; [|done]. intros _. by split; [apply Hvalid|].
    + destruct (existsb changed _) eqn:HisChanged; simpl.
      * eexists. split; [reflexivity|]. split; [|done].
        intros _. split; [by apply Hvalid|]. intros _. by apply Hchanged.
      * eexists. split; [reflexivity|]. split; [done|].
        intros [_ Hsome]. apply Hchanged in Hsome; [|done]. congruence.
    + eexists. split; [reflexivity|]. split; [|done]. intros _. by split; [apply Hvalid|].
  - eexists. split; [reflexivity|]. split; [done|].
    intros [Hall _]. apply Hvalid in Hall. congruence.
Qed.

(** *** [set] *)

Lemma named_controls_singleton nodes fieldName ref node :
  named_controls elements nodes fieldName = [ref] →
  nodes !! ref = Some node →
  is_named fieldName node = true.
Proof.
  intros Hnamed Hnode.
  assert (ref ∈ named_controls elements nodes fieldName) as Hin
    by (rewrite Hnamed; left).
  apply list_elem_of_filter in Hin as [Hin _]. unfold answers_to in Hin.
  rewrite Hnode in Hin. by apply Is_true_true.
Qed.

#[local] Arguments named_controls : simpl never.
#[local] Arguments instanceof : simpl never.
#[local] Arguments dispatchEvent : simpl never.

Lemma dispatchEvent_dom on_change ref st :
  keeps_dom on_change → dom (dispatchEvent on_change ref st).1 = dom st.
Proof.
  intros Hkeeps. unfold dispatchEvent. run.
  pose proof (Hkeeps ref (dispatching ref st)) as Hdom.
  by destruct (on_change ref (dispatching ref st)) as [st1 [[]|e]].
Qed.

Lemma set_field_spec on_change field st :
  keeps_dom on_change →
  length (dom (set_field JSON_stringify sanitize on_change elements field st).1)
    = length (dom st) ∧
  ∀ ref node node',
    dom st !! ref = Some node →
    dom (set_field JSON_stringify sanitize on_change elements field st).1 !! ref
      = Some node' →
    node' = node ∨ written sanitize field node node'.
Proof.
  intros Hkeeps.
  destruct field as [fieldName entry].
  remember (set_field JSON_stringify sanitize on_change elements (fieldName, entry) st)
    as result eqn:Hresult.
  assert (dom result.1 = dom st →
          length (dom result.1) = length (dom st) ∧
          ∀ ref node node', dom st !! ref = Some node → dom result.1 !! ref = Some node' →
            node' = node ∨ written sanitize (fieldName, entry) node node') as Hsame.
  { intros ->. split; [done|]. intros ref node node' ? ?. left. congruence. }
  unfold set_field, namedItem, logger_error, update in Hresult.
  unfold mbind, mret, M_bind, M_ret, bind, ret, gets, modify, lift in Hresult.
  destruct entry as [[v|[[v|]|e]]|]; simpl in Hresult;
    try (by apply Hsame; subst result).
  all: case_bool_decide as Hempty; [by apply Hsame; subst result|].
  all: destruct (named_controls elements (dom st) fieldName) as [|ref [|]] eqn:Hnamed;
    try (by apply Hsame; subst result).
  all: destruct (dom st !! ref) as [input|] eqn:Hinput;
    [|by apply Hsame; subst result].
  all: pose proof (named_controls_singleton _ _ _ _ Hnamed Hinput) as His_named.
  all: destruct (instanceof input "HTMLInputElement") eqn:Hinstance;
    simpl in Hresult; [|by apply Hsame; subst result].
  all: case_bool_decide as Htype; destruct v as [[text|filename]|b|];
    try (by apply Hsame; subst result).
  all: subst result; rewrite dispatchEvent_dom by done; simpl.
  all: rewrite length_alter; split; [done|].
  all: intros r node node' Hnode.
  all: rewrite list_lookup_alter; case_decide as Hr; [|intros; left; congruence].
  all: subst r; rewrite Hnode; simpl; intros [= <-].
  all: rewrite Hinput in Hnode; injection Hnode as <-.
  all: right; split_and!; [done|done|eauto 10].
Qed.

Lemma written_static field node node' :
  written sanitize field node node' →
  interfaces node' = interfaces node ∧ id node' = id node ∧ name node' = name node ∧
  type node' = type node ∧ disabled node' = disabled node.
Proof.
  intros (_ & _ & [[_ (b & _ & ->)]|[_ (text & _ & ->)]]); by split_and!.
Qed.

(** X19. [set] writes only what fits.  As long as the listeners of the
    "change" events it dispatches leave the nodes as they are, then
    whatever values it is given and whether or not it throws, it adds and
    removes no node and leaves the interfaces, id, name, type and
    [disabled] of every node as they are; [checked] changes only on a
    checkbox input that one of the given fields names, to a boolean that
    field holds; [value] changes only on an input that is no checkbox and
    that one of the given fields names, to the (sanitized) string that
    field holds. *)
Theorem set_writes_only_what_fits on_change values st :
  keeps_dom on_change →
  length (dom (set JSON_stringify sanitize on_change elements values st).1)
    = length (dom st) ∧
  ∀ ref node node',
    dom st !! ref = Some node →
    dom (set JSON_stringify sanitize on_change elements values st).1 !! ref
      = Some node' →
    interfaces node' = interfaces node ∧ id node' = id node ∧ name node' = name node ∧
    type node' = type node ∧ disabled node' = disabled node ∧
    (checked node' ≠ checked node →
       instanceof node "HTMLInputElement" = true ∧ type node = "checkbox" ∧
       ∃ field, field ∈ values ∧ is_named field.1 node = true ∧
                resolved field.2 = Some (FBoolean (checked node'))) ∧
    (value node' ≠ value node →
       instanceof node "HTMLInputElement" = true ∧ type node ≠ "checkbox" ∧
       ∃ field text, field ∈ values ∧ is_named field.1 node = true ∧
                     resolved field.2 = Some (FEntry (EntryString text)) ∧
                     value node' = sanitize (type node) text).
Proof.
  intros Hkeeps.
  unfold set. revert st. induction values as [|field rest IH]; intros st.
  { simpl. split; [done|]. intros ref node node' Hnode. rewrite Hnode. intros [= <-].
    by split_and!. }
  destruct (set_field_spec on_change field st Hkeeps) as [Hlength1 Hnodes1].
  simpl. unfold bind.
  destruct (set_field JSON_stringify sanitize on_change elements field st)
    as [st1 [[]|e]];
    simpl in Hlength1, Hnodes1.
  - destruct (IH st1) as [Hlength Hnodes]. split; [congruence|].
    intros ref node node' Hnode Hnode'.
    destruct (lookup_lt_is_Some_2 (dom st1) ref) as [node1 Hnode1].
    { rewrite Hlength1. by eapply lookup_lt_Some. }
    destruct (Hnodes ref node1 node' Hnode1 Hnode')
      as (Hi & Hid & Hname & Htype & Hdisabled & Hchecked & Hvalue).
    destruct (Hnodes1 ref node node1 Hnode Hnode1) as [->|Hwritten].
    + split_and!; try done.
      * intros Hne. destruct (Hchecked Hne) as (? & ? & f & ? & ? & ?).
        split_and!; try done. exists f. split_and!; try done. by right.
      * intros Hne. destruct (Hvalue Hne) as (? & ? & f & text & ? & ? & ? & ?).
        split_and!; try done. exists f, text. split_and!; try done. by right.
    + destruct (written_static _ _ _ Hwritten) as (Hi1 & Hid1 & Hname1 & Htype1 & Hdisabled1).
      assert (instanceof node1 "HTMLInputElement" = instanceof node "HTMLInputElement")
        as Hinstance by (unfold instanceof; by rewrite Hi1).
      assert (∀ fieldName, is_named fieldName node1 = is_named fieldName node) as Hnamed
        by (intros fieldName; unfold is_named; by rewrite Hid1, Hname1).
      split_and!; try congruence.
      * intros Hne. destruct (decide (checked node' = checked node1)) as [Heq|Hne1].
        -- destruct Hwritten as (? & ? & [[? (b & ? & ->)]|[? (text & ? & ->)]]).
           ++ split_and!; try done. exists field. split_and!; [left|done|].
              simpl in Heq. congruence.
           ++ simpl in Heq. congruence.
        -- destruct (Hchecked Hne1) as (? & ? & f & ? & ? & ?).
           split_and!; try congruence. exists f. split_and!; try done; [by right|].
           by rewrite <- Hnamed.
      * intros Hne. destruct (decide (value node' = value node1)) as [Heq|Hne1].
        -- destruct Hwritten as (? & ? & [[? (b & ? & ->)]|[? (text & ? & ->)]]).
           ++ simpl in Heq. congruence.
           ++ split_and!; try done. exists field, text. split_and!; [left|done|done|].
              simpl in Heq. congruence.
        -- destruct (Hvalue Hne1) as (? & ? & f & text & ? & ? & ? & ?).
           split_and!; try congruence. exists f, text.
           split_and!; try done; [by right|by rewrite <- Hnamed|congruence].
  - split; [done|]. intros ref node node' Hnode Hnode'.
    destruct (Hnodes1 ref node node' Hnode Hnode') as [->|Hwritten]; [by split_and!|].
    destruct (written_static _ _ _ Hwritten) as (? & ? & ? & ? & ?).
    split_and!; try done.
    + intros Hne. destruct Hwritten as (? & ? & [[? (b & ? & ->)]|[? (text & ? & ->)]]);
        [|done].
      split_and!; try done. exists field. split_and!; [left|done|done].
    + intros Hne. destruct Hwritten as (? & ? & [[? (b & ? & ->)]|[? (text & ? & ->)]]);
        [done|].
      split_and!; try done. exists field, text. split_and!; [left|done|done|done].
Qed.
End initForm.
End UtilsTheorems.

(** ** The pages *)

Module PagesTheorems.
Import JS Utils.

Lemma length_empty (s : string) : String.length s = 0%nat ↔ s = "".
Proof. destruct s; split; done. Qed.

Lemma validateUsername_accepts value :
  default "" (OptionsPage.validateUsername (Some (EntryString value))) = "" ↔
  (3 ≤ String.length value ≤ 100)%nat.
Proof.
  unfold OptionsPage.validateUsername. case_bool_decide as Hempty.
  { subst. simpl. split; [done|lia]. }
  assert (String.length value ≠ 0%nat) by by rewrite length_empty.
  destruct (String.length value <? 3)%nat eqn:Hshort.
  { apply Nat.ltb_lt in Hshort. simpl. split; [done|lia]. }
  apply Nat.ltb_ge in Hshort.
  destruct (100 <? String.length value)%nat eqn:Hlong.
  { apply Nat.ltb_lt in Hlong. simpl. split; [done|lia]. }
  apply Nat.ltb_ge in Hlong. simpl. split; [lia|done].
Qed.

Lemma validateServerUrl_accepts URL_protocol value :
  default "" (OptionsPage.validateServerUrl URL_protocol (Some (EntryString value))) = "" ↔
  URL_protocol value = Some "ws:" ∨ URL_protocol value = Some "wss:".
Proof.
  unfold OptionsPage.validateServerUrl.
  destruct (URL_protocol value) as [protocol|]; simpl.
  - case_bool_decide as Hprotocol; simpl.
    + split; [intros _|done].
      apply elem_of_cons in Hprotocol as [->|Hprotocol]; [by left|].
      apply list_elem_of_singleton in Hprotocol as ->. by right.
    + split; [done|]. intros [[= ->]|[= ->]]; destruct Hprotocol.
      * left.
      * right; left.
  - split; [done|]. by intros [|].
Qed.

(** X20. What the validators of the options page and of the popup accept
    for a text value, that is when the message they return is empty or
    absent ([validator(input.value) ?? ""] is the empty string): a
    username of 3 to 100 characters; a server URL that parses and has the
    protocol "ws:" or "wss:"; a non-empty API key; a non-empty room name;
    a room password of at least 5 characters. *)
Theorem validators_accept URL_protocol value :
  (default "" (OptionsPage.validateUsername (Some (EntryString value))) = "" ↔
     (3 ≤ String.length value ≤ 100)%nat) ∧
  (default "" (OptionsPage.validateServerUrl URL_protocol (Some (EntryString value))) = "" ↔
     URL_protocol value = Some "ws:" ∨ URL_protocol value = Some "wss:") ∧
  (default "" (OptionsPage.validateApiKey (Some (EntryString value))) = "" ↔ value ≠ "") ∧
  (default "" (Popup.validateRoomName (Some (EntryString value))) = "" ↔ value ≠ "") ∧
  (default "" (Popup.validateRoomPassword (Some (EntryString value))) = "" ↔
     (5 ≤ String.length value)%nat).
Proof.
  split_and!.
  - apply validateUsername_accepts.
  - apply validateServerUrl_accepts.
  - unfold OptionsPage.validateApiKey. by case_bool_decide.
  - unfold Popup.validateRoomName. by case_bool_decide.
  - unfold Popup.validateRoomPassword. case_bool_decide as Hempty.
    { subst. simpl. split; [done|lia]. }
    destruct (String.length value <? 5)%nat eqn:Hshort; simpl.
    + apply Nat.ltb_lt in Hshort. split; [done|lia].
    + apply Nat.ltb_ge in Hshort. split; [lia|done].
Qed.

(** X21. Provided the empty string does not parse as a URL: when the
    username and the server URL that a form submits pass the validators of
    the options page, what [onSubmit] hands to [setOptions] is a username
    of 3 to 100 characters and a server URL with the protocol "ws:" or
    "wss:", both text; and a settings record that holds the two is
    complete for the background script, which will start a session from
    it. *)
Theorem accepted_options_are_complete URL_protocol setOptions data options :
  URL_protocol "" = None →
  default "" (OptionsPage.validateUsername (FormData_get data "username")) = "" →
  default "" (OptionsPage.validateServerUrl URL_protocol (FormData_get data "serverUrl"))
    = "" →
  OptionsPage.SetOptions options ∈ OptionsPage.onSubmit setOptions data →
  ∃ username serverUrl,
    OptionsPage.username options = EntryString username ∧
    OptionsPage.serverUrl options = EntryString serverUrl ∧
    (3 ≤ String.length username ≤ 100)%nat ∧
    (URL_protocol serverUrl = Some "ws:" ∨ URL_protocol serverUrl = Some "wss:") ∧
    ∀ read,
      Background.options_username read = Some username →
      Background.options_serverUrl read = Some serverUrl →
      Background.incomplete read = false.
Proof.
  intros Hempty Husername HserverUrl Hin.
  unfold OptionsPage.onSubmit in Hin.
  apply elem_of_cons in Hin as [[= ->]|Hin].
  2:{ apply elem_of_cons in Hin as [?|Hin]; [done|].
      destruct (setOptions _); [by apply elem_of_nil in Hin|].
      by apply list_elem_of_singleton in Hin. }
  destruct (FormData_get data "username") as [[username|?]|]; try done.
  destruct (FormData_get data "serverUrl") as [[serverUrl|?]|]; try done.
  apply validateUsername_accepts in Husername.
  apply validateServerUrl_accepts in HserverUrl.
  exists username, serverUrl. simpl. do 4 (split; [done|]).
  intros read Hread_username Hread_serverUrl.
  unfold Background.incomplete. rewrite Hread_username, Hread_serverUrl. simpl.
  apply orb_false_iff. split; apply bool_decide_eq_false; intros ->.
  - simpl in Husername. lia.
  - rewrite Hempty in HserverUrl. by destruct HserverUrl.
Qed.

Lemma receive_errors messages page :
  (∀ message, message ∈ messages → ∃ detail, message = Background.session_error detail) →
  Popup.receive messages page = (page, Return tt).
Proof.
  unfold Popup.receive. induction messages as [|message rest IH]; intros Hall; [done|].
  destruct (Hall message) as [detail ->]; [left|].
  simpl. unfold bind. simpl. apply IH. intros m Hm. apply Hall. by right.
Qed.

Section Popup.
Context {Session : Type} `{Background.SessionAPI Session}.
Import Background BackgroundFacts.

Lemma posted_to_app port l1 l2 :
  posted_to port (l1 ++ l2) = posted_to port l1 ++ posted_to port l2.
Proof. apply omap_app. Qed.

Lemma posted_to_error_posts port detail (st : @State Session) :
  (∀ message, message ∈ posted_to port (error_posts detail st) →
     message = session_error detail) ∧
  (port ∈ error_listeners st → session_error detail ∈ posted_to port (error_posts detail st)).
Proof.
  unfold error_posts. induction (error_listeners st) as [|p rest [IH1 IH2]].
  { split; [by intros ? ?%elem_of_nil|by intros ?%elem_of_nil]. }
  simpl. unfold posted_to in *. simpl. case_bool_decide as Hp; split.
  - intros message [->|Hin]%elem_of_cons; [done|by apply IH1].
  - intros _. left.
  - done.
  - intros [?|Hin]%elem_of_cons; [congruence|by apply IH2].
Qed.

(** X22. [onSubmit] of the options page stores the options and sends one
    [options_changed] message, in this order and whether or not storing
    fails; the API key is stored exactly when the "useApiKey" entry is
    truthy.  On that message the background script invalidates its cached
    options and leaves the session as it is. *)
Theorem submitted_options_reach_the_background setOptions data (st : @State Session) :
  ∃ options settled st',
    OptionsPage.onSubmit setOptions data =
      OptionsPage.SetOptions options :: OptionsPage.SentMessage options_changed :: settled ∧
    (∀ message, OptionsPage.SentMessage message ∉ settled) ∧
    (OptionsPage.apiKey options = None ↔
       OptionsPage.truthy (FormData_get data "useApiKey") = false) ∧
    onRuntimeMessage (well_formed options_changed) st = (st', Return tt) ∧
    effects_since st st' = [LoggedMessage debug "Received message: " options_changed;
                            OptionsInvalidated] ∧
    session st' = session st ∧
    store st' = store st.
Proof.
  unfold OptionsPage.onSubmit. eexists _, _, _. split; [reflexivity|]. split_and!.
  - intros message Hin. destruct (setOptions _); [by apply elem_of_nil in Hin|].
    by apply list_elem_of_singleton in Hin.
  - simpl. by destruct (OptionsPage.truthy _).
  - reflexivity.
  - unfold emit, modify. simpl. by rewrite emitting_emitting, effects_since_emitting.
  - done.
  - done.
Qed.

End Popup.
End PagesTheorems.

(** ** The further theorems on examples *)

(** A frame with one more key decodes as the frame without it. *)
Lemma unprescribed_keys_are_ignored_witness :
  @Messages.decodeMessage Reference.msgpack Examples.tinted_frame =
  @Messages.decodeMessage Reference.msgpack Examples.create_frame.
Proof.
  apply (@ChannelLifeCycle.unprescribed_keys_are_ignored Reference.msgpack
           Examples.create_frame Examples.tinted_frame
           Examples.stamped_create_props "tint" (JS.VString "red")).
  - vm_compute. reflexivity.
  - vm_compute. reflexivity.
  - done.
  - apply (bool_decide_unpack _). vm_compute. exact I.
Defined.

(** The frame of a [room::create] message decodes to a valid body and its
    timestamp. *)
Lemma decoded_message_is_valid_witness :
  ∃ body n,
    Examples.stamped_create = JS.VObject (<["t" := JS.VNumber n]> body) ∧
    JS.isNaN n = false ∧
    Messages.valid_body body ∧
    Zod.schema_parse Messages.MessageSchema Examples.stamped_create
      = JS.Return Examples.stamped_create.
Proof.
  apply (@ChannelLifeCycle.decoded_message_is_valid Reference.msgpack
           Examples.create_frame Examples.stamped_create).
  vm_compute. reflexivity.
Defined.

(** The same frame is dispatched as one message event. *)
Lemma frame_is_dispatched_as_one_message_witness :
  ∃ this',
    @Messages.on_message Reference.msgpack _
      (Messages.DataUint8Array Examples.create_frame) Examples.connecting_channel
      = (this', JS.Return tt) ∧
    Messages.dispatched this' = [Messages.MessageEvent Examples.stamped_create].
Proof.
  destruct (@ChannelLifeCycle.frame_is_dispatched_as_one_message Reference.msgpack _
              Examples.connecting_channel Examples.create_frame Examples.stamped_create)
    as [(this' & Hrun & Hdispatched & _) _]; [vm_compute; reflexivity|].
  exists this'. split; [exact Hrun | exact Hdispatched].
Defined.

(** A channel over the reference transport, through the life above. *)
Lemma constructed_channel_is_open_until_closed_witness :
  @Messages.closed_count Reference.WebSocket
    (@Messages.perform_all Reference.msgpack _ Reference.websocket Examples.life
       Examples.connecting_channel) = 2%nat.
Proof.
  apply (@ChannelLifeCycle.constructed_channel_is_open_until_closed
           Reference.msgpack _ Reference.websocket "wss://palantir.example/ws"
           Examples.connecting_channel Examples.life).
  vm_compute. reflexivity.
Defined.


(** Once the popup has disconnected, neither an update of the session nor
    a failing intent is posted to it. *)
Lemma disconnected_port_is_not_posted_to_witness :
  (Background.port_connected Examples.popup ∉
     [Background.session_update 0; Background.createRoom_resumes Examples.alpha]) ∧
  ∀ message,
    Background.Posted Examples.popup message ∉
      Background.effects_since
        (@Background.step _ Reference.session_api
           (Background.port_disconnected Examples.popup) Examples.with_closed_channel).1
        (@Background.run _ Reference.session_api
           [Background.session_update 0;
            Background.createRoom_resumes Examples.alpha]
           (@Background.step _ Reference.session_api
              (Background.port_disconnected Examples.popup)
              Examples.with_closed_channel).1).1.
Proof.
  assert (Background.port_connected Examples.popup ∉
            [Background.session_update 0; Background.createRoom_resumes Examples.alpha])
    as Hinputs.
  { intros Hin. repeat (apply elem_of_cons in Hin as [?|Hin]; [done|]).
    by apply elem_of_nil in Hin. }
  split; [exact Hinputs|].
  apply (@BroadcastTheorems.disconnected_port_is_not_posted_to _ Reference.session_api).
  exact Hinputs.
Defined.

(** A session dropped after a failed operation is not called again, not
    even to close it, when the next intent starts another session. *)
Lemma session_that_is_not_current_is_never_called_witness :
  (0 < length (Background.store
                 (@Background.createRoom _ Reference.session_api Examples.complete_options
                    Examples.alpha Examples.with_closed_channel).1))%nat ∧
  Background.session
    (@Background.createRoom _ Reference.session_api Examples.complete_options
       Examples.alpha Examples.with_closed_channel).1 ≠ Some 0%nat ∧
  ∀ method outcome,
    Background.Called 0 method outcome ∉
      Background.effects_since
        (@Background.createRoom _ Reference.session_api Examples.complete_options
           Examples.alpha Examples.with_closed_channel).1
        (@Background.run _ Reference.session_api
           [Background.port_message Examples.complete_options Examples.popup
              (Background.well_formed (Background.create_room "beta" "secret"));
            Background.session_update 0]
           (@Background.createRoom _ Reference.session_api Examples.complete_options
              Examples.alpha Examples.with_closed_channel).1).1.
Proof.
  split; [vm_compute; lia|]. split; [vm_compute; discriminate|].
  apply (@BroadcastTheorems.session_that_is_not_current_is_never_called
           _ Reference.session_api).
  - vm_compute. lia.
  - vm_compute. discriminate.
Defined.

(** The popup connects to the script just loaded and disconnects again. *)
Lemma port_listens_while_connected_witness :
  Background.update_listeners
    (@Background.run _ Reference.session_api
       [Background.port_connected Examples.popup;
        Background.port_disconnected Examples.popup] Background.initial).1 = [].
Proof.
  destruct (@BroadcastTheorems.port_listens_while_connected _ Reference.session_api
              Examples.popup "" Background.initial) as [_ Hround].
  destruct Hround as [Hupdate _]; [by intros ?%elem_of_nil..|].
  exact Hupdate.
Defined.

(** A server URL without a scheme: the constructor throws and the popup is
    told nothing. *)
Lemma constructor_failure_is_not_reported_witness :
  ∃ st',
    @Background.onPortMessage _ Reference.connecting_session_api
      Examples.schemeless_options Examples.popup
      (Background.well_formed (Background.create_room "alpha" "secret")) Examples.connected
      = (st', JS.Return tt) ∧
    Background.session st' = None ∧
    Background.posted_to Examples.popup (Background.effects_since Examples.connected st')
      = [].
Proof.
  destruct (@BroadcastTheorems.constructor_failure_is_not_reported
              _ Reference.connecting_session_api Examples.schemeless_options
              Examples.popup Examples.connected
              (JS.Error "SyntaxError" "The URL's scheme must be either 'ws' or 'wss'."))
    with (message := Background.create_room "alpha" "secret")
    as (st' & Hrun & Hsession & _ & Heffects);
    [vm_compute; reflexivity..|left; eauto|].
  exists st'. split; [exact Hrun|]. split; [exact Hsession|]. by rewrite Heffects.
Defined.

(** A second room is created on the session the first one was created on. *)
Lemma current_session_is_reused_witness :
  ∃ effects,
    Background.effects_since Examples.in_session
      (@Background.createRoom _ Reference.session_api Examples.incomplete_options
         Examples.beta Examples.in_session).1 =
    Background.Called 0 (Background.call_createRoom Examples.beta) (JS.Return tt)
    :: effects.
Proof.
  destruct (@BroadcastTheorems.current_session_is_reused _ Reference.session_api
              Examples.incomplete_options Examples.in_session 0%nat
              (Reference.with_status Background.JOINING
                 {| Reference.session_options := Examples.alice;
                    Reference.channel_open := true;
                    Reference.state :=
                      {| Background.inRoom := false;
                         Background.roomConnectionStatus := Some Background.NOT_IN_ROOM;
                         Background.room := None |} |}))
    as [Hcreate _]; [vm_compute; reflexivity..|].
  destruct (Hcreate Examples.beta) as (effects & Heffects & _).
  exists effects. exact Heffects.
Defined.

(** A restart with a server URL without a scheme: the running session is
    closed and stays current. *)
Lemma failed_restart_leaves_closed_session_current_witness :
  ∃ st' e,
    @Background.startSession _ Reference.connecting_session_api Examples.schemeless
      Examples.in_session = (st', JS.Throw e) ∧
    Background.session st' = Some 0%nat ∧
    (Reference.channel_open <$> Background.store st' !! 0%nat) = Some false.
Proof.
  destruct (@BroadcastTheorems.failed_restart_leaves_closed_session_current
              _ Reference.connecting_session_api Examples.schemeless
              Examples.in_session 0%nat
              (Reference.with_status Background.JOINING
                 {| Reference.session_options := Examples.alice;
                    Reference.channel_open := true;
                    Reference.state :=
                      {| Background.inRoom := false;
                         Background.roomConnectionStatus := Some Background.NOT_IN_ROOM;
                         Background.room := None |} |})
              (JS.Error "SyntaxError" "The URL's scheme must be either 'ws' or 'wss'."))
    as (st' & Hrun & Hsession & Hstore & _); [vm_compute; reflexivity..|].
  exists st', (JS.Error "SyntaxError" "The URL's scheme must be either 'ws' or 'wss'.").
  split; [exact Hrun|]. split; [exact Hsession|]. by rewrite Hstore.
Defined.

(** The submit button of the options form stays enabled although the form
    holds an invalid field. *)
Lemma setSubmitButtonState_changes_nothing_witness :
  Utils.setSubmitButtonState (Some Utils.EDIT) [2%nat] Examples.options_form =
  (Examples.options_form, JS.Return tt).
Proof.
  apply UtilsTheorems.setSubmitButtonState_changes_nothing.
  intros ref node ->%list_elem_of_singleton [= <-] [_ Hinput].
  vm_compute in Hinput. discriminate.
Defined.

(** A username and a websocket URL that the options page accepts. *)
Lemma accepted_options_are_complete_witness :
  ∃ username serverUrl,
    Utils.EntryString "alice" = Utils.EntryString username ∧
    Utils.EntryString "wss://palantir.example/ws" = Utils.EntryString serverUrl ∧
    (3 ≤ String.length username ≤ 100)%nat ∧
    (Reference.URL_protocol serverUrl = Some "ws:" ∨
     Reference.URL_protocol serverUrl = Some "wss:") ∧
    ∀ read,
      Background.options_username read = Some username →
      Background.options_serverUrl read = Some serverUrl →
      Background.incomplete read = false.
Proof.
  apply (PagesTheorems.accepted_options_are_complete Reference.URL_protocol
           (λ _, JS.Return tt) Examples.options_data
           {| OptionsPage.username := Utils.EntryString "alice";
              OptionsPage.serverUrl := Utils.EntryString "wss://palantir.example/ws";
              OptionsPage.apiKey := None |}).
  - vm_compute. reflexivity.
  - vm_compute. reflexivity.
  - vm_compute. reflexivity.
  - left.
Defined.

(** The options form is given a username and a tick for the checkbox,
    with listeners that do nothing. *)
Lemma set_writes_only_what_fits_witness :
  Utils.keeps_dom (λ _, mret tt) ∧
  length (Utils.dom
            (Utils.set (λ _, "null") (λ _ text, text) (λ _, mret tt) [0; 1]%nat
               [("username", Some (Utils.plain_value (Utils.FEntry (Utils.EntryString "alice"))));
                ("useApiKey", Some (Utils.plain_value (Utils.FBoolean true)))]
               Examples.options_form).1) = length (Utils.dom Examples.options_form).
Proof.
  split; [done|].
  apply (UtilsTheorems.set_writes_only_what_fits (λ _, "null") (λ _ text, text) [0; 1]%nat
           (λ _, mret tt)).
  done.
Defined.

